(** * AbortablePromise: a shallow embedding of src/promises/AbortablePromise.ts

    The development has two layers and the static helpers on top.

    - Module [Core] embeds the closure built by one run of the
      [AbortablePromise] constructor: the settlement slot of the underlying
      promise, the private [AbortController], the [cleanupFns] array, the
      bridge to an outer [abortSignal], the timeout and the functions
      [abort], [onAborted], [resolve], [reject] that close over them.
    - Module [Chain] puts several such objects in one heap together with
      the microtask queue, and embeds [then], [catch], [finally] and
      [reassignProps].
    - Module [Static] embeds the static helpers [fn], [resolve] and
      [reject] over [Core]; module [Readings] holds the predicates the
      further properties are stated with.

    Platform behaviour the source relies on is written as the standards
    state it: a promise settles once; [controller.abort(reason)] sets
    [signal.reason] (an [AbortError] when [reason] is [undefined]) and
    dispatches one ['abort'] event to the listeners attached at that
    moment, in registration order; a listener added to an aborted signal
    is never called; [clearTimeout] and [removeEventListener] are
    idempotent.

    Scope of the model.  Values are first-order (no thenables are passed
    to [resolve] or returned by handlers); a [timeout] is an integer (no
    NaN, no fractions) and time itself is not modelled, only the firing
    of the timer; the work function is a script over the operations of
    its three parameters; listeners passed by the work function to
    [onAborted] and [onResolved] only observe (they are recorded in the
    log), and the deregistration handle that [onAborted] returns is only
    run from [cleanupFns].  A function given to [fn] returns a
    first-order value or throws, and of the [await] in [fn] only the
    deferral is modelled: what follows it runs as a later step. *)

From Stdlib Require Import ZArith String List Bool Lia.
From stdpp Require Import base option list.
Import ListNotations.

(** ** Values *)

(** Modelled from the spec: the classes [TimeoutError] and
    [CancelledError] ([../errors/]) are not among the sources.  The spec
    (section 6) describes them as data carriers: a timeout fault carrying
    the configured duration and a cancellation fault without payload. *)
Inductive Value : Type :=
  | VUndefined
  | VNum (n : Z)
  | VStr (s : string)
  | VAbortError                 (* the DOMException made by controller.abort() *)
  | VTimeoutError (timeout : Z) (* new TimeoutError(timeout) *)
  | VCancelledError             (* new CancelledError() *)
  | VResolved (result : Value). (* withResolved(result) *)

(** Modelled from the spec: [./resolve.js] is not among the sources.  The
    spec (section 4.7) describes a pure pair: a function tagging a value
    as "resolved" and a predicate recognising the tag; the source reads
    the tagged value back as [reason[1]]. *)
Definition withResolved (result : Value) : Value := VResolved result.

Definition isPromiseResolveResult (reason : Value) : bool :=
  match reason with
  | VResolved _ => true
  | _ => false
  end.

(** [reason[1]] on a value recognised by [isPromiseResolveResult]. *)
Definition resolveResultPayload (reason : Value) : Value :=
  match reason with
  | VResolved v => v
  | _ => VUndefined
  end.

Module Core.

(** ** The state captured by the constructor's closures *)

Inductive PromiseState : Type :=
  | Pending
  | Fulfilled (value : Value)
  | Rejected (reason : Value).

(** Listeners attached to the private signal's ['abort'] event.  Each is
    the [wrapped] closure of one [onAborted] call. *)
Inductive Listener : Type :=
  | LRej                      (* onAborted(rej), the rejectOnAbort listener *)
  | LUser (tag : nat)         (* context.onAborted(listener) *)
  | LOnResolved (tag : nat).  (* context.onResolved(listener) *)

(** The closures pushed on [cleanupFns]. *)
Inductive Cleanup : Type :=
  | CRemoveListener (id : nat) (* signal.removeEventListener('abort', wrapped, true) *)
  | CRemoveBridge              (* abortSignal.removeEventListener('abort', listener) *)
  | CClearTimeout.             (* clearTimeout(timeoutId) *)

Inductive Timer : Type :=
  | NoTimer
  | Armed (delay : Z)
  | Fired (delay : Z)
  | Cleared (delay : Z).

(** Ghost log of the calls that leave the closure: the resolving functions
    of the underlying promise, the controller, user listeners, cleanup
    closures, the timer and the work function. *)
Inductive Event : Type :=
  | EvRes (value : Value)              (* res(value) *)
  | EvRej (reason : Value)             (* rej(reason) *)
  | EvControllerAbort (reason : Value) (* controller.abort(reason) *)
  | EvListener (tag : nat) (arg : Value)
  | EvCleanup (c : Cleanup)
  | EvSetTimeout (delay : Z)
  | EvExecutor                         (* executor(resolve, reject, context) *)
  | EvIsAborted (b : bool)             (* context.isAborted() returned b *)
  | EvAbortReason (r : Value).         (* context.abortReason() returned r *)

Record AbortablePromise : Type := mkPromise {
  state : PromiseState;            (* settlement of the underlying promise *)
  signal_reason : option Value;    (* None: signal.aborted is false *)
  signal_listeners : list (nat * Listener);
  next_listener : nat;
  cleanupFns : list Cleanup;
  bridge : bool;                   (* listener attached to options.abortSignal *)
  timer : Timer;
  log : list Event
}.

Definition fresh : AbortablePromise :=
  mkPromise Pending None [] 0 [] false NoTimer [].

Definition set_state (s : PromiseState) (p : AbortablePromise) :=
  mkPromise s (signal_reason p) (signal_listeners p) (next_listener p)
            (cleanupFns p) (bridge p) (timer p) (log p).
Definition set_signal_reason (r : option Value) (p : AbortablePromise) :=
  mkPromise (state p) r (signal_listeners p) (next_listener p)
            (cleanupFns p) (bridge p) (timer p) (log p).
Definition set_signal_listeners (l : list (nat * Listener)) (p : AbortablePromise) :=
  mkPromise (state p) (signal_reason p) l (next_listener p)
            (cleanupFns p) (bridge p) (timer p) (log p).
Definition set_next_listener (n : nat) (p : AbortablePromise) :=
  mkPromise (state p) (signal_reason p) (signal_listeners p) n
            (cleanupFns p) (bridge p) (timer p) (log p).
Definition set_cleanupFns (c : list Cleanup) (p : AbortablePromise) :=
  mkPromise (state p) (signal_reason p) (signal_listeners p) (next_listener p)
            c (bridge p) (timer p) (log p).
Definition set_bridge (b : bool) (p : AbortablePromise) :=
  mkPromise (state p) (signal_reason p) (signal_listeners p) (next_listener p)
            (cleanupFns p) b (timer p) (log p).
Definition set_timer (t : Timer) (p : AbortablePromise) :=
  mkPromise (state p) (signal_reason p) (signal_listeners p) (next_listener p)
            (cleanupFns p) (bridge p) t (log p).
Definition emit (e : Event) (p : AbortablePromise) :=
  mkPromise (state p) (signal_reason p) (signal_listeners p) (next_listener p)
            (cleanupFns p) (bridge p) (timer p) (log p ++ [e]).

(** ** The underlying promise's resolving functions *)

Definition res (value : Value) (p : AbortablePromise) : AbortablePromise :=
  let p := emit (EvRes value) p in
  match state p with
  | Pending => set_state (Fulfilled value) p
  | _ => p
  end.

Definition rej (reason : Value) (p : AbortablePromise) : AbortablePromise :=
  let p := emit (EvRej reason) p in
  match state p with
  | Pending => set_state (Rejected reason) p
  | _ => p
  end.

(** ** The private controller and its signal *)

(** [signal.aborted] *)
Definition isAborted (p : AbortablePromise) : bool :=
  match signal_reason p with
  | Some _ => true
  | None => false
  end.

(** [const abortReason = () => signal.reason] *)
Definition abortReason (p : AbortablePromise) : Value :=
  match signal_reason p with
  | Some r => r
  | None => VUndefined
  end.

Definition isResolved (p : AbortablePromise) : bool :=
  isPromiseResolveResult (abortReason p).

Definition resolved (p : AbortablePromise) : Value :=
  let reason := abortReason p in
  if isPromiseResolveResult reason then resolveResultPayload reason else VUndefined.

(** One listener called by the dispatch of ['abort']: the [wrapped] closure
    calls its listener with [abortReason()]. *)
Definition call_listener (l : Listener) (p : AbortablePromise) : AbortablePromise :=
  match l with
  | LRej => rej (abortReason p) p
  | LUser tag => emit (EvListener tag (abortReason p)) p
  | LOnResolved tag =>
      if isResolved p then emit (EvListener tag (resolved p)) p else p
  end.

(** The listeners of a dispatch are fixed when it starts. *)
Definition dispatch_to (ls : list (nat * Listener)) (p : AbortablePromise)
  : AbortablePromise :=
  fold_left (fun q l => call_listener (snd l) q) ls p.

Definition dispatch_abort (p : AbortablePromise) : AbortablePromise :=
  dispatch_to (signal_listeners p) p.

(** The reason an aborted signal holds: the one given to
    [controller.abort], or a new [AbortError] when that is [undefined]. *)
Definition stored_reason (reason : Value) : Value :=
  match reason with
  | VUndefined => VAbortError
  | _ => reason
  end.

(** [controller.abort(reason)]: nothing on an aborted signal; else set the
    reason, then dispatch ['abort']. *)
Definition controller_abort (reason : Value) (p : AbortablePromise) : AbortablePromise :=
  match signal_reason p with
  | Some _ => p
  | None =>
      dispatch_abort
        (set_signal_reason (Some (stored_reason reason))
                           (emit (EvControllerAbort reason) p))
  end.

(** [abort = reason => { !signal.aborted && controller.abort(reason) }] *)
Definition abort (reason : Value) (p : AbortablePromise) : AbortablePromise :=
  if negb (isAborted p) then controller_abort reason p else p.

(** [onAborted(listener)]: returns the new state and the [cleanup] handle. *)
Definition onAborted (l : Listener) (p : AbortablePromise) : AbortablePromise * Cleanup :=
  let id := next_listener p in
  let p := set_next_listener (S id) p in
  let p := set_signal_listeners (signal_listeners p ++ [(id, l)]) p in
  let cleanup := CRemoveListener id in
  (set_cleanupFns (cleanupFns p ++ [cleanup]) p, cleanup).

(** ** Cleanup section *)

Definition run_cleanup (c : Cleanup) (p : AbortablePromise) : AbortablePromise :=
  let p := emit (EvCleanup c) p in
  match c with
  | CRemoveListener id =>
      set_signal_listeners
        (List.filter (fun e => negb (Nat.eqb (fst e) id)) (signal_listeners p)) p
  | CRemoveBridge => set_bridge false p
  | CClearTimeout =>
      match timer p with
      | Armed d => set_timer (Cleared d) p
      | _ => p
      end
  end.

(** [cleanupFns.forEach(fn => fn())] *)
Definition run_cleanups (cs : list Cleanup) (p : AbortablePromise) : AbortablePromise :=
  fold_left (fun q c => run_cleanup c q) cs p.

Definition run_cleanupFns (p : AbortablePromise) : AbortablePromise :=
  run_cleanups (cleanupFns p) p.

(** [withCleanup(fn)]: call [fn], then every cleanup function. *)
Definition withCleanup {A : Type}
    (fn : A -> AbortablePromise -> AbortablePromise)
    (arg : A) (p : AbortablePromise) : AbortablePromise :=
  let result := fn arg p in
  run_cleanupFns result.

(** The enhanced [resolve] and [reject]. *)
Definition resolve : Value -> AbortablePromise -> AbortablePromise :=
  withCleanup (fun result p => abort (withResolved result) (res result p)).

Definition reject : Value -> AbortablePromise -> AbortablePromise :=
  withCleanup (fun reason p => abort reason (rej reason p)).

(** [cancel() { this.abort(new CancelledError()) }], on an object whose
    [abort] property is its own. *)
Definition cancel (p : AbortablePromise) : AbortablePromise :=
  abort VCancelledError p.

(** ** Timeout and outer signal *)

(** The callback given to [setTimeout]: [abort(new TimeoutError(timeout))].
    It only runs while the timer is armed. *)
Definition timeout_fires (p : AbortablePromise) : AbortablePromise :=
  match timer p with
  | Armed d => abort (VTimeoutError d) (set_timer (Fired d) p)
  | _ => p
  end.

(** The outer [abortSignal] dispatches ['abort'] with reason [reason]; the
    bridge [listener] runs [abort(abortSignal.reason)] if still attached. *)
Definition abortSignal_aborts (reason : Value) (p : AbortablePromise) : AbortablePromise :=
  if bridge p then abort reason p else p.

(** ** The work function *)

Inductive ExecutorResult : Type :=
  | RUndefined
  | RValue (v : Value)      (* a value that is not a Promise instance *)
  | RPromise (ref : nat).   (* a Promise instance of the heap *)

(** A work function, as the sequence of calls it makes on [resolve],
    [reject] and the context, each continuing with what the call
    returned, ending in [return] or [throw]. *)
Inductive Executor : Type :=
  | Return (r : ExecutorResult)
  | Throw (e : Value)
  | CallResolve (v : Value) (k : Executor)
  | CallReject (r : Value) (k : Executor)
  | CallOnAborted (tag : nat) (k : Executor)
  | CallOnResolved (tag : nat) (k : Executor)
  | CallIsAborted (k : bool -> Executor)
  | CallIsResolved (k : bool -> Executor)
  | CallAbortReason (k : Value -> Executor)
  | CallResolved (k : Value -> Executor)
  | CallThrowIfAborted (k : Executor).

Inductive Completion : Type :=
  | Normal (r : ExecutorResult)
  | Thrown (e : Value).

Fixpoint run_executor (e : Executor) (p : AbortablePromise)
  : AbortablePromise * Completion :=
  match e with
  | Return r => (p, Normal r)
  | Throw x => (p, Thrown x)
  | CallResolve v k => run_executor k (resolve v p)
  | CallReject r k => run_executor k (reject r p)
  | CallOnAborted tag k => run_executor k (fst (onAborted (LUser tag) p))
  | CallOnResolved tag k => run_executor k (fst (onAborted (LOnResolved tag) p))
  | CallIsAborted k =>
      run_executor (k (isAborted p)) (emit (EvIsAborted (isAborted p)) p)
  | CallIsResolved k => run_executor (k (isResolved p)) p
  | CallAbortReason k =>
      run_executor (k (abortReason p)) (emit (EvAbortReason (abortReason p)) p)
  | CallResolved k => run_executor (k (resolved p)) p
  | CallThrowIfAborted k =>
      if isAborted p then (p, Thrown (abortReason p)) else run_executor k p
  end.

(** ** Options and the constructor *)

(** An outer [AbortSignal] as the constructor reads it. *)
Record AbortSignal : Type := mkSignal {
  aborted : bool;
  reason : Value
}.

Record PromiseOptions : Type := mkOptions {
  abortSignal : option AbortSignal;
  rejectOnAbort : option bool;
  timeout : option Z
}.

Definition no_options : PromiseOptions := mkOptions None None None.

(** The first constructor argument: a function or an options object. *)
Inductive ExecutorOrOptions : Type :=
  | IsFunction (executor : Executor)
  | IsOptions (options : PromiseOptions).

(** JavaScript truthiness of a number. *)
Definition truthy (n : Z) : bool := negb (Z.eqb n 0).

(** The part of the function passed to [super] that runs before the work
    function.  [inl]: the constructor left through [return reject(reason)]. *)
Definition setup (options : PromiseOptions) : AbortablePromise + AbortablePromise :=
  let rejectOnAbort := default true (rejectOnAbort options) in
  let p := fresh in
  (* Process abortSignal option. *)
  let early :=
    match abortSignal options with
    | Some s =>
        if aborted s then
          if rejectOnAbort then inl (reject (reason s) p)
          else inr (abort (reason s) p)
        else inr (set_cleanupFns (cleanupFns p ++ [CRemoveBridge]) (set_bridge true p))
    | None => inr p
    end in
  match early with
  | inl p => inl p
  | inr p =>
      (* Process rejectOnAbort option. *)
      let p := if rejectOnAbort then fst (onAborted LRej p) else p in
      (* Process timeout option. *)
      match timeout options with
      | Some d =>
          if truthy d then
            inr (set_cleanupFns (cleanupFns p ++ [CClearTimeout])
                   (set_timer (Armed d) (emit (EvSetTimeout d) p)))
          else inr p
      | None => inr p
      end
  end.

(** The overload: [typeof executorOrOptions === 'function'], then
    [options ||= {}]. *)
Definition executor_of (executorOrOptions : option ExecutorOrOptions) : option Executor :=
  match executorOrOptions with
  | Some (IsFunction e) => Some e
  | _ => None
  end.

Definition options_of (executorOrOptions : option ExecutorOrOptions)
    (maybeOptions : option PromiseOptions) : PromiseOptions :=
  default no_options
    match executorOrOptions with
    | Some (IsFunction _) => maybeOptions
    | Some (IsOptions o) => Some o
    | None => None
    end.

(** The body of the function passed to [super].  The second component is
    the Promise instance the work function returned, on which the
    constructor calls [.catch(reject)]. *)
Definition construct (executorOrOptions : option ExecutorOrOptions)
    (maybeOptions : option PromiseOptions) : AbortablePromise * option nat :=
  match setup (options_of executorOrOptions maybeOptions) with
  | inl p => (p, None)
  | inr p =>
      match executor_of executorOrOptions with
      | None => (p, None)
      | Some e =>
          match run_executor e (emit EvExecutor p) with
          | (p, Normal (RPromise ref)) => (p, Some ref)
          | (p, Normal _) => (p, None)
          | (p, Thrown x) => (reject x p, None)
          end
      end
  end.

(** ** What can happen to a promise after its construction *)

Inductive Step : Type :=
  | SAbort (reason : Value)      (* promise.abort(reason) *)
  | SReject (reason : Value)     (* promise.reject(reason) *)
  | SCancel                      (* promise.cancel() *)
  | STimeout                     (* the timer elapses *)
  | SSignal (reason : Value)     (* the outer abortSignal aborts *)
  | SWork (e : Executor).        (* the work function resumes asynchronously *)

Definition step (s : Step) (p : AbortablePromise) : AbortablePromise :=
  match s with
  | SAbort r => abort r p
  | SReject r => reject r p
  | SCancel => cancel p
  | STimeout => timeout_fires p
  | SSignal r => abortSignal_aborts r p
  | SWork e => fst (run_executor e p)
  end.

Definition run (steps : list Step) (p : AbortablePromise) : AbortablePromise :=
  fold_left (fun q s => step s q) steps p.

(** The promises a program can hold: built by the constructor, then
    driven by any sequence of steps. *)
Definition reachable (executorOrOptions : option ExecutorOrOptions)
    (maybeOptions : option PromiseOptions) (p : AbortablePromise) : Prop :=
  exists steps, p = run steps (fst (construct executorOrOptions maybeOptions)).

(** The value of [rejectOnAbort] the constructor computes. *)
Definition effective_rejectOnAbort (executorOrOptions : option ExecutorOrOptions)
    (maybeOptions : option PromiseOptions) : bool :=
  default true (rejectOnAbort (options_of executorOrOptions maybeOptions)).

(** ** Reading the log and the state *)

Definition cleanup_eqb (c c' : Cleanup) : bool :=
  match c, c' with
  | CRemoveListener i, CRemoveListener j => Nat.eqb i j
  | CRemoveBridge, CRemoveBridge => true
  | CClearTimeout, CClearTimeout => true
  | _, _ => false
  end.

(** Number of times the closure [c] of [cleanupFns] was called. *)
Definition cleanup_calls (c : Cleanup) (l : list Event) : nat :=
  length (List.filter (fun e => match e with
                                | EvCleanup c' => cleanup_eqb c c'
                                | _ => false
                                end) l).

(** Number of entries of [cleanupFns] that are the closure [c]. *)
Definition registrations (c : Cleanup) (cs : list Cleanup) : nat :=
  length (List.filter (cleanup_eqb c) cs).

Definition is_listener_event (e : Event) : bool :=
  match e with
  | EvListener _ _ => true
  | _ => false
  end.

Definition no_listener (evs : list Event) : bool :=
  forallb (fun e => negb (is_listener_event e)) evs.

Definition timer_delay (t : Timer) : option Z :=
  match t with
  | NoTimer => None
  | Armed d | Fired d | Cleared d => Some d
  end.

(** A timer that exists was made from the configured, truthy [timeout],
    and its [clearTimeout] closure is in [cleanupFns]. *)
Definition timer_invariant (o : PromiseOptions) (p : AbortablePromise) : Prop :=
  match timer_delay (timer p) with
  | Some d => timeout o = Some d /\ truthy d = true /\ In CClearTimeout (cleanupFns p)
  | None => True
  end.

(** [cleanupFns] only grows, and a timer keeps its delay. *)
Definition keeps_timer (p q : AbortablePromise) : Prop :=
  timer_delay (timer q) = timer_delay (timer p)
  /\ exists extra, cleanupFns q = cleanupFns p ++ extra.

(** The condition under which the constructor leaves through
    [return reject(reason)]. *)
Definition returns_early (o : PromiseOptions) : bool :=
  match abortSignal o with
  | Some s => aborted s && default true (rejectOnAbort o)
  | None => false
  end.

Definition is_cleanup_event (e : Event) : bool :=
  match e with
  | EvCleanup _ => true
  | _ => false
  end.

Definition no_cleanup (evs : list Event) : bool :=
  forallb (fun e => negb (is_cleanup_event e)) evs.

Definition is_rej (e : nat * Listener) : bool :=
  match snd e with
  | LRej => true
  | _ => false
  end.

(** The reason with which a step reaches [abort], if it does. *)
Definition abort_source (s : Step) (p : AbortablePromise) : option Value :=
  match s with
  | SAbort r => Some r
  | SCancel => Some VCancelledError
  | STimeout =>
      match timer p with
      | Armed d => Some (VTimeoutError d)
      | _ => None
      end
  | SSignal r => if bridge p then Some r else None
  | SReject _ | SWork _ => None
  end.

Definition has_rej_listener (p : AbortablePromise) : bool :=
  existsb is_rej (signal_listeners p).

(** While [rejectOnAbort] holds: a promise that is not aborted is pending
    and still has the listener of [onAborted(rej)]; an aborted one is
    settled. *)
Definition rejecting_invariant (p : AbortablePromise) : Prop :=
  match signal_reason p with
  | None => state p = Pending /\ has_rej_listener p = true
  | Some _ => state p <> Pending
  end.

(** The first [context.isAborted()] the work function made. *)
Fixpoint first_isAborted (l : list Event) : option bool :=
  match l with
  | [] => None
  | EvIsAborted b :: _ => Some b
  | _ :: l => first_isAborted l
  end.

Definition executor_called (l : list Event) : bool :=
  existsb (fun e => match e with EvExecutor => true | _ => false end) l.

Definition listener_calls (tag : nat) (l : list Event) : nat :=
  length (List.filter (fun e => match e with
                                | EvListener t _ => Nat.eqb t tag
                                | _ => false
                                end) l).

Definition timer_started (p : AbortablePromise) : bool :=
  match timer p with
  | NoTimer => false
  | _ => true
  end.

End Core.

Module Chain.
Import Core.

(** ** A heap of promises and the microtask queue *)

Inductive Kind : Type :=
  | Native      (* an instance of Promise only *)
  | Abortable.  (* an instance of AbortablePromise *)

(** What a call of a handler does. *)
Inductive Outcome : Type :=
  | Returns (v : Value)
  | Throws (e : Value).

(** A handler given to [then].  [HReject owner] is the [reject] closure
    made by the constructor run of object [owner], as in
    [result.catch(reject)]. *)
Inductive Handler : Type :=
  | HFunction (f : Value -> Outcome)
  | HReject (owner : nat).

Record Reaction : Type := mkReaction {
  capability : nat;              (* the derived promise *)
  onFulfilled : option Handler;
  onRejected : option Handler
}.

(** One promise object.  [abort_prop] and [reject_prop] are the
    properties [this.abort] and [this.reject]: each names the object whose
    constructor run made the closure stored there.  Of the [body] of a
    [Native] promise only the settlement is used. *)
Record Object : Type := mkObject {
  body : AbortablePromise;
  kind : Kind;
  reactions : list Reaction;
  handled : bool;
  abort_prop : option nat;
  reject_prop : option nat
}.

Inductive Job : Type :=
  | ReactionJob (r : Reaction) (settled : PromiseState).

Record Heap : Type := mkHeap {
  objects : list Object;
  jobs : list Job
}.

Definition empty_heap : Heap := mkHeap [] [].

Definition set_body (f : AbortablePromise -> AbortablePromise) (o : Object) : Object :=
  mkObject (f (body o)) (kind o) (reactions o) (handled o) (abort_prop o) (reject_prop o).

Definition set_reactions (rs : list Reaction) (o : Object) : Object :=
  mkObject (body o) (kind o) rs (handled o) (abort_prop o) (reject_prop o).

Definition set_handled (o : Object) : Object :=
  mkObject (body o) (kind o) (reactions o) true (abort_prop o) (reject_prop o).

Definition set_props (a r : option nat) (o : Object) : Object :=
  mkObject (body o) (kind o) (reactions o) (handled o) a r.

(** Settling a promise turns its reactions into jobs, in the order in
    which they were attached. *)
Definition flush (i : nat) (h : Heap) : Heap :=
  match objects h !! i with
  | Some o =>
      match state (body o) with
      | Pending => h
      | s => mkHeap (alter (set_reactions []) i (objects h))
                    (jobs h ++ map (fun r => ReactionJob r s) (reactions o))
      end
  | None => h
  end.

(** Run a function of the closure of object [i]. *)
Definition with_body (i : nat) (f : AbortablePromise -> AbortablePromise)
    (h : Heap) : Heap :=
  flush i (mkHeap (alter (set_body f) i (objects h)) (jobs h)).

Definition call_abort (owner : nat) (reason : Value) (h : Heap) : Heap :=
  with_body owner (abort reason) h.

Definition call_reject (owner : nat) (reason : Value) (h : Heap) : Heap :=
  with_body owner (reject reason) h.

(** [promise.abort(reason)] and [promise.reject(reason)]: property lookup,
    then call. *)
Definition method_abort (i : nat) (reason : Value) (h : Heap) : Heap :=
  match objects h !! i with
  | Some o =>
      match abort_prop o with
      | Some owner => call_abort owner reason h
      | None => h
      end
  | None => h
  end.

Definition method_reject (i : nat) (reason : Value) (h : Heap) : Heap :=
  match objects h !! i with
  | Some o =>
      match reject_prop o with
      | Some owner => call_reject owner reason h
      | None => h
      end
  | None => h
  end.

(** ** Deriving promises *)

(** The executor the platform passes to the species constructor: it
    stores [resolve] and [reject] as the capability and calls nothing. *)
Definition capability_executor : Executor := Return RUndefined.

(** [new C(capability_executor)] for the species constructor [C] of a
    promise of kind [k]. *)
Definition new_capability (k : Kind) (h : Heap) : nat * Heap :=
  let d := length (objects h) in
  let o :=
    match k with
    | Abortable =>
        mkObject (fst (construct (Some (IsFunction capability_executor)) None))
                 Abortable [] false (Some d) (Some d)
    | Native => mkObject fresh Native [] false None None
    end in
  (d, mkHeap (objects h ++ [o]) (jobs h)).

(** [Promise.prototype.then], reached as [super.then]. *)
Definition super_then (i : nat) (onF onR : option Handler) (h : Heap) : nat * Heap :=
  match objects h !! i with
  | Some o =>
      let '(d, h) := new_capability (kind o) h in
      let r := mkReaction d onF onR in
      let objs :=
        match state (body o) with
        | Pending =>
            alter (fun o => set_handled (set_reactions (reactions o ++ [r]) o)) i (objects h)
        | _ => alter set_handled i (objects h)
        end in
      let js :=
        match state (body o) with
        | Pending => jobs h
        | s => jobs h ++ [ReactionJob r s]
        end in
      (d, mkHeap objs js)
  | None => (i, h)
  end.

(** [reassignProps(childPromise, parentPromise)] *)
Definition reassignProps (childPromise parentPromise : nat) (h : Heap) : nat * Heap :=
  match objects h !! parentPromise with
  | Some parent =>
      (childPromise,
       mkHeap (alter (set_props (abort_prop parent) (reject_prop parent))
                     childPromise (objects h))
              (jobs h))
  | None => (childPromise, h)
  end.

(** [then]: the override on AbortablePromise, the platform's on Promise. *)
Definition then_ (i : nat) (onF onR : option Handler) (h : Heap) : nat * Heap :=
  match kind <$> objects h !! i with
  | Some Abortable =>
      let '(d, h) := super_then i onF onR h in
      reassignProps d i h
  | _ => super_then i onF onR h
  end.

(** [catch(onRejected) { return this.then(undefined, onRejected) }] *)
Definition catch_ (i : nat) (onR : option Handler) (h : Heap) : nat * Heap :=
  then_ i None onR h.

(** The two functions [Promise.prototype.finally] builds from a callable
    [onFinally].  If [onFinally] throws, both throw what it threw.  If it
    returns, the platform's functions return a promise
    ([promise.then(() => value)], or one that throws the reason), so the
    derived promise is locked in and takes the value or the reason some
    turns later, through promises the platform makes on the way.
    Promises as values are outside this model: the two functions below
    give the value or the reason at once, which is the final settlement
    only.  No statement of this development reads the settlement, the
    signal or the log of a promise derived by [finally] from a callable
    [onFinally]; [finally_] is used for the object it creates and for
    that object's [abort] and [reject] properties. *)
Definition thenFinally (onFinally : Outcome) : Handler :=
  HFunction (fun value => match onFinally with Throws e => Throws e | Returns _ => Returns value end).

Definition catchFinally (onFinally : Outcome) : Handler :=
  HFunction (fun reason => match onFinally with Throws e => Throws e | Returns _ => Throws reason end).

(** [finally]: [super.finally(onFinally)] calls [this.then], which is the
    override above; the result goes through [reassignProps] once more. *)
Definition finally_ (i : nat) (onFinally : option Outcome) (h : Heap) : nat * Heap :=
  let '(d, h) := then_ i (thenFinally <$> onFinally) (catchFinally <$> onFinally) h in
  match kind <$> objects h !! i with
  | Some Abortable => reassignProps d i h
  | _ => (d, h)
  end.

(** [new AbortablePromise(executorOrOptions, maybeOptions)] *)
Definition new_AbortablePromise (executorOrOptions : option ExecutorOrOptions)
    (maybeOptions : option PromiseOptions) (h : Heap) : nat * Heap :=
  let i := length (objects h) in
  let '(p, result) := construct executorOrOptions maybeOptions in
  let h := mkHeap (objects h ++ [mkObject p Abortable [] false (Some i) (Some i)])
                  (jobs h) in
  match result with
  | Some inner => (i, snd (catch_ inner (Some (HReject i)) h))
  | None => (i, h)
  end.

(** ** Microtasks *)

Definition call_handler (hd : Handler) (arg : Value) (h : Heap) : Outcome * Heap :=
  match hd with
  | HFunction f => (f arg, h)
  | HReject owner => (Returns VUndefined, call_reject owner arg h)
  end.

(** The capability's functions: the enhanced [resolve] and [reject] of an
    AbortablePromise, the plain resolving functions of a Promise. *)
Definition settle_capability (d : nat) (out : Outcome) (h : Heap) : Heap :=
  match kind <$> objects h !! d, out with
  | Some Abortable, Returns v => with_body d (resolve v) h
  | Some Abortable, Throws e => with_body d (reject e) h
  | Some Native, Returns v => with_body d (res v) h
  | Some Native, Throws e => with_body d (rej e) h
  | None, _ => h
  end.

Definition run_job (j : Job) (h : Heap) : Heap :=
  match j with
  | ReactionJob r s =>
      let '(out, h) :=
        match s with
        | Fulfilled v =>
            match onFulfilled r with
            | Some hd => call_handler hd v h
            | None => (Returns v, h)
            end
        | Rejected e =>
            match onRejected r with
            | Some hd => call_handler hd e h
            | None => (Throws e, h)
            end
        | Pending => (Returns VUndefined, h)
        end in
      settle_capability (capability r) out h
  end.

(** Run up to [n] jobs from the front of the queue. *)
Fixpoint run_microtasks (n : nat) (h : Heap) : Heap :=
  match n with
  | O => h
  | S n =>
      match jobs h with
      | [] => h
      | j :: js => run_microtasks n (run_job j (mkHeap (objects h) js))
      end
  end.

(** ** Chains *)

Inductive ChainOp : Type :=
  | OpThen (onF onR : option Handler)
  | OpCatch (onR : option Handler)
  | OpFinally (onFinally : option Outcome).

Definition derive (op : ChainOp) (i : nat) (h : Heap) : nat * Heap :=
  match op with
  | OpThen onF onR => then_ i onF onR h
  | OpCatch onR => catch_ i onR h
  | OpFinally f => finally_ i f h
  end.

(** [root.op1(..).op2(..)...] *)
Fixpoint derive_all (ops : list ChainOp) (i : nat) (h : Heap) : nat * Heap :=
  match ops with
  | [] => (i, h)
  | op :: ops => let '(d, h) := derive op i h in derive_all ops d h
  end.

Definition state_of (i : nat) (h : Heap) : option PromiseState :=
  (fun o => state (body o)) <$> objects h !! i.

Definition props_of (i : nat) (h : Heap) : option (option nat * option nat) :=
  (fun o => (abort_prop o, reject_prop o)) <$> objects h !! i.

(** [o'] is an object of the same class as [o] whose [abort] and
    [reject] properties hold the same closures. *)
Definition same_control (o o' : Object) : Prop :=
  kind o' = kind o /\ abort_prop o' = abort_prop o /\ reject_prop o' = reject_prop o.

Definition signal_reason_of (i : nat) (h : Heap) : option (option Value) :=
  (fun o => signal_reason (body o)) <$> objects h !! i.

Definition log_of (i : nat) (h : Heap) : option (list Event) :=
  (fun o => log (body o)) <$> objects h !! i.

(** What the reaction job of a promise rejected with [x] passes to the
    capability when [onRejected] is [g], a function without effects. *)
Definition rejection_outcome (g : option (Value -> Outcome)) (x : Value) : Outcome :=
  match g with
  | Some f => f x
  | None => Throws x
  end.

Definition settled_by (out : Outcome) : PromiseState :=
  match out with
  | Returns v => Fulfilled v
  | Throws e => Rejected e
  end.

(** [cancel() { this.abort(new CancelledError()) }] *)
Definition method_cancel (i : nat) (h : Heap) : Heap :=
  method_abort i VCancelledError h.

(** ** What can happen to a heap *)

Inductive HeapStep : Type :=
  | HNew (a : option ExecutorOrOptions) (opts : option PromiseOptions)
  | HDerive (op : ChainOp) (i : nat)
  | HCallAbort (i : nat) (reason : Value)
  | HCallReject (i : nat) (reason : Value)
  | HCallCancel (i : nat)
  | HTimeout (i : nat)                  (* the timer of object i elapses *)
  | HSignal (i : nat) (reason : Value)  (* the outer signal of object i aborts *)
  | HWork (i : nat) (e : Executor)      (* the work function of object i resumes *)
  | HSettle (i : nat) (out : Outcome)   (* the creator of promise i settles it *)
  | HJob.                               (* the first job of the queue runs *)

Definition heap_step (s : HeapStep) (h : Heap) : Heap :=
  match s with
  | HNew a opts => snd (new_AbortablePromise a opts h)
  | HDerive op i => snd (derive op i h)
  | HCallAbort i r => method_abort i r h
  | HCallReject i r => method_reject i r h
  | HCallCancel i => method_cancel i h
  | HTimeout i => with_body i timeout_fires h
  | HSignal i r => with_body i (abortSignal_aborts r) h
  | HWork i e => with_body i (fun p => fst (run_executor e p)) h
  | HSettle i out => settle_capability i out h
  | HJob => run_microtasks 1 h
  end.

(** [descends h0 root h d]: object [d] of heap [h] is the object [root]
    of heap [h0], or was derived from it by chaining operations, with any
    other steps in between. *)
Inductive descends (h0 : Heap) (root : nat) : Heap -> nat -> Prop :=
  | descends_root : descends h0 root h0 root
  | descends_step h d s :
      descends h0 root h d -> descends h0 root (heap_step s h) d
  | descends_derive h d op :
      descends h0 root h d ->
      descends h0 root (snd (derive op d h)) (fst (derive op d h)).

(** Every object of [h] is in [g], with its class and its [abort] and
    [reject] properties unchanged. *)
Definition keeps_control (h g : Heap) : Prop :=
  forall j oj, objects h !! j = Some oj ->
               exists oj', objects g !! j = Some oj' /\ same_control oj oj'.

(** ** Well-formed heaps *)

(** Identifiers mentioned by a handler, a reaction or a job are below [n]. *)
Definition handler_below (n : nat) (hd : option Handler) : bool :=
  match hd with
  | Some (HReject owner) => Nat.ltb owner n
  | _ => true
  end.

Definition reaction_below (n : nat) (r : Reaction) : bool :=
  Nat.ltb (capability r) n && handler_below n (onFulfilled r)
  && handler_below n (onRejected r).

Definition job_below (n : nat) (j : Job) : bool :=
  match j with ReactionJob r _ => reaction_below n r end.

(** Every reaction and every job mentions objects of the heap only. *)
Definition well_formed (h : Heap) : bool :=
  forallb (fun o => forallb (reaction_below (length (objects h))) (reactions o))
          (objects h)
  && forallb (job_below (length (objects h))) (jobs h).

(** The objects below [n] have reactions below [n]. *)
Definition objects_below (n : nat) (objs : list Object) : Prop :=
  forall i o, i < n -> objs !! i = Some o ->
              forallb (reaction_below n) (reactions o) = true.

(** [g] is what running jobs below [n] can make of [h]: the objects from
    [n] on are the same, and the queue has grown by jobs below [n]. *)
Definition extends_below (n : nat) (h g : Heap) : Prop :=
  objects_below n (objects g)
  /\ (forall k, n <= k -> objects g !! k = objects h !! k)
  /\ exists new, jobs g = jobs h ++ new /\ forallb (job_below n) new = true.

(** The functions of a closure that jobs call. *)
Definition keeps_settled (F : AbortablePromise -> AbortablePromise) : Prop :=
  forall p, state p <> Pending -> state (F p) = state p.

End Chain.

(** ** Observations used by further properties *)

Module Readings.
Import Core.

(** What one listener of the ['abort'] event logs when the signal's reason
    is [reason]: [rej] is called with it, a listener of [onAborted] is
    called with it, a listener of [onResolved] is called with the tagged
    value's payload, and only if the reason is tagged. *)
Definition listener_events (reason : Value) (l : Listener) : list Event :=
  match l with
  | LRej => [EvRej reason]
  | LUser tag => [EvListener tag reason]
  | LOnResolved tag =>
      if isPromiseResolveResult reason
      then [EvListener tag (resolveResultPayload reason)]
      else []
  end.

Definition dispatch_events (reason : Value) (ls : list (nat * Listener)) : list Event :=
  flat_map (fun e => listener_events reason (snd e)) ls.

(** Some closure of [cs] removes the listener registered as [id]. *)
Definition removes (cs : list Cleanup) (id : nat) : bool :=
  existsb (cleanup_eqb (CRemoveListener id)) cs.

(** Whatever is attached has its detaching closure in [cleanupFns]. *)
Definition cleanups_registered (p : AbortablePromise) : Prop :=
  (forall id l, In (id, l) (signal_listeners p) -> In (CRemoveListener id) (cleanupFns p))
  /\ (bridge p = true -> In CRemoveBridge (cleanupFns p))
  /\ (forall d, timer p = Armed d -> In CClearTimeout (cleanupFns p)).

(** [q] has at most the attachments of [p], and the same [cleanupFns]. *)
Definition detaches (p q : AbortablePromise) : Prop :=
  cleanupFns q = cleanupFns p
  /\ (forall x, In x (signal_listeners q) -> In x (signal_listeners p))
  /\ (bridge q = true -> bridge p = true)
  /\ (forall d, timer q = Armed d -> timer p = Armed d).

(** The signal of a settled promise is aborted. *)
Definition settled_is_aborted (p : AbortablePromise) : Prop :=
  state p <> Pending -> signal_reason p <> None.

(** Under [rejectOnAbort], the reason of the signal of a settled promise
    is the one its settlement gave it. *)
Definition settlement_matches_reason (p : AbortablePromise) : Prop :=
  match state p with
  | Pending => True
  | Fulfilled v => signal_reason p = Some (withResolved v)
  | Rejected x => signal_reason p = Some (stored_reason x)
  end.

(** While the signal is not aborted, the listener of [onAborted(rej)] is
    the first one attached to it. *)
Definition rej_listener_first (p : AbortablePromise) : Prop :=
  signal_reason p = None ->
  exists rest, signal_listeners p = (0, LRej) :: rest.

(** What the reaction job of a promise settled as [s] passes to the
    capability when the handlers are [f] and [g], functions without
    effects. *)
Definition reaction_outcome (f g : option (Value -> Chain.Outcome)) (s : PromiseState)
  : Chain.Outcome :=
  match s with
  | Fulfilled v =>
      match f with
      | Some f => f v
      | None => Chain.Returns v
      end
  | Rejected x => Chain.rejection_outcome g x
  | Pending => Chain.Returns VUndefined
  end.

End Readings.

(** ** The static helpers of the class *)

Module Static.
Import Core.

(** A function given to [fn]: a script over the context, its only
    parameter, ending in the value it returns or in the exception it
    throws.  (A function that returns a promise is outside the model.) *)
Inductive WithFnFunction : Type :=
  | FnReturn (v : Value)
  | FnThrow (e : Value)
  | FnOnAborted (tag : nat) (k : WithFnFunction)
  | FnOnResolved (tag : nat) (k : WithFnFunction)
  | FnIsAborted (k : bool -> WithFnFunction)
  | FnIsResolved (k : bool -> WithFnFunction)
  | FnAbortReason (k : Value -> WithFnFunction)
  | FnResolved (k : Value -> WithFnFunction)
  | FnThrowIfAborted (k : WithFnFunction).

(** The executor [fn] passes to the constructor,
    [async (res, rej, context) => { try { res(await fn(context)) } catch (e) { rej(e) } }],
    up to the point where it hands control back: [fn(context)] runs at
    once; if it throws, [rej(e)] is called at once; if it returns, the
    function is suspended at [await].  Either way the call returns the
    promise of the async function, [promise].  [throwIfAborted] is
    [if (isAborted()) throw abortReason()]. *)
Fixpoint async_executor (promise : nat) (f : WithFnFunction) : Executor :=
  match f with
  | FnReturn _ => Return (RPromise promise)
  | FnThrow e => CallReject e (Return (RPromise promise))
  | FnOnAborted tag k => CallOnAborted tag (async_executor promise k)
  | FnOnResolved tag k => CallOnResolved tag (async_executor promise k)
  | FnIsAborted k => CallIsAborted (fun b => async_executor promise (k b))
  | FnIsResolved k => CallIsResolved (fun b => async_executor promise (k b))
  | FnAbortReason k => CallAbortReason (fun r => async_executor promise (k r))
  | FnResolved k => CallResolved (fun r => async_executor promise (k r))
  | FnThrowIfAborted k =>
      CallIsAborted (fun b =>
        if b
        then CallAbortReason (fun r => CallReject r (Return (RPromise promise)))
        else async_executor promise k)
  end.

(** What [fn(context)] returns or throws when it is called in state [p].
    The function has no access to [resolve], [reject] or [abort], so the
    signal is the same during the whole call. *)
Fixpoint fn_result (f : WithFnFunction) (p : AbortablePromise) : Chain.Outcome :=
  match f with
  | FnReturn v => Chain.Returns v
  | FnThrow e => Chain.Throws e
  | FnOnAborted _ k => fn_result k p
  | FnOnResolved _ k => fn_result k p
  | FnIsAborted k => fn_result (k (isAborted p)) p
  | FnIsResolved k => fn_result (k (isResolved p)) p
  | FnAbortReason k => fn_result (k (abortReason p)) p
  | FnResolved k => fn_result (k (resolved p)) p
  | FnThrowIfAborted k =>
      if isAborted p then Chain.Throws (abortReason p) else fn_result k p
  end.

(** [static fn(fn, options) { return new AbortablePromise(async ..., options) }] *)
Definition fn (promise : nat) (f : WithFnFunction) (options : option PromiseOptions)
  : AbortablePromise * option nat :=
  construct (Some (IsFunction (async_executor promise f))) options.

(** The state in which the constructor calls the executor, if it does. *)
Definition executor_entry (options : option PromiseOptions) : option AbortablePromise :=
  match setup (default no_options options) with
  | inr p => Some (emit EvExecutor p)
  | inl _ => None
  end.

(** What is left of the async executor after [await]: [res(value)] with
    the value [fn] returned.  It runs in a later microtask. *)
Definition resumption (f : WithFnFunction) (options : option PromiseOptions) : list Step :=
  match executor_entry options with
  | Some p =>
      match fn_result f p with
      | Chain.Returns v => [SWork (CallResolve v (Return RUndefined))]
      | Chain.Throws _ => []
      end
  | None => []
  end.

(** [static resolve(value) { return this.fn(() => value) }] *)
Definition resolve (promise : nat) (value : Value) : AbortablePromise * option nat :=
  fn promise (FnReturn value) None.

(** [static reject(reason) { return new AbortablePromise((_, rej) => { rej(reason) }) }] *)
Definition reject (reason : Value) : AbortablePromise * option nat :=
  construct (Some (IsFunction (CallReject reason (Return RUndefined)))) None.

End Static.

Import Core.

(** * Facts about one promise *)

Section Listeners.

Lemma call_listener_frame l p :
  signal_reason (call_listener l p) = signal_reason p
  /\ signal_listeners (call_listener l p) = signal_listeners p
  /\ cleanupFns (call_listener l p) = cleanupFns p
  /\ next_listener (call_listener l p) = next_listener p
  /\ bridge (call_listener l p) = bridge p
  /\ timer (call_listener l p) = timer p.
Proof.
  destruct l; cbn.
  - unfold rej; cbn. destruct (state p); cbn; auto 10.
  - auto 10.
  - destruct (isResolved p); cbn; auto 10.
Qed.

Lemma dispatch_to_frame ls : forall p,
  signal_reason (dispatch_to ls p) = signal_reason p
  /\ signal_listeners (dispatch_to ls p) = signal_listeners p
  /\ cleanupFns (dispatch_to ls p) = cleanupFns p
  /\ next_listener (dispatch_to ls p) = next_listener p
  /\ bridge (dispatch_to ls p) = bridge p
  /\ timer (dispatch_to ls p) = timer p.
Proof.
  induction ls as [|l ls IH]; intros p; cbn; [auto 10|].
  destruct (IH (call_listener (snd l) p)) as (H1 & H2 & H3 & H4 & H5 & H6).
  destruct (call_listener_frame (snd l) p) as (G1 & G2 & G3 & G4 & G5 & G6).
  unfold dispatch_to in *. rewrite H1, H2, H3, H4, H5, H6. auto 10.
Qed.

Lemma call_listener_settled l p :
  state p <> Pending -> state (call_listener l p) = state p.
Proof.
  intros Hs. destruct l; cbn.
  - unfold rej; cbn. destruct (state p) eqn:E; cbn; congruence.
  - reflexivity.
  - destruct (isResolved p); reflexivity.
Qed.

Lemma dispatch_to_cons l ls p :
  dispatch_to (l :: ls) p = dispatch_to ls (call_listener (snd l) p).
Proof. reflexivity. Qed.

Lemma dispatch_to_settled ls : forall p,
  state p <> Pending -> state (dispatch_to ls p) = state p.
Proof.
  induction ls as [|l ls IH]; intros p Hs; [reflexivity|].
  rewrite dispatch_to_cons, IH; rewrite call_listener_settled; auto.
Qed.

Lemma abortReason_call_listener l p :
  abortReason (call_listener l p) = abortReason p.
Proof.
  unfold abortReason. destruct (call_listener_frame l p) as (-> & _). reflexivity.
Qed.

(** The first [rej] listener settles a pending promise with the signal's
    reason. *)
Lemma dispatch_to_rejects ls : forall p,
  state p = Pending ->
  existsb is_rej ls = true ->
  state (dispatch_to ls p) = Rejected (abortReason p).
Proof.
  induction ls as [|[id l] ls IH]; intros p Hs Hex; cbn in Hex; [discriminate|].
  rewrite dispatch_to_cons. cbn [snd].
  assert (Hrej : state (call_listener LRej p) = Rejected (abortReason p)).
  { cbn. unfold rej; cbn. rewrite Hs. reflexivity. }
  destruct l; cbn in Hex.
  - rewrite dispatch_to_settled; rewrite Hrej; congruence.
  - rewrite IH; [rewrite abortReason_call_listener; reflexivity | exact Hs | exact Hex].
  - rewrite IH; [rewrite abortReason_call_listener; reflexivity | | exact Hex].
    cbn. destruct (isResolved p); exact Hs.
Qed.

(** Without a [rej] listener the dispatch leaves the settlement alone. *)
Lemma dispatch_to_observes ls : forall p,
  existsb is_rej ls = false ->
  state (dispatch_to ls p) = state p.
Proof.
  induction ls as [|[id l] ls IH]; intros p Hex; cbn in Hex; [reflexivity|].
  rewrite dispatch_to_cons. cbn [snd].
  destruct l; cbn in Hex; [discriminate| |]; rewrite IH; auto.
  cbn. destruct (isResolved p); reflexivity.
Qed.

Lemma call_listener_log l p :
  exists evs, log (call_listener l p) = log p ++ evs /\ no_cleanup evs = true.
Proof.
  destruct l; cbn.
  - exists [EvRej (abortReason p)]. unfold rej; cbn.
    destruct (state p); cbn; auto.
  - exists [EvListener tag (abortReason p)]. auto.
  - destruct (isResolved p); cbn.
    + exists [EvListener tag (resolved p)]. auto.
    + exists []. rewrite app_nil_r. auto.
Qed.

Lemma no_cleanup_app l1 l2 :
  no_cleanup (l1 ++ l2) = no_cleanup l1 && no_cleanup l2.
Proof. apply forallb_app. Qed.

Lemma dispatch_to_log ls : forall p,
  exists evs, log (dispatch_to ls p) = log p ++ evs /\ no_cleanup evs = true.
Proof.
  induction ls as [|l ls IH]; intros p.
  - exists []. rewrite app_nil_r. auto.
  - rewrite dispatch_to_cons.
    destruct (IH (call_listener (snd l) p)) as (e2 & H2 & N2).
    destruct (call_listener_log (snd l) p) as (e1 & H1 & N1).
    exists (e1 ++ e2). rewrite H2, H1, <- app_assoc. split; [reflexivity|].
    rewrite no_cleanup_app, N1, N2. reflexivity.
Qed.

End Listeners.

Section Operations.

Lemma run_cleanup_frame c p :
  state (run_cleanup c p) = state p
  /\ signal_reason (run_cleanup c p) = signal_reason p
  /\ cleanupFns (run_cleanup c p) = cleanupFns p
  /\ next_listener (run_cleanup c p) = next_listener p
  /\ log (run_cleanup c p) = log p ++ [EvCleanup c].
Proof.
  destruct c; cbn; auto.
  destruct (timer p); cbn; auto.
Qed.

Lemma run_cleanups_frame cs : forall p,
  state (run_cleanups cs p) = state p
  /\ signal_reason (run_cleanups cs p) = signal_reason p
  /\ cleanupFns (run_cleanups cs p) = cleanupFns p
  /\ next_listener (run_cleanups cs p) = next_listener p
  /\ log (run_cleanups cs p) = log p ++ map EvCleanup cs.
Proof.
  induction cs as [|c cs IH]; intros p; cbn.
  - rewrite app_nil_r. auto.
  - destruct (IH (run_cleanup c p)) as (H1 & H2 & H3 & H4 & H5).
    destruct (run_cleanup_frame c p) as (G1 & G2 & G3 & G4 & G5).
    unfold run_cleanups in *.
    rewrite H1, H2, H3, H4, H5, G1, G2, G3, G4, G5, <- app_assoc. auto.
Qed.

Lemma abort_aborted r p x :
  signal_reason p = Some x -> abort r p = p.
Proof. intros H. unfold abort, isAborted. rewrite H. reflexivity. Qed.

Lemma abort_first r p :
  signal_reason p = None ->
  abort r p =
  dispatch_to (signal_listeners p)
    (set_signal_reason (Some (stored_reason r)) (emit (EvControllerAbort r) p)).
Proof.
  intros H. unfold abort, isAborted, controller_abort. rewrite H. reflexivity.
Qed.

Lemma abort_frame r p :
  signal_listeners (abort r p) = signal_listeners p
  /\ cleanupFns (abort r p) = cleanupFns p
  /\ next_listener (abort r p) = next_listener p
  /\ bridge (abort r p) = bridge p
  /\ timer (abort r p) = timer p.
Proof.
  destruct (signal_reason p) eqn:E.
  - rewrite (abort_aborted _ _ _ E). auto.
  - rewrite (abort_first _ _ E).
    match goal with |- context [dispatch_to ?ls ?q] =>
      destruct (dispatch_to_frame ls q) as (_ & -> & -> & -> & -> & ->) end.
    auto.
Qed.

Lemma abort_signal_reason r p :
  signal_reason (abort r p) =
  match signal_reason p with
  | Some x => Some x
  | None => Some (stored_reason r)
  end.
Proof.
  destruct (signal_reason p) eqn:E.
  - rewrite (abort_aborted _ _ _ E). exact E.
  - rewrite (abort_first _ _ E).
    match goal with |- context [dispatch_to ?ls ?q] =>
      destruct (dispatch_to_frame ls q) as (-> & _) end.
    reflexivity.
Qed.

Lemma abort_log r p :
  exists evs,
    log (abort r p) = log p ++ evs /\ no_cleanup evs = true
    /\ (signal_reason p = None -> exists tl, evs = EvControllerAbort r :: tl)
    /\ (signal_reason p <> None -> evs = []).
Proof.
  destruct (signal_reason p) eqn:E.
  - rewrite (abort_aborted _ _ _ E). exists []. rewrite app_nil_r.
    repeat split; auto; congruence.
  - rewrite (abort_first _ _ E).
    match goal with |- context [dispatch_to ?ls ?q] =>
      destruct (dispatch_to_log ls q) as (evs & H & N) end.
    exists (EvControllerAbort r :: evs). rewrite H. cbn. rewrite <- app_assoc.
    repeat split; eauto; congruence.
Qed.

(** The settlement after [abort]: only a first abort of a pending
    promise with the [rej] listener attached changes it. *)
Lemma abort_state r p :
  state (abort r p) =
  match signal_reason p, state p with
  | None, Pending =>
      if has_rej_listener p then Rejected (stored_reason r) else Pending
  | _, s => s
  end.
Proof.
  destruct (signal_reason p) eqn:E.
  - rewrite (abort_aborted _ _ _ E). reflexivity.
  - rewrite (abort_first _ _ E).
    destruct (state p) eqn:S.
    + unfold has_rej_listener. destruct (existsb is_rej (signal_listeners p)) eqn:X.
      * rewrite dispatch_to_rejects; auto.
      * rewrite dispatch_to_observes; auto.
    + rewrite dispatch_to_settled; cbn; congruence.
    + rewrite dispatch_to_settled; cbn; congruence.
Qed.

Lemma res_frame v p :
  signal_reason (res v p) = signal_reason p
  /\ signal_listeners (res v p) = signal_listeners p
  /\ cleanupFns (res v p) = cleanupFns p
  /\ next_listener (res v p) = next_listener p
  /\ bridge (res v p) = bridge p
  /\ timer (res v p) = timer p
  /\ log (res v p) = log p ++ [EvRes v]
  /\ state (res v p) = match state p with Pending => Fulfilled v | s => s end.
Proof.
  unfold res; cbn. destruct (state p) eqn:E; cbn; rewrite ?E; repeat split; reflexivity.
Qed.

Lemma rej_frame r p :
  signal_reason (rej r p) = signal_reason p
  /\ signal_listeners (rej r p) = signal_listeners p
  /\ cleanupFns (rej r p) = cleanupFns p
  /\ next_listener (rej r p) = next_listener p
  /\ bridge (rej r p) = bridge p
  /\ timer (rej r p) = timer p
  /\ log (rej r p) = log p ++ [EvRej r]
  /\ state (rej r p) = match state p with Pending => Rejected r | s => s end.
Proof.
  unfold rej; cbn. destruct (state p) eqn:E; cbn; rewrite ?E; repeat split; reflexivity.
Qed.

Lemma resolve_unfold v p :
  resolve v p =
  run_cleanups (cleanupFns p) (abort (withResolved v) (res v p)).
Proof.
  unfold resolve, withCleanup, run_cleanupFns.
  destruct (abort_frame (withResolved v) (res v p)) as (_ & -> & _).
  destruct (res_frame v p) as (_ & _ & -> & _). reflexivity.
Qed.

Lemma reject_unfold r p :
  reject r p = run_cleanups (cleanupFns p) (abort r (rej r p)).
Proof.
  unfold reject, withCleanup, run_cleanupFns.
  destruct (abort_frame r (rej r p)) as (_ & -> & _).
  destruct (rej_frame r p) as (_ & _ & -> & _). reflexivity.
Qed.

Lemma resolve_state v p :
  state (resolve v p) = match state p with Pending => Fulfilled v | s => s end.
Proof.
  rewrite resolve_unfold.
  destruct (run_cleanups_frame (cleanupFns p) (abort (withResolved v) (res v p)))
    as (-> & _).
  rewrite abort_state.
  destruct (res_frame v p) as (-> & _ & _ & _ & _ & _ & _ & ->).
  destruct (signal_reason p), (state p); reflexivity.
Qed.

Lemma reject_state r p :
  state (reject r p) = match state p with Pending => Rejected r | s => s end.
Proof.
  rewrite reject_unfold.
  destruct (run_cleanups_frame (cleanupFns p) (abort r (rej r p))) as (-> & _).
  rewrite abort_state.
  destruct (rej_frame r p) as (-> & _ & _ & _ & _ & _ & _ & ->).
  destruct (signal_reason p), (state p); reflexivity.
Qed.

Lemma resolve_signal_reason v p :
  signal_reason (resolve v p) =
  match signal_reason p with
  | Some x => Some x
  | None => Some (withResolved v)
  end.
Proof.
  rewrite resolve_unfold.
  destruct (run_cleanups_frame (cleanupFns p) (abort (withResolved v) (res v p)))
    as (_ & -> & _).
  rewrite abort_signal_reason.
  destruct (res_frame v p) as (-> & _). reflexivity.
Qed.

Lemma reject_signal_reason r p :
  signal_reason (reject r p) =
  match signal_reason p with
  | Some x => Some x
  | None => Some (stored_reason r)
  end.
Proof.
  rewrite reject_unfold.
  destruct (run_cleanups_frame (cleanupFns p) (abort r (rej r p))) as (_ & -> & _).
  rewrite abort_signal_reason.
  destruct (rej_frame r p) as (-> & _). reflexivity.
Qed.

Lemma resolve_cleanupFns v p : cleanupFns (resolve v p) = cleanupFns p.
Proof.
  rewrite resolve_unfold.
  destruct (run_cleanups_frame (cleanupFns p) (abort (withResolved v) (res v p)))
    as (_ & _ & -> & _).
  destruct (abort_frame (withResolved v) (res v p)) as (_ & -> & _).
  destruct (res_frame v p) as (_ & _ & -> & _). reflexivity.
Qed.

Lemma reject_cleanupFns r p : cleanupFns (reject r p) = cleanupFns p.
Proof.
  rewrite reject_unfold.
  destruct (run_cleanups_frame (cleanupFns p) (abort r (rej r p))) as (_ & _ & -> & _).
  destruct (abort_frame r (rej r p)) as (_ & -> & _).
  destruct (rej_frame r p) as (_ & _ & -> & _). reflexivity.
Qed.

(** The calls made by one run of the enhanced [resolve]. *)
Lemma resolve_log v p :
  exists evs,
    log (resolve v p) = log p ++ EvRes v :: evs ++ map EvCleanup (cleanupFns p)
    /\ no_cleanup evs = true
    /\ (signal_reason p = None ->
        exists tl, evs = EvControllerAbort (withResolved v) :: tl)
    /\ (signal_reason p <> None -> evs = []).
Proof.
  rewrite resolve_unfold.
  destruct (run_cleanups_frame (cleanupFns p) (abort (withResolved v) (res v p)))
    as (_ & _ & _ & _ & ->).
  destruct (abort_log (withResolved v) (res v p)) as (evs & H & N & F & A).
  destruct (res_frame v p) as (E & _ & _ & _ & _ & _ & L & _).
  rewrite E in F, A. exists evs. rewrite H, L, <- !app_assoc. cbn. auto.
Qed.

(** The calls made by one run of the enhanced [reject]. *)
Lemma reject_log r p :
  exists evs,
    log (reject r p) = log p ++ EvRej r :: evs ++ map EvCleanup (cleanupFns p)
    /\ no_cleanup evs = true
    /\ (signal_reason p = None -> exists tl, evs = EvControllerAbort r :: tl)
    /\ (signal_reason p <> None -> evs = []).
Proof.
  rewrite reject_unfold.
  destruct (run_cleanups_frame (cleanupFns p) (abort r (rej r p)))
    as (_ & _ & _ & _ & ->).
  destruct (abort_log r (rej r p)) as (evs & H & N & F & A).
  destruct (rej_frame r p) as (E & _ & _ & _ & _ & _ & L & _).
  rewrite E in F, A. exists evs. rewrite H, L, <- !app_assoc. cbn. auto.
Qed.

End Operations.

(** * Invariants of the two [rejectOnAbort] modes *)

Section Invariants.

Lemma onAborted_frame l p :
  state (fst (onAborted l p)) = state p
  /\ signal_reason (fst (onAborted l p)) = signal_reason p
  /\ signal_listeners (fst (onAborted l p)) = signal_listeners p ++ [(next_listener p, l)]
  /\ cleanupFns (fst (onAborted l p)) = cleanupFns p ++ [CRemoveListener (next_listener p)]
  /\ bridge (fst (onAborted l p)) = bridge p
  /\ timer (fst (onAborted l p)) = timer p
  /\ log (fst (onAborted l p)) = log p.
Proof. cbn. repeat split; reflexivity. Qed.

Lemma has_rej_listener_onAborted l p :
  has_rej_listener (fst (onAborted l p))
  = has_rej_listener p || match l with LRej => true | _ => false end.
Proof.
  unfold has_rej_listener; cbn. rewrite existsb_app; cbn.
  unfold is_rej; cbn. rewrite orb_false_r. reflexivity.
Qed.

Lemma existsb_filter_false {A} (f g : A -> bool) (l : list A) :
  existsb f l = false -> existsb f (List.filter g l) = false.
Proof.
  induction l as [|x l IH]; cbn; [auto|].
  intros H. apply orb_false_iff in H as [Hx Hl].
  destruct (g x); cbn; rewrite ?Hx; auto.
Qed.

Lemma has_rej_listener_run_cleanup c p :
  has_rej_listener p = false -> has_rej_listener (run_cleanup c p) = false.
Proof.
  unfold has_rej_listener. destruct c; cbn; auto.
  - apply existsb_filter_false.
  - destruct (timer p); cbn; auto.
Qed.

Lemma has_rej_listener_run_cleanups cs : forall p,
  has_rej_listener p = false -> has_rej_listener (run_cleanups cs p) = false.
Proof.
  induction cs as [|c cs IH]; intros p H; cbn; [exact H|].
  apply IH, has_rej_listener_run_cleanup, H.
Qed.

Lemma has_rej_listener_abort r p :
  has_rej_listener (abort r p) = has_rej_listener p.
Proof.
  unfold has_rej_listener. destruct (abort_frame r p) as (-> & _). reflexivity.
Qed.

(** *** [rejectOnAbort] is true *)

Lemma rejecting_abort r p :
  rejecting_invariant p -> rejecting_invariant (abort r p).
Proof.
  unfold rejecting_invariant. intros H.
  rewrite abort_signal_reason, abort_state.
  destruct (signal_reason p); [exact H|].
  destruct H as [-> ->]. discriminate.
Qed.

Lemma rejecting_resolve v p : rejecting_invariant (resolve v p).
Proof.
  unfold rejecting_invariant.
  rewrite resolve_signal_reason, resolve_state.
  destruct (signal_reason p), (state p); discriminate.
Qed.

Lemma rejecting_reject r p : rejecting_invariant (reject r p).
Proof.
  unfold rejecting_invariant.
  rewrite reject_signal_reason, reject_state.
  destruct (signal_reason p), (state p); discriminate.
Qed.

Lemma rejecting_onAborted l p :
  rejecting_invariant p -> rejecting_invariant (fst (onAborted l p)).
Proof.
  unfold rejecting_invariant. rewrite has_rej_listener_onAborted. cbn.
  destruct (signal_reason p); [auto|].
  intros [-> ->]. auto.
Qed.

Lemma rejecting_run_executor e : forall p,
  rejecting_invariant p -> rejecting_invariant (fst (run_executor e p)).
Proof.
  induction e as [r|x|v k IH|r k IH|tag k IH|tag k IH|k IH|k IH|k IH|k IH|k IH];
    intros p Hp; cbn [run_executor].
  - exact Hp.
  - exact Hp.
  - apply IH, rejecting_resolve.
  - apply IH, rejecting_reject.
  - apply IH, rejecting_onAborted, Hp.
  - apply IH, rejecting_onAborted, Hp.
  - apply IH. exact Hp.
  - apply IH, Hp.
  - apply IH. exact Hp.
  - apply IH, Hp.
  - destruct (isAborted p); [exact Hp | apply IH, Hp].
Qed.

Lemma rejecting_step s p :
  rejecting_invariant p -> rejecting_invariant (step s p).
Proof.
  intros Hp. destruct s; cbn.
  - apply rejecting_abort, Hp.
  - apply rejecting_reject.
  - apply rejecting_abort, Hp.
  - unfold timeout_fires. destruct (timer p); auto.
    apply rejecting_abort. exact Hp.
  - unfold abortSignal_aborts. destruct (bridge p); auto.
    apply rejecting_abort, Hp.
  - apply rejecting_run_executor, Hp.
Qed.

Lemma rejecting_run steps : forall p,
  rejecting_invariant p -> rejecting_invariant (run steps p).
Proof.
  induction steps as [|s steps IH]; intros p Hp; cbn; [exact Hp|].
  apply IH, rejecting_step, Hp.
Qed.

Lemma rejecting_setup o :
  default true (rejectOnAbort o) = true ->
  match setup o with
  | inl p => rejecting_invariant p
  | inr p => rejecting_invariant p
  end.
Proof.
  intros Hr. unfold setup. rewrite Hr.
  destruct (abortSignal o) as [[[] rs]|].
  - apply rejecting_reject.
  - destruct (timeout o) as [d|]; [destruct (truthy d)|];
      unfold rejecting_invariant; cbn; auto.
  - destruct (timeout o) as [d|]; [destruct (truthy d)|];
      unfold rejecting_invariant; cbn; auto.
Qed.

Lemma rejecting_construct a o :
  effective_rejectOnAbort a o = true ->
  rejecting_invariant (fst (construct a o)).
Proof.
  intros Hr. unfold construct.
  pose proof (rejecting_setup _ Hr) as Hs.
  destruct (setup (options_of a o)) as [p|p]; [exact Hs|].
  destruct (executor_of a) as [e|]; [|exact Hs].
  pose proof (rejecting_run_executor e (emit EvExecutor p) Hs) as He.
  destruct (run_executor e (emit EvExecutor p)) as [q [[| |]|x]]; cbn in *; auto.
  apply rejecting_reject.
Qed.

Lemma rejecting_reachable a o p :
  effective_rejectOnAbort a o = true -> reachable a o p -> rejecting_invariant p.
Proof.
  intros Hr [steps ->]. apply rejecting_run, rejecting_construct, Hr.
Qed.

(** *** [rejectOnAbort] is false *)

Lemma silent_resolve v p :
  has_rej_listener p = false -> has_rej_listener (resolve v p) = false.
Proof.
  intros H. rewrite resolve_unfold.
  apply has_rej_listener_run_cleanups. rewrite has_rej_listener_abort.
  unfold has_rej_listener. destruct (res_frame v p) as (_ & -> & _). exact H.
Qed.

Lemma silent_reject r p :
  has_rej_listener p = false -> has_rej_listener (reject r p) = false.
Proof.
  intros H. rewrite reject_unfold.
  apply has_rej_listener_run_cleanups. rewrite has_rej_listener_abort.
  unfold has_rej_listener. destruct (rej_frame r p) as (_ & -> & _). exact H.
Qed.

Lemma silent_run_executor e : forall p,
  has_rej_listener p = false -> has_rej_listener (fst (run_executor e p)) = false.
Proof.
  induction e as [r|x|v k IH|r k IH|tag k IH|tag k IH|k IH|k IH|k IH|k IH|k IH];
    intros p Hp; cbn [run_executor].
  - exact Hp.
  - exact Hp.
  - apply IH, silent_resolve, Hp.
  - apply IH, silent_reject, Hp.
  - apply IH. rewrite has_rej_listener_onAborted, Hp. reflexivity.
  - apply IH. rewrite has_rej_listener_onAborted, Hp. reflexivity.
  - apply IH. exact Hp.
  - apply IH, Hp.
  - apply IH. exact Hp.
  - apply IH, Hp.
  - destruct (isAborted p); [exact Hp | apply IH, Hp].
Qed.

Lemma silent_step s p :
  has_rej_listener p = false -> has_rej_listener (step s p) = false.
Proof.
  intros Hp. destruct s; cbn.
  - rewrite has_rej_listener_abort. exact Hp.
  - apply silent_reject, Hp.
  - unfold cancel. rewrite has_rej_listener_abort. exact Hp.
  - unfold timeout_fires. destruct (timer p); auto.
    rewrite has_rej_listener_abort. exact Hp.
  - unfold abortSignal_aborts. destruct (bridge p); auto.
    rewrite has_rej_listener_abort. exact Hp.
  - apply silent_run_executor, Hp.
Qed.

Lemma silent_run steps : forall p,
  has_rej_listener p = false -> has_rej_listener (run steps p) = false.
Proof.
  induction steps as [|s steps IH]; intros p Hp; cbn; [exact Hp|].
  apply IH, silent_step, Hp.
Qed.

Lemma silent_setup o :
  default true (rejectOnAbort o) = false ->
  exists p, setup o = inr p /\ has_rej_listener p = false.
Proof.
  intros Hr. unfold setup. rewrite Hr.
  destruct (abortSignal o) as [[[] rs]|]; cbn;
    (destruct (timeout o) as [d|]; [destruct (truthy d)|]);
    eexists; split; try reflexivity;
    rewrite ?has_rej_listener_abort; reflexivity.
Qed.

Lemma silent_construct a o :
  effective_rejectOnAbort a o = false ->
  has_rej_listener (fst (construct a o)) = false.
Proof.
  intros Hr. unfold construct.
  destruct (silent_setup _ Hr) as (p & -> & Hs).
  destruct (executor_of a) as [e|]; [|exact Hs].
  pose proof (silent_run_executor e (emit EvExecutor p) Hs) as He.
  destruct (run_executor e (emit EvExecutor p)) as [q [[| |]|x]]; cbn in *; auto.
  apply silent_reject, He.
Qed.

Lemma silent_reachable a o p :
  effective_rejectOnAbort a o = false -> reachable a o p ->
  has_rej_listener p = false.
Proof.
  intros Hr [steps ->]. apply silent_run, silent_construct, Hr.
Qed.

End Invariants.

(** * Claims about one promise *)

Section RejectOnAbort.

Lemma step_abort_source s p r :
  abort_source s p = Some r ->
  exists q, step s p = abort r q
            /\ state q = state p /\ signal_reason q = signal_reason p
            /\ has_rej_listener q = has_rej_listener p.
Proof.
  destruct s; cbn; try discriminate.
  - intros [= ->]. exists p. auto.
  - intros [= <-]. exists p. auto.
  - unfold timeout_fires. destruct (timer p) as [|d|d|d]; try discriminate.
    intros [= <-]. exists (set_timer (Fired d) p). auto.
  - unfold abortSignal_aborts. destruct (bridge p); [|discriminate].
    intros [= ->]. exists p. auto.
Qed.

(** C2.  With [rejectOnAbort] true (the default), every abort of a
    promise, whatever its source (a call of [abort] or [cancel], the
    timeout, the bridged outer signal), rejects a pending promise with
    the reason the signal then holds; a promise that settled before, in
    particular a fulfilled one, keeps its settlement. *)
Theorem abort_rejects_unless_settled a o p s r :
  effective_rejectOnAbort a o = true ->
  reachable a o p ->
  abort_source s p = Some r ->
  state (step s p) =
    match state p with
    | Pending => Rejected (stored_reason r)
    | Fulfilled v => Fulfilled v
    | Rejected x => Rejected x
    end
  /\ (state p = Pending -> abortReason (step s p) = stored_reason r).
Proof.
  intros Hr Hp Hs.
  pose proof (rejecting_reachable _ _ _ Hr Hp) as Hinv.
  destruct (step_abort_source _ _ _ Hs) as (q & -> & Sq & Rq & Lq).
  unfold abortReason. rewrite abort_state, abort_signal_reason, Sq, Rq, Lq.
  unfold rejecting_invariant in Hinv.
  destruct (signal_reason p).
  - split; [destruct (state p); congruence | congruence].
  - destruct Hinv as [-> ->]. auto.
Qed.

Lemma abort_rejects_unless_settled_witness :
  let a := Some (IsOptions (mkOptions None None (Some 50%Z))) in
  let p := fst (construct a None) in
  effective_rejectOnAbort a None = true
  /\ reachable a None p
  /\ abort_source STimeout p = Some (VTimeoutError 50)
  /\ state (step STimeout p) = Rejected (VTimeoutError 50)
  /\ abortReason (step STimeout p) = VTimeoutError 50.
Proof.
  intros a p.
  assert (R : reachable a None p) by (exists []; reflexivity).
  destruct (abort_rejects_unless_settled a None p STimeout (VTimeoutError 50)
              eq_refl R eq_refl) as [H1 H2].
  split; [reflexivity|]. split; [exact R|]. split; [reflexivity|].
  split; [exact H1 | exact (H2 eq_refl)].
Defined.

End RejectOnAbort.

Section SettlementCalls.

(** C4.  One call of the enhanced [resolve] (or [reject]) first calls the
    underlying resolving function, then [abort] with the tagged value
    [withResolved(result)] (or with the rejection reason itself), then
    each closure of [cleanupFns] once, in order.  The controller is
    reached only if the signal was not aborted before; it then stores
    the reason it was given ([AbortError] for [undefined]). *)
Theorem enhanced_settlement_calls p :
  (forall v, exists evs,
      log (resolve v p) = log p ++ EvRes v :: evs ++ map EvCleanup (cleanupFns p)
      /\ no_cleanup evs = true
      /\ match signal_reason p with
         | None => (exists tl, evs = EvControllerAbort (withResolved v) :: tl)
                   /\ signal_reason (resolve v p) = Some (withResolved v)
         | Some x => evs = [] /\ signal_reason (resolve v p) = Some x
         end
      /\ state (resolve v p) = match state p with Pending => Fulfilled v | s => s end)
  /\ (forall r, exists evs,
      log (reject r p) = log p ++ EvRej r :: evs ++ map EvCleanup (cleanupFns p)
      /\ no_cleanup evs = true
      /\ match signal_reason p with
         | None => (exists tl, evs = EvControllerAbort r :: tl)
                   /\ signal_reason (reject r p) = Some (stored_reason r)
         | Some x => evs = [] /\ signal_reason (reject r p) = Some x
         end
      /\ state (reject r p) = match state p with Pending => Rejected r | s => s end).
Proof.
  split.
  - intros v. destruct (resolve_log v p) as (evs & L & N & F & A).
    exists evs. rewrite resolve_signal_reason, resolve_state.
    repeat split; auto.
    destruct (signal_reason p); [split; [apply A; discriminate | reflexivity] | auto].
  - intros r. destruct (reject_log r p) as (evs & L & N & F & A).
    exists evs. rewrite reject_signal_reason, reject_state.
    repeat split; auto.
    destruct (signal_reason p); [split; [apply A; discriminate | reflexivity] | auto].
Qed.

End SettlementCalls.

Section CleanupRuns.

Lemma cleanup_calls_app c l1 l2 :
  cleanup_calls c (l1 ++ l2) = cleanup_calls c l1 + cleanup_calls c l2.
Proof. unfold cleanup_calls. rewrite List.filter_app, length_app. reflexivity. Qed.

Lemma cleanup_calls_no_cleanup c evs :
  no_cleanup evs = true -> cleanup_calls c evs = 0.
Proof.
  unfold no_cleanup, cleanup_calls.
  induction evs as [|e evs IH]; cbn; [reflexivity|].
  intros H. apply andb_true_iff in H as [He Hevs].
  destruct e; cbn in *; try discriminate; auto.
Qed.

Lemma cleanup_calls_map c cs :
  cleanup_calls c (map EvCleanup cs) = registrations c cs.
Proof.
  unfold cleanup_calls, registrations.
  induction cs as [|c' cs IH]; cbn; [reflexivity|].
  destruct (cleanup_eqb c c'); cbn; rewrite IH; reflexivity.
Qed.

Lemma cleanup_calls_settlement c l e evs cs :
  is_cleanup_event e = false -> no_cleanup evs = true ->
  cleanup_calls c (l ++ e :: evs ++ map EvCleanup cs)
  = cleanup_calls c l + registrations c cs.
Proof.
  intros He Hevs.
  change (e :: evs ++ map EvCleanup cs) with ([e] ++ evs ++ map EvCleanup cs).
  rewrite !cleanup_calls_app, cleanup_calls_map, (cleanup_calls_no_cleanup _ evs Hevs).
  rewrite (cleanup_calls_no_cleanup c [e]); [lia|].
  cbn. rewrite He. reflexivity.
Qed.

(** C3, as the code has it by design.  Each call of the enhanced
    [resolve] or [reject] runs every closure of [cleanupFns] once per
    entry, in registration order, after the settlement and the abort of
    that call; no operation removes an entry, so a further call of
    [reject] runs them again. *)
Theorem cleanup_runs_on_each_settlement_call p c :
  (forall r,
      cleanupFns (reject r p) = cleanupFns p
      /\ cleanup_calls c (log (reject r p))
         = cleanup_calls c (log p) + registrations c (cleanupFns p)
      /\ exists evs,
          log (reject r p) = log p ++ EvRej r :: evs ++ map EvCleanup (cleanupFns p)
          /\ no_cleanup evs = true)
  /\ (forall v,
      cleanupFns (resolve v p) = cleanupFns p
      /\ cleanup_calls c (log (resolve v p))
         = cleanup_calls c (log p) + registrations c (cleanupFns p)
      /\ exists evs,
          log (resolve v p) = log p ++ EvRes v :: evs ++ map EvCleanup (cleanupFns p)
          /\ no_cleanup evs = true)
  /\ (forall r r',
      cleanupFns (reject r' (reject r p)) = cleanupFns p
      /\ cleanup_calls c (log (reject r' (reject r p)))
         = cleanup_calls c (log p) + 2 * registrations c (cleanupFns p)).
Proof.
  assert (Hrej : forall q r,
             cleanupFns (reject r q) = cleanupFns q
             /\ cleanup_calls c (log (reject r q))
                = cleanup_calls c (log q) + registrations c (cleanupFns q)
             /\ exists evs,
                 log (reject r q) = log q ++ EvRej r :: evs ++ map EvCleanup (cleanupFns q)
                 /\ no_cleanup evs = true).
  { intros q r. destruct (reject_log r q) as (evs & L & N & _).
    rewrite reject_cleanupFns. repeat split; eauto.
    rewrite L. apply cleanup_calls_settlement; auto. }
  split; [|split].
  - intros r. apply Hrej.
  - intros v. destruct (resolve_log v p) as (evs & L & N & _).
    rewrite resolve_cleanupFns. repeat split; eauto.
    rewrite L. apply cleanup_calls_settlement; auto.
  - intros r r'.
    destruct (Hrej p r) as (C1 & N1 & _).
    destruct (Hrej (reject r p) r') as (C2 & N2 & _).
    rewrite C2, N2, N1, C1. split; [reflexivity | lia].
Qed.

(** C3 fails as stated: on a promise made with [{ timeout: 50 }], two
    calls of [reject] run [clearTimeout] twice and leave [cleanupFns] as
    it was. *)
Lemma cleanup_not_exactly_once :
  let p := fst (construct (Some (IsOptions (mkOptions None None (Some 50%Z)))) None) in
  cleanupFns p = [CRemoveListener 0; CClearTimeout]
  /\ cleanup_calls CClearTimeout
       (log (run [SReject (VStr "a"); SReject (VStr "b")] p)) = 2
  /\ cleanupFns (run [SReject (VStr "a"); SReject (VStr "b")] p)
     = [CRemoveListener 0; CClearTimeout].
Proof. repeat split; reflexivity. Qed.

End CleanupRuns.

Section SilentAbort.

(** C7.  On a promise made with [rejectOnAbort: false], [abort("x")]
    leaves the settlement as it is, and from then on the context reports
    [isAborted() === true] and [abortReason() === "x"] (the promise was
    not aborted before the call). *)
Theorem abort_without_rejectOnAbort a o p x :
  effective_rejectOnAbort a o = false ->
  reachable a o p ->
  isAborted p = false ->
  state (abort (VStr x) p) = state p
  /\ isAborted (abort (VStr x) p) = true
  /\ abortReason (abort (VStr x) p) = VStr x
  /\ forall k,
      run_executor (CallIsAborted (fun b => CallAbortReason (k b))) (abort (VStr x) p)
      = run_executor (k true (VStr x))
          (emit (EvAbortReason (VStr x)) (emit (EvIsAborted true) (abort (VStr x) p))).
Proof.
  intros Hr Hp Ha.
  pose proof (silent_reachable _ _ _ Hr Hp) as Hl.
  assert (Hn : signal_reason p = None).
  { unfold isAborted in Ha. destruct (signal_reason p); [discriminate|reflexivity]. }
  assert (Hs : signal_reason (abort (VStr x) p) = Some (VStr x)).
  { rewrite abort_signal_reason, Hn. reflexivity. }
  assert (Hi : isAborted (abort (VStr x) p) = true).
  { unfold isAborted. rewrite Hs. reflexivity. }
  assert (Hab : abortReason (abort (VStr x) p) = VStr x).
  { unfold abortReason. rewrite Hs. reflexivity. }
  repeat split; auto.
  - rewrite abort_state, Hn, Hl. destruct (state p); reflexivity.
  - intros k. cbn [run_executor]. rewrite Hi.
    change (abortReason (emit (EvIsAborted true) (abort (VStr x) p)))
      with (abortReason (abort (VStr x) p)).
    rewrite Hab. reflexivity.
Qed.

Lemma abort_without_rejectOnAbort_witness :
  let a := Some (IsFunction (CallOnAborted 1 (Return RUndefined))) in
  let o := Some (mkOptions None (Some false) None) in
  let p := fst (construct a o) in
  effective_rejectOnAbort a o = false
  /\ reachable a o p
  /\ isAborted p = false
  /\ state (abort (VStr "x") p) = Pending
  /\ isAborted (abort (VStr "x") p) = true
  /\ abortReason (abort (VStr "x") p) = VStr "x".
Proof.
  intros a o p.
  assert (R : reachable a o p) by (exists []; reflexivity).
  destruct (abort_without_rejectOnAbort a o p "x" eq_refl R eq_refl)
    as (H1 & H2 & H3 & _).
  split; [reflexivity|]. split; [exact R|]. split; [reflexivity|].
  split; [exact H1|]. split; [exact H2 | exact H3].
Defined.

End SilentAbort.

Section AfterAbort.

Lemma no_listener_app l1 l2 :
  no_listener (l1 ++ l2) = no_listener l1 && no_listener l2.
Proof. apply forallb_app. Qed.

Lemma no_listener_cleanups cs : no_listener (map EvCleanup cs) = true.
Proof. induction cs; cbn; auto. Qed.

Lemma aborted_resolve v p x :
  signal_reason p = Some x ->
  signal_reason (resolve v p) = Some x
  /\ exists evs, log (resolve v p) = log p ++ evs /\ no_listener evs = true.
Proof.
  intros H. rewrite resolve_signal_reason, H. split; [reflexivity|].
  destruct (resolve_log v p) as (evs & L & _ & _ & A).
  rewrite A in L by congruence. eexists. split; [exact L|].
  cbn. apply no_listener_cleanups.
Qed.

Lemma aborted_reject r p x :
  signal_reason p = Some x ->
  signal_reason (reject r p) = Some x
  /\ exists evs, log (reject r p) = log p ++ evs /\ no_listener evs = true.
Proof.
  intros H. rewrite reject_signal_reason, H. split; [reflexivity|].
  destruct (reject_log r p) as (evs & L & _ & _ & A).
  rewrite A in L by congruence. eexists. split; [exact L|].
  cbn. apply no_listener_cleanups.
Qed.

Lemma aborted_here p x :
  signal_reason p = Some x ->
  signal_reason p = Some x
  /\ exists evs, log p = log p ++ evs /\ no_listener evs = true.
Proof. intros H. split; [exact H|]. exists []. rewrite app_nil_r. auto. Qed.

Lemma aborted_then (f g : AbortablePromise -> AbortablePromise) p x :
  (forall q, signal_reason q = Some x ->
     signal_reason (f q) = Some x
     /\ exists evs, log (f q) = log q ++ evs /\ no_listener evs = true) ->
  (forall q, signal_reason q = Some x ->
     signal_reason (g q) = Some x
     /\ exists evs, log (g q) = log q ++ evs /\ no_listener evs = true) ->
  signal_reason p = Some x ->
  signal_reason (g (f p)) = Some x
  /\ exists evs, log (g (f p)) = log p ++ evs /\ no_listener evs = true.
Proof.
  intros Hf Hg Hp.
  destruct (Hf p Hp) as (H1 & e1 & L1 & N1).
  destruct (Hg (f p) H1) as (H2 & e2 & L2 & N2).
  split; [exact H2|]. exists (e1 ++ e2).
  rewrite L2, L1, <- app_assoc, no_listener_app, N1, N2. auto.
Qed.

Lemma aborted_emit e p x :
  is_listener_event e = false ->
  signal_reason p = Some x ->
  signal_reason (emit e p) = Some x
  /\ exists evs, log (emit e p) = log p ++ evs /\ no_listener evs = true.
Proof.
  intros He H. split; [exact H|]. exists [e]. cbn. rewrite He. auto.
Qed.

(** Once the signal is aborted, whatever the work function does calls no
    listener. *)
Lemma aborted_run_executor e : forall p x,
  signal_reason p = Some x ->
  signal_reason (fst (run_executor e p)) = Some x
  /\ exists evs, log (fst (run_executor e p)) = log p ++ evs /\ no_listener evs = true.
Proof.
  induction e as [r|y|v k IH|r k IH|tag k IH|tag k IH|k IH|k IH|k IH|k IH|k IH];
    intros p x Hp; cbn [run_executor].
  - apply aborted_here, Hp.
  - apply aborted_here, Hp.
  - apply (aborted_then (resolve v) (fun q => fst (run_executor k q))); auto.
    intros q Hq. apply aborted_resolve, Hq.
  - apply (aborted_then (reject r) (fun q => fst (run_executor k q))); auto.
    intros q Hq. apply aborted_reject, Hq.
  - apply (aborted_then (fun q => fst (onAborted (LUser tag) q))
                        (fun q => fst (run_executor k q))); auto.
    intros q Hq. apply (aborted_here (fst (onAborted (LUser tag) q))), Hq.
  - apply (aborted_then (fun q => fst (onAborted (LOnResolved tag) q))
                        (fun q => fst (run_executor k q))); auto.
    intros q Hq. apply (aborted_here (fst (onAborted (LOnResolved tag) q))), Hq.
  - apply (aborted_then (emit (EvIsAborted (isAborted p)))
                        (fun q => fst (run_executor (k (isAborted p)) q))); auto.
    intros q Hq. apply aborted_emit; auto.
  - apply IH, Hp.
  - apply (aborted_then (emit (EvAbortReason (abortReason p)))
                        (fun q => fst (run_executor (k (abortReason p)) q))); auto.
    intros q Hq. apply aborted_emit; auto.
  - apply IH, Hp.
  - unfold isAborted. rewrite Hp. apply aborted_here, Hp.
Qed.

Lemma aborted_step s p x :
  signal_reason p = Some x ->
  signal_reason (step s p) = Some x
  /\ exists evs, log (step s p) = log p ++ evs /\ no_listener evs = true.
Proof.
  intros Hp. destruct s; cbn.
  - rewrite (abort_aborted _ _ _ Hp). apply aborted_here, Hp.
  - apply aborted_reject, Hp.
  - unfold cancel. rewrite (abort_aborted _ _ _ Hp). apply aborted_here, Hp.
  - unfold timeout_fires. destruct (timer p) as [|d|d|d]; try apply aborted_here, Hp.
    rewrite (abort_aborted _ (set_timer (Fired d) p) x Hp).
    apply (aborted_here (set_timer (Fired d) p)), Hp.
  - unfold abortSignal_aborts. destruct (bridge p); try apply aborted_here, Hp.
    rewrite (abort_aborted _ _ _ Hp). apply aborted_here, Hp.
  - apply aborted_run_executor, Hp.
Qed.

Lemma aborted_run steps : forall p x,
  signal_reason p = Some x ->
  signal_reason (run steps p) = Some x
  /\ exists evs, log (run steps p) = log p ++ evs /\ no_listener evs = true.
Proof.
  induction steps as [|s steps IH]; intros p x Hp; cbn.
  - apply aborted_here, Hp.
  - apply (aborted_then (step s) (run steps)); auto.
    intros q Hq. apply aborted_step, Hq.
Qed.

(** C6, as the code has it.  A listener given to [onAborted] after the
    signal was aborted is not called at the registration (only a
    listener and a cleanup closure are added), and no later step calls
    any listener: the ['abort'] event was dispatched already. *)
Theorem listener_after_abort_never_called p l steps :
  isAborted p = true ->
  log (fst (onAborted l p)) = log p
  /\ signal_listeners (fst (onAborted l p)) = signal_listeners p ++ [(next_listener p, l)]
  /\ cleanupFns (fst (onAborted l p))
     = cleanupFns p ++ [CRemoveListener (next_listener p)]
  /\ exists evs,
      log (run steps (fst (onAborted l p))) = log p ++ evs /\ no_listener evs = true.
Proof.
  intros Ha. unfold isAborted in Ha.
  destruct (signal_reason p) as [x|] eqn:Hx; [|discriminate].
  split; [reflexivity|]. split; [reflexivity|]. split; [reflexivity|].
  destruct (aborted_run steps (fst (onAborted l p)) x Hx) as (_ & evs & L & N).
  exists evs. auto.
Qed.

Lemma listener_after_abort_never_called_witness :
  let p := abort (VStr "x") fresh in
  isAborted p = true
  /\ log (fst (onAborted (LUser 7) p)) = log p
  /\ exists evs,
      log (run [SAbort (VStr "y"); SReject (VStr "z")] (fst (onAborted (LUser 7) p)))
      = log p ++ evs /\ no_listener evs = true.
Proof.
  intros p.
  destruct (listener_after_abort_never_called p (LUser 7)
              [SAbort (VStr "y"); SReject (VStr "z")] eq_refl) as (H1 & _ & _ & H2).
  split; [reflexivity|]. split; [exact H1 | exact H2].
Defined.

(** C6 fails as stated: a work function that rejects and then registers
    listener 7 never sees it called, neither at the registration nor by
    later calls of [abort], [cancel] and [reject]. *)
Lemma listener_after_abort_not_fired :
  let p := fst (construct
                  (Some (IsFunction
                           (CallReject (VStr "a") (CallOnAborted 7 (Return RUndefined)))))
                  None) in
  isAborted p = true
  /\ abortReason p = VStr "a"
  /\ signal_listeners p = [(1, LUser 7)]
  /\ listener_calls 7 (log p) = 0
  /\ listener_calls 7 (log (run [SAbort (VStr "b"); SCancel; SReject (VStr "c")] p)) = 0.
Proof. repeat split; reflexivity. Qed.

End AfterAbort.

Section PreAbortedSignal.

Lemma first_isAborted_app_Some l1 l2 b :
  first_isAborted l1 = Some b -> first_isAborted (l1 ++ l2) = Some b.
Proof.
  induction l1 as [|e l1 IH]; cbn; [discriminate|].
  destruct e; auto.
Qed.

Lemma executor_called_app l1 l2 :
  executor_called (l1 ++ l2) = executor_called l1 || executor_called l2.
Proof. apply existsb_app. Qed.

(** With an outer signal that is already aborted and [rejectOnAbort]
    false, the constructor reaches the work function with the private
    signal aborted, having logged only the abort and the timer. *)
Lemma setup_pre_aborted_silent o s :
  abortSignal o = Some s -> aborted s = true ->
  default true (rejectOnAbort o) = false ->
  exists p, setup o = inr p
            /\ signal_reason p = Some (stored_reason (reason s))
            /\ first_isAborted (log p) = None.
Proof.
  intros Hs Ha Hr. unfold setup. rewrite Hs, Ha, Hr.
  destruct (timeout o) as [d|]; [destruct (truthy d)|];
    eexists; (split; [reflexivity|]); cbn; auto.
Qed.

Lemma setup_pre_aborted_rejecting o s :
  abortSignal o = Some s -> aborted s = true ->
  default true (rejectOnAbort o) = true ->
  setup o = inl (reject (reason s) fresh).
Proof. intros Hs Ha Hr. unfold setup. rewrite Hs, Ha, Hr. reflexivity. Qed.

(** C5, as the code has it.  With an [abortSignal] that is aborted when
    the constructor runs: if [rejectOnAbort] is true (the default) the
    promise is rejected with the signal's reason at once and the
    constructor returns without calling the work function, so no check
    of the context is ever made; if [rejectOnAbort] is false the work
    function is called and its first [isAborted()] returns true. *)
Theorem pre_aborted_signal_short_circuits e o s :
  abortSignal o = Some s ->
  aborted s = true ->
  let p := fst (construct (Some (IsFunction e)) (Some o)) in
  match default true (rejectOnAbort o) with
  | true =>
      state p = Rejected (reason s)
      /\ signal_reason p = Some (stored_reason (reason s))
      /\ log p = [EvRej (reason s); EvControllerAbort (reason s)]
      /\ executor_called (log p) = false
      /\ first_isAborted (log p) = None
  | false =>
      executor_called (log p) = true
      /\ first_isAborted
           (log (fst (construct (Some (IsFunction (CallIsAborted (fun _ => e))))
                                (Some o))))
         = Some true
  end.
Proof.
  intros Hs Ha p. subst p. unfold construct.
  change (options_of (Some (IsFunction e)) (Some o)) with o.
  change (options_of (Some (IsFunction (CallIsAborted (fun _ => e)))) (Some o)) with o.
  cbn [executor_of].
  destruct (default true (rejectOnAbort o)) eqn:Hr.
  - rewrite (setup_pre_aborted_rejecting _ _ Hs Ha Hr). cbn [fst].
    repeat split; reflexivity.
  - destruct (setup_pre_aborted_silent _ _ Hs Ha Hr) as (p0 & -> & Hx & Hf).
    split.
    + assert (Hc : exists evs,
                 log (fst (run_executor e (emit EvExecutor p0)))
                 = log p0 ++ EvExecutor :: evs).
      { destruct (aborted_run_executor e (emit EvExecutor p0) _ Hx) as (_ & evs & L & _).
        exists evs. rewrite L. cbn. rewrite <- app_assoc. reflexivity. }
      destruct Hc as (evs & L).
      destruct (run_executor e (emit EvExecutor p0)) as [q [[| |]|y]] eqn:R;
        cbn [fst] in *; try (rewrite L, executor_called_app; cbn;
                             apply orb_true_r).
      destruct (reject_log y q) as (ev2 & L2 & _).
      rewrite L2, L, <- app_assoc, !executor_called_app. cbn.
      rewrite orb_true_r. reflexivity.
    + cbn [run_executor].
      assert (Hia : isAborted (emit EvExecutor p0) = true).
      { unfold isAborted. cbn. rewrite Hx. reflexivity. }
      rewrite Hia.
      set (q0 := emit (EvIsAborted true) (emit EvExecutor p0)).
      assert (Hq : first_isAborted (log q0) = Some true).
      { subst q0. cbn.
        clear -Hf. induction (log p0) as [|ev l IH]; cbn in *; [reflexivity|].
        destruct ev; auto; discriminate. }
      destruct (aborted_run_executor e q0 _ Hx) as (_ & evs & L & _).
      destruct (run_executor e q0) as [q [[| |]|y]] eqn:R;
        cbn [fst] in *; try (rewrite L; apply first_isAborted_app_Some, Hq).
      destruct (reject_log y q) as (ev2 & L2 & _).
      rewrite L2, L. apply first_isAborted_app_Some, first_isAborted_app_Some, Hq.
Qed.

Lemma pre_aborted_signal_short_circuits_witness :
  let e := CallIsAborted (fun _ => Return RUndefined) in
  let s := mkSignal true (VStr "pre") in
  let o := mkOptions (Some s) None None in
  let o' := mkOptions (Some s) (Some false) None in
  abortSignal o = Some s
  /\ aborted s = true
  /\ state (fst (construct (Some (IsFunction e)) (Some o))) = Rejected (VStr "pre")
  /\ executor_called (log (fst (construct (Some (IsFunction e)) (Some o)))) = false
  /\ executor_called (log (fst (construct (Some (IsFunction e)) (Some o')))) = true.
Proof.
  intros e s o o'.
  destruct (pre_aborted_signal_short_circuits e o s eq_refl eq_refl)
    as (H1 & _ & _ & H4 & _).
  destruct (pre_aborted_signal_short_circuits e o' s eq_refl eq_refl) as (H5 & _).
  split; [reflexivity|]. split; [reflexivity|].
  split; [exact H1|]. split; [exact H4 | exact H5].
Defined.

(** C5 fails as stated: with an outer signal aborted with ["pre"] and the
    default options the promise is rejected with ["pre"], but the work
    function is never called, so its context shows nothing: there is no
    first [isAborted()] check. *)
Lemma pre_aborted_executor_not_called :
  let p := fst (construct
                  (Some (IsFunction (CallIsAborted (fun _ => Return RUndefined))))
                  (Some (mkOptions (Some (mkSignal true (VStr "pre"))) None None))) in
  state p = Rejected (VStr "pre")
  /\ executor_called (log p) = false
  /\ first_isAborted (log p) <> Some true.
Proof. repeat split; try reflexivity. discriminate. Qed.

End PreAbortedSignal.

Section TimeoutGuard.

Lemma timer_run_cleanup c q :
  timer (run_cleanup c q) =
  match c, timer q with
  | CClearTimeout, Armed d => Cleared d
  | _, t => t
  end.
Proof. destruct c; cbn; destruct (timer q) eqn:E; cbn; rewrite ?E; reflexivity. Qed.

Lemma timer_delay_run_cleanups cs : forall q,
  timer_delay (timer (run_cleanups cs q)) = timer_delay (timer q).
Proof.
  induction cs as [|c cs IH]; intros q; cbn; [reflexivity|].
  unfold run_cleanups in IH. rewrite IH, timer_run_cleanup.
  destruct c, (timer q); reflexivity.
Qed.

Lemma timer_run_cleanups_cleared cs d : forall q,
  timer q = Cleared d -> timer (run_cleanups cs q) = Cleared d.
Proof.
  induction cs as [|c cs IH]; intros q Hq; cbn; [exact Hq|].
  apply IH. rewrite timer_run_cleanup, Hq. destruct c; reflexivity.
Qed.

Lemma timer_run_cleanups_armed cs d : forall q,
  timer q = Armed d -> In CClearTimeout cs -> timer (run_cleanups cs q) = Cleared d.
Proof.
  induction cs as [|c cs IH]; intros q Hq Hin; [destruct Hin|].
  cbn. destruct Hin as [->|Hin].
  - apply timer_run_cleanups_cleared. rewrite timer_run_cleanup, Hq. reflexivity.
  - destruct c.
    + apply IH; [rewrite timer_run_cleanup, Hq; reflexivity | exact Hin].
    + apply IH; [rewrite timer_run_cleanup, Hq; reflexivity | exact Hin].
    + apply timer_run_cleanups_cleared. rewrite timer_run_cleanup, Hq. reflexivity.
Qed.

Lemma timer_abort_rej r p : timer (abort r (rej r p)) = timer p.
Proof.
  destruct (abort_frame r (rej r p)) as (_ & _ & _ & _ & ->).
  destruct (rej_frame r p) as (_ & _ & _ & _ & _ & -> & _). reflexivity.
Qed.

Lemma timer_abort_res v p : timer (abort (withResolved v) (res v p)) = timer p.
Proof.
  destruct (abort_frame (withResolved v) (res v p)) as (_ & _ & _ & _ & ->).
  destruct (res_frame v p) as (_ & _ & _ & _ & _ & -> & _). reflexivity.
Qed.

Lemma timer_delay_reject r p :
  timer_delay (timer (reject r p)) = timer_delay (timer p).
Proof. rewrite reject_unfold, timer_delay_run_cleanups, timer_abort_rej. reflexivity. Qed.

Lemma timer_delay_resolve v p :
  timer_delay (timer (resolve v p)) = timer_delay (timer p).
Proof. rewrite resolve_unfold, timer_delay_run_cleanups, timer_abort_res. reflexivity. Qed.

Lemma keeps_timer_refl p : keeps_timer p p.
Proof. split; [reflexivity|]. exists []. rewrite app_nil_r. reflexivity. Qed.

Lemma keeps_timer_trans p q r :
  keeps_timer p q -> keeps_timer q r -> keeps_timer p r.
Proof.
  intros (H1 & e1 & C1) (H2 & e2 & C2). split; [congruence|].
  exists (e1 ++ e2). rewrite C2, C1, app_assoc. reflexivity.
Qed.

Lemma keeps_timer_reject r p : keeps_timer p (reject r p).
Proof.
  split; [apply timer_delay_reject|]. exists [].
  rewrite reject_cleanupFns, app_nil_r. reflexivity.
Qed.

Lemma keeps_timer_resolve v p : keeps_timer p (resolve v p).
Proof.
  split; [apply timer_delay_resolve|]. exists [].
  rewrite resolve_cleanupFns, app_nil_r. reflexivity.
Qed.

Lemma keeps_timer_abort r p : keeps_timer p (abort r p).
Proof.
  destruct (abort_frame r p) as (_ & C & _ & _ & T).
  split; [rewrite T; reflexivity|]. exists []. rewrite C, app_nil_r. reflexivity.
Qed.

Lemma keeps_timer_run_executor e : forall p,
  keeps_timer p (fst (run_executor e p)).
Proof.
  induction e as [r|y|v k IH|r k IH|tag k IH|tag k IH|k IH|k IH|k IH|k IH|k IH];
    intros p; cbn [run_executor]; try apply keeps_timer_refl.
  - eapply keeps_timer_trans; [apply keeps_timer_resolve | apply IH].
  - eapply keeps_timer_trans; [apply keeps_timer_reject | apply IH].
  - eapply keeps_timer_trans; [|apply IH]. split; [reflexivity|]. eexists. reflexivity.
  - eapply keeps_timer_trans; [|apply IH]. split; [reflexivity|]. eexists. reflexivity.
  - eapply keeps_timer_trans; [|apply IH]. apply (keeps_timer_refl p).
  - apply IH.
  - eapply keeps_timer_trans; [|apply IH]. apply (keeps_timer_refl p).
  - apply IH.
  - destruct (isAborted p); [apply keeps_timer_refl | apply IH].
Qed.

Lemma keeps_timer_step s p : keeps_timer p (step s p).
Proof.
  destruct s; cbn.
  - apply keeps_timer_abort.
  - apply keeps_timer_reject.
  - apply keeps_timer_abort.
  - unfold timeout_fires. destruct (timer p) as [|d|d|d] eqn:T;
      try apply keeps_timer_refl.
    eapply keeps_timer_trans; [|apply keeps_timer_abort].
    split; [cbn; rewrite T; reflexivity|]. exists []. cbn. rewrite app_nil_r. reflexivity.
  - unfold abortSignal_aborts. destruct (bridge p);
      [apply keeps_timer_abort | apply keeps_timer_refl].
  - apply keeps_timer_run_executor.
Qed.

Lemma keeps_timer_invariant o p q :
  keeps_timer p q -> timer_invariant o p -> timer_invariant o q.
Proof.
  unfold timer_invariant. intros (-> & extra & ->).
  destruct (timer_delay (timer p)); auto.
  intros (H1 & H2 & H3). repeat split; auto. apply in_or_app. auto.
Qed.

Lemma setup_timer o :
  match setup o with
  | inl p | inr p =>
      timer_invariant o p
      /\ timer_delay (timer p) =
         if returns_early o then None
         else match timeout o with
              | Some d => if truthy d then Some d else None
              | None => None
              end
  end.
Proof.
  unfold setup, returns_early, timer_invariant.
  destruct (abortSignal o) as [[[] rs]|];
    destruct (default true (rejectOnAbort o));
    destruct (timeout o) as [d|]; try destruct (truthy d) eqn:T; cbn; auto 10.
Qed.

Lemma construct_timer a o :
  timer_invariant (options_of a o) (fst (construct a o))
  /\ timer_delay (timer (fst (construct a o))) =
     if returns_early (options_of a o) then None
     else match timeout (options_of a o) with
          | Some d => if truthy d then Some d else None
          | None => None
          end.
Proof.
  unfold construct. pose proof (setup_timer (options_of a o)) as Hs.
  destruct (setup (options_of a o)) as [p|p]; [exact Hs|].
  destruct (executor_of a) as [e|]; [|exact Hs].
  destruct Hs as [Hi Hd].
  assert (K : keeps_timer p (fst (run_executor e (emit EvExecutor p)))).
  { eapply keeps_timer_trans; [|apply keeps_timer_run_executor]. apply (keeps_timer_refl p). }
  destruct (run_executor e (emit EvExecutor p)) as [q [[| |]|y]]; cbn [fst] in *;
    try (split; [eapply keeps_timer_invariant; eauto | destruct K as [-> _]; exact Hd]).
  pose proof (keeps_timer_trans _ _ _ K (keeps_timer_reject y q)) as K'.
  split; [eapply keeps_timer_invariant; eauto | destruct K' as [-> _]; exact Hd].
Qed.

Lemma timer_invariant_reachable a o p :
  reachable a o p -> timer_invariant (options_of a o) p.
Proof.
  intros [steps ->]. destruct (construct_timer a o) as [H _].
  revert H. generalize (fst (construct a o)).
  induction steps as [|s steps IH]; intros q Hq; cbn; [exact Hq|].
  apply IH. eapply keeps_timer_invariant; [apply keeps_timer_step | exact Hq].
Qed.

(** C8, as the code has it.  The timer is started exactly when [timeout]
    is set and truthy, that is non-zero (negative delays included), and
    the constructor did not return early on an aborted outer signal.  An
    armed timer carries the configured delay and has its [clearTimeout]
    in [cleanupFns], so the enhanced [resolve] and [reject] cancel it.
    When it fires before the promise is aborted, the signal is aborted
    with [TimeoutError(timeout)], and under [rejectOnAbort] the promise is
    rejected with it. *)
Theorem timeout_guard a o :
  (timer_started (fst (construct a o)) = true
   <-> exists d, timeout (options_of a o) = Some d /\ d <> 0%Z
                 /\ returns_early (options_of a o) = false)
  /\ forall p d,
      reachable a o p -> timer p = Armed d ->
      timeout (options_of a o) = Some d
      /\ In CClearTimeout (cleanupFns p)
      /\ (forall r, timer (reject r p) = Cleared d
                    /\ timeout_fires (reject r p) = reject r p)
      /\ (forall v, timer (resolve v p) = Cleared d
                    /\ timeout_fires (resolve v p) = resolve v p)
      /\ (isAborted p = false ->
          signal_reason (timeout_fires p) = Some (VTimeoutError d)
          /\ (effective_rejectOnAbort a o = true ->
              state (timeout_fires p) = Rejected (VTimeoutError d))).
Proof.
  split.
  - destruct (construct_timer a o) as [_ Hd].
    unfold timer_started.
    assert (Hst : (match timer (fst (construct a o)) with NoTimer => false | _ => true end)
                  = match timer_delay (timer (fst (construct a o))) with
                    | Some _ => true | None => false end).
    { destruct (timer (fst (construct a o))); reflexivity. }
    rewrite Hst, Hd. unfold truthy.
    destruct (returns_early (options_of a o)).
    + split; [discriminate | intros (d & _ & _ & ?); discriminate].
    + destruct (timeout (options_of a o)) as [d|].
      * destruct (Z.eqb_spec d 0); cbn.
        -- split; [discriminate | intros (d' & [= <-] & ? & _); contradiction].
        -- split; [eauto | reflexivity].
      * split; [discriminate | intros (d & ? & _); discriminate].
  - intros p d Hp Ht.
    pose proof (timer_invariant_reachable _ _ _ Hp) as Hi.
    unfold timer_invariant in Hi. rewrite Ht in Hi. cbn in Hi.
    destruct Hi as (Ho & _ & Hin).
    split; [exact Ho|]. split; [exact Hin|].
    assert (Hrej : forall r, timer (reject r p) = Cleared d).
    { intros r. rewrite reject_unfold.
      apply timer_run_cleanups_armed; [rewrite timer_abort_rej; exact Ht | exact Hin]. }
    assert (Hres : forall v, timer (resolve v p) = Cleared d).
    { intros v. rewrite resolve_unfold.
      apply timer_run_cleanups_armed; [rewrite timer_abort_res; exact Ht | exact Hin]. }
    split; [|split].
    + intros r. split; [apply Hrej|]. unfold timeout_fires. rewrite Hrej. reflexivity.
    + intros v. split; [apply Hres|]. unfold timeout_fires. rewrite Hres. reflexivity.
    + intros Ha.
      assert (Hn : signal_reason p = None).
      { unfold isAborted in Ha. destruct (signal_reason p); [discriminate|reflexivity]. }
      unfold timeout_fires. rewrite Ht.
      rewrite abort_signal_reason, abort_state. cbn [signal_reason set_timer state].
      rewrite Hn. split; [reflexivity|].
      intros Hr. pose proof (rejecting_reachable _ _ _ Hr Hp) as Hinv.
      unfold rejecting_invariant in Hinv. rewrite Hn in Hinv. destruct Hinv as [Hs Hl].
      rewrite Hs.
      change (has_rej_listener (set_timer (Fired d) p)) with (has_rej_listener p).
      rewrite Hl. reflexivity.
Qed.

(** C8 fails as stated: [{ timeout: -1 }] is not positive and starts the
    timer, which then aborts with [TimeoutError(-1)]; and a positive
    [timeout] next to an outer signal that is already aborted starts
    none. *)
Lemma timeout_guard_not_only_positive :
  let p := fst (construct (Some (IsOptions (mkOptions None None (Some (-1)%Z)))) None) in
  let q := fst (construct
                  (Some (IsOptions (mkOptions (Some (mkSignal true (VStr "pre"))) None
                                              (Some 50%Z))))
                  None) in
  timer_started p = true
  /\ state (timeout_fires p) = Rejected (VTimeoutError (-1))
  /\ timer_started q = false.
Proof. repeat split; reflexivity. Qed.

End TimeoutGuard.

Import Chain.

(** * Facts about the heap *)

Section HeapOperations.

(** The closure state of a promise made for a capability. *)
Lemma capability_body :
  fst (construct (Some (IsFunction capability_executor)) None)
  = mkPromise Pending None [(0, LRej)] 1 [CRemoveListener 0] false NoTimer [EvExecutor].
Proof. reflexivity. Qed.

Lemma with_body_spec i f h o :
  objects h !! i = Some o ->
  objects (with_body i f h) !! i =
    Some (match state (f (body o)) with
          | Pending => set_body f o
          | _ => set_reactions [] (set_body f o)
          end)
  /\ (forall j, j <> i -> objects (with_body i f h) !! j = objects h !! j)
  /\ length (objects (with_body i f h)) = length (objects h)
  /\ jobs (with_body i f h) =
     jobs h ++ match state (f (body o)) with
               | Pending => []
               | s => map (fun r => ReactionJob r s) (reactions o)
               end.
Proof.
  intros Ho. unfold with_body, flush. cbn [objects jobs].
  rewrite list_lookup_alter_eq, Ho. cbn [fmap option_fmap option_map set_body body reactions].
  destruct (state (f (body o))) eqn:S; cbn [objects jobs].
  - rewrite list_lookup_alter_eq, Ho, length_alter, app_nil_r. cbn.
    repeat split; auto. intros j Hj. apply list_lookup_alter_ne. auto.
  - rewrite list_lookup_alter_eq, list_lookup_alter_eq, Ho, !length_alter. cbn.
    repeat split; auto. intros j Hj. rewrite !list_lookup_alter_ne; auto.
  - rewrite list_lookup_alter_eq, list_lookup_alter_eq, Ho, !length_alter. cbn.
    repeat split; auto. intros j Hj. rewrite !list_lookup_alter_ne; auto.
Qed.

(** What [then] does on an AbortablePromise. *)
Lemma then_abortable i onF onR h o :
  objects h !! i = Some o -> kind o = Abortable ->
  exists h1,
    then_ i onF onR h = (length (objects h), h1)
    /\ length (objects h1) = S (length (objects h))
    /\ objects h1 !! length (objects h) =
       Some (mkObject (fst (construct (Some (IsFunction capability_executor)) None))
                      Abortable [] false (abort_prop o) (reject_prop o))
    /\ objects h1 !! i =
       Some (match state (body o) with
             | Pending =>
                 set_handled
                   (set_reactions
                      (reactions o ++ [mkReaction (length (objects h)) onF onR]) o)
             | _ => set_handled o
             end)
    /\ (forall j, j <> i -> j <> length (objects h) -> objects h1 !! j = objects h !! j)
    /\ jobs h1 =
       jobs h ++ match state (body o) with
                 | Pending => []
                 | s => [ReactionJob (mkReaction (length (objects h)) onF onR) s]
                 end.
Proof.
  intros Ho Hk.
  assert (Hlt : i < length (objects h)) by (eapply lookup_lt_Some; eauto).
  unfold then_, super_then. rewrite Ho. cbn [fmap option_fmap option_map]. rewrite Hk.
  unfold new_capability. cbn [objects jobs].
  set (cap := mkObject _ Abortable [] false _ _).
  set (r := mkReaction (length (objects h)) onF onR).
  set (objs1 := match state (body o) with
                | Pending => alter _ i (objects h ++ [cap])
                | _ => alter set_handled i (objects h ++ [cap])
                end).
  assert (Hi : objs1 !! i =
               Some (match state (body o) with
                     | Pending => set_handled (set_reactions (reactions o ++ [r]) o)
                     | _ => set_handled o
                     end)).
  { subst objs1. destruct (state (body o));
      rewrite list_lookup_alter_eq, lookup_app_l, Ho by exact Hlt; reflexivity. }
  assert (Hd : objs1 !! length (objects h) = Some cap).
  { subst objs1. destruct (state (body o));
      rewrite list_lookup_alter_ne by lia;
      apply list_lookup_middle; reflexivity. }
  assert (Hlen : length objs1 = S (length (objects h))).
  { subst objs1. destruct (state (body o));
      rewrite length_alter, length_app; cbn; lia. }
  assert (Hother : forall j, j <> i -> j <> length (objects h) ->
                             objs1 !! j = objects h !! j).
  { intros j H1 H2. subst objs1.
    destruct (state (body o)); rewrite list_lookup_alter_ne by auto;
      (destruct (Nat.lt_ge_cases j (length (objects h)));
       [apply lookup_app_l; auto
       | rewrite !lookup_ge_None_2; auto; rewrite length_app; cbn; lia]). }
  unfold reassignProps. cbn [objects jobs]. rewrite Hi.
  eexists. split; [reflexivity|]. cbn [objects jobs].
  rewrite length_alter, list_lookup_alter_eq, Hd, list_lookup_alter_ne by lia.
  repeat split; auto.
  - cbn. destruct (state (body o)); reflexivity.
  - intros j H1 H2. rewrite list_lookup_alter_ne by auto. auto.
  - destruct (state (body o)); rewrite ?app_nil_r; reflexivity.
Qed.

(** What [then] does on a promise of either class: the derived promise is
    a new pending object of the same class. *)
Lemma then_spec i onF onR h o :
  objects h !! i = Some o ->
  exists h1 cap,
    then_ i onF onR h = (length (objects h), h1)
    /\ objects h1 !! length (objects h) = Some cap
    /\ kind cap = kind o /\ state (body cap) = Pending /\ reactions cap = []
    /\ objects h1 !! i =
       Some (match state (body o) with
             | Pending =>
                 set_handled
                   (set_reactions
                      (reactions o ++ [mkReaction (length (objects h)) onF onR]) o)
             | _ => set_handled o
             end)
    /\ (forall j, j <> i -> j <> length (objects h) -> objects h1 !! j = objects h !! j)
    /\ jobs h1 =
       jobs h ++ match state (body o) with
                 | Pending => []
                 | s => [ReactionJob (mkReaction (length (objects h)) onF onR) s]
                 end.
Proof.
  intros Ho. destruct (kind o) eqn:Hk.
  - assert (Hlt : i < length (objects h)) by (eapply lookup_lt_Some; eauto).
    unfold then_, super_then. rewrite Ho. cbn [fmap option_fmap option_map]. rewrite Hk.
    unfold new_capability. cbn [objects jobs].
    set (cap := mkObject fresh Native [] false None None).
    set (r := mkReaction (length (objects h)) onF onR).
    set (objs1 := match state (body o) with
                  | Pending => alter _ i (objects h ++ [cap])
                  | _ => alter set_handled i (objects h ++ [cap])
                  end).
    assert (Hi : objs1 !! i =
                 Some (match state (body o) with
                       | Pending => set_handled (set_reactions (reactions o ++ [r]) o)
                       | _ => set_handled o
                       end)).
    { subst objs1. destruct (state (body o));
        rewrite list_lookup_alter_eq, lookup_app_l, Ho by exact Hlt; reflexivity. }
    assert (Hd : objs1 !! length (objects h) = Some cap).
    { subst objs1. destruct (state (body o));
        rewrite list_lookup_alter_ne by lia;
        apply list_lookup_middle; reflexivity. }
    assert (Hother : forall j, j <> i -> j <> length (objects h) ->
                               objs1 !! j = objects h !! j).
    { intros j H1 H2. subst objs1.
      destruct (state (body o)); rewrite list_lookup_alter_ne by auto;
        (destruct (Nat.lt_ge_cases j (length (objects h)));
         [apply lookup_app_l; auto
         | rewrite !lookup_ge_None_2; auto; rewrite length_app; cbn; lia]). }
    eexists. exists cap. split; [reflexivity|]. cbn [objects jobs].
    repeat split; auto.
    destruct (state (body o)); rewrite ?app_nil_r; reflexivity.
  - destruct (then_abortable i onF onR h o Ho Hk) as (h1 & E & _ & Hd & Hi & Hother & Hj).
    exists h1. eexists. split; [exact E|]. split; [exact Hd|]. repeat split; auto.
Qed.

Lemma new_AbortablePromise_spec a opts h :
  exists h0,
    objects h0 !! length (objects h)
    = Some (mkObject (fst (construct a opts)) Abortable [] false
                     (Some (length (objects h))) (Some (length (objects h))))
    /\ length (objects h0) = S (length (objects h))
    /\ (forall j, j < length (objects h) -> objects h0 !! j = objects h !! j)
    /\ jobs h0 = jobs h
    /\ new_AbortablePromise a opts h =
       match snd (construct a opts) with
       | Some inner =>
           (length (objects h),
            snd (catch_ inner (Some (HReject (length (objects h)))) h0))
       | None => (length (objects h), h0)
       end.
Proof.
  unfold new_AbortablePromise.
  destruct (construct a opts) as [p result]. cbn [fst snd].
  eexists. split; [|split; [|split; [|split]]]; cycle 4.
  - destruct result; reflexivity.
  - cbn. apply list_lookup_middle. reflexivity.
  - cbn. rewrite length_app. cbn. lia.
  - intros j Hj. cbn. apply lookup_app_l. exact Hj.
  - reflexivity.
Qed.

End HeapOperations.

Section ChainControl.

Lemma same_control_refl o : same_control o o.
Proof. repeat split. Qed.

Lemma same_control_trans o1 o2 o3 :
  same_control o1 o2 -> same_control o2 o3 -> same_control o1 o3.
Proof. unfold same_control. intros (?&?&?) (?&?&?). repeat split; congruence. Qed.

(** One chaining operation on an AbortablePromise: the derived object is
    new, holds the parent's [abort] and [reject], and no existing object
    changes its own. *)
Lemma derive_spec op i h o :
  objects h !! i = Some o -> kind o = Abortable ->
  exists h' o',
    derive op i h = (length (objects h), h')
    /\ objects h' !! length (objects h) = Some o'
    /\ same_control o o'
    /\ (forall j oj, objects h !! j = Some oj ->
          exists oj', objects h' !! j = Some oj' /\ same_control oj oj').
Proof.
  intros Ho Hk.
  assert (Hlt : i < length (objects h)) by (eapply lookup_lt_Some; eauto).
  assert (Hthen : forall onF onR,
    exists h' o',
      then_ i onF onR h = (length (objects h), h')
      /\ objects h' !! length (objects h) = Some o'
      /\ same_control o o'
      /\ (exists oi, objects h' !! i = Some oi /\ same_control o oi)
      /\ (forall j oj, objects h !! j = Some oj ->
            exists oj', objects h' !! j = Some oj' /\ same_control oj oj')).
  { intros onF onR.
    destruct (then_abortable i onF onR h o Ho Hk) as (h1 & E & _ & Hd & Hi & Hother & _).
    exists h1. eexists. split; [exact E|]. split; [exact Hd|].
    split; [repeat split; cbn; auto|].
    split.
    - eexists. split; [exact Hi|]. destruct (state (body o)); repeat split.
    - intros j oj Hj. destruct (Nat.eq_dec j i) as [->|Hne].
      + rewrite Ho in Hj. injection Hj as <-.
        eexists. split; [exact Hi|]. destruct (state (body o)); repeat split.
      + exists oj. split; [|apply same_control_refl].
        rewrite Hother; auto.
        apply lookup_lt_Some in Hj. lia. }
  destruct op as [onF onR|onR|f]; cbn [derive].
  - destruct (Hthen onF onR) as (h' & o' & E & Hd & Hs & _ & Hother). eauto 10.
  - destruct (Hthen None onR) as (h' & o' & E & Hd & Hs & _ & Hother).
    unfold catch_. eauto 10.
  - destruct (Hthen (thenFinally <$> f) (catchFinally <$> f))
      as (h' & o' & E & Hd & Hs & (oi & Hi & Hsi) & Hother).
    unfold finally_. rewrite E, Hi. cbn [fmap option_fmap option_map].
    destruct Hsi as (Hki & Hai & Hri). rewrite Hki, Hk.
    unfold reassignProps. rewrite Hi.
    eexists. eexists. split; [reflexivity|]. cbn [objects].
    rewrite list_lookup_alter_eq, Hd. cbn [fmap option_fmap option_map].
    split; [reflexivity|].
    split.
    + destruct Hs as (Hk' & _). repeat split; cbn; congruence.
    + intros j oj Hj. destruct (Hother j oj Hj) as (oj' & Hj' & Hsj).
      exists oj'. split; [|exact Hsj].
      rewrite list_lookup_alter_ne; auto.
      apply lookup_lt_Some in Hj. lia.
Qed.

Lemma derive_all_spec ops : forall i h o,
  objects h !! i = Some o -> kind o = Abortable ->
  exists d h' o',
    derive_all ops i h = (d, h')
    /\ objects h' !! d = Some o'
    /\ same_control o o'
    /\ (forall j oj, objects h !! j = Some oj ->
          exists oj', objects h' !! j = Some oj' /\ same_control oj oj').
Proof.
  induction ops as [|op ops IH]; intros i h o Ho Hk; cbn [derive_all].
  - exists i, h, o. repeat split; eauto using same_control_refl.
  - destruct (derive_spec op i h o Ho Hk) as (h1 & o1 & E & Hd & Hs & Hother).
    rewrite E.
    assert (Hk1 : kind o1 = Abortable) by (destruct Hs as (-> & _); exact Hk).
    destruct (IH _ h1 o1 Hd Hk1) as (d & h' & o' & E' & Hd' & Hs' & Hother').
    exists d, h', o'. split; [exact E'|]. split; [exact Hd'|].
    split; [eapply same_control_trans; eauto|].
    intros j oj Hj. destruct (Hother j oj Hj) as (oj1 & Hj1 & Hsj1).
    destruct (Hother' j oj1 Hj1) as (oj' & Hj' & Hsj').
    exists oj'. split; [exact Hj'|]. eapply same_control_trans; eauto.
Qed.

(** A promise derived by at least one operation is a new object. *)
Lemma derive_all_fresh ops : forall i h o d h',
  objects h !! i = Some o -> kind o = Abortable ->
  derive_all ops i h = (d, h') -> ops <> [] ->
  length (objects h) <= d.
Proof.
  induction ops as [|op ops IH]; intros i h o d h' Ho Hk E Hne; [contradiction|].
  cbn [derive_all] in E.
  destruct (derive_spec op i h o Ho Hk) as (h1 & o1 & E1 & Hd & Hs & _).
  rewrite E1 in E.
  destruct ops as [|op' ops].
  - cbn in E. injection E as <- _. lia.
  - assert (Hk1 : kind o1 = Abortable) by (destruct Hs as (-> & _); exact Hk).
    assert (Hlen : length (objects h) < length (objects h1))
      by (eapply lookup_lt_Some; eauto).
    pose proof (IH _ h1 o1 d h' Hd Hk1 E ltac:(discriminate)). lia.
Qed.

(** A call of a closure of [root] leaves every other object as it is. *)
Lemma with_body_other root F h o d :
  objects h !! root = Some o -> d <> root ->
  objects (with_body root F h) !! d = objects h !! d.
Proof.
  intros Ho Hne. destruct (with_body_spec root F h o Ho) as (_ & H & _). auto.
Qed.

End ChainControl.

Section Microtasks.

Lemma run_microtasks_idle n h : jobs h = [] -> run_microtasks n h = h.
Proof. intros H. destruct n; cbn; [reflexivity|]. rewrite H. reflexivity. Qed.

Lemma with_body_any i F h :
  (forall j, j <> i -> objects (with_body i F h) !! j = objects h !! j)
  /\ (objects h !! i = None ->
      objects (with_body i F h) !! i = None /\ jobs (with_body i F h) = jobs h).
Proof.
  destruct (objects h !! i) as [o|] eqn:Ho.
  - destruct (with_body_spec i F h o Ho) as (_ & H & _). split; [exact H | discriminate].
  - unfold with_body, flush. cbn [objects jobs].
    rewrite list_lookup_alter_eq, Ho. cbn.
    split.
    + intros j Hj. apply list_lookup_alter_ne. auto.
    + intros _. rewrite list_lookup_alter_eq, Ho. auto.
Qed.

Lemma keeps_settled_resolve v : keeps_settled (resolve v).
Proof. intros p Hp. rewrite resolve_state. destruct (state p); congruence. Qed.

Lemma keeps_settled_reject e : keeps_settled (reject e).
Proof. intros p Hp. rewrite reject_state. destruct (state p); congruence. Qed.

Lemma keeps_settled_res v : keeps_settled (res v).
Proof.
  intros p Hp. destruct (res_frame v p) as (_ & _ & _ & _ & _ & _ & _ & ->).
  destruct (state p); congruence.
Qed.

Lemma keeps_settled_rej e : keeps_settled (rej e).
Proof.
  intros p Hp. destruct (rej_frame e p) as (_ & _ & _ & _ & _ & _ & _ & ->).
  destruct (state p); congruence.
Qed.

(** A settled promise stays as it is settled. *)
Lemma with_body_settled i F h j s :
  keeps_settled F -> state_of j h = Some s -> s <> Pending ->
  state_of j (with_body i F h) = Some s.
Proof.
  intros HF Hj Hs. unfold state_of in *.
  destruct (Nat.eq_dec j i) as [->|Hne].
  - destruct (objects h !! i) as [o|] eqn:Ho; [|discriminate].
    cbn in Hj. injection Hj as Hj.
    destruct (with_body_spec i F h o Ho) as (-> & _).
    assert (HFs : state (F (body o)) = s) by (rewrite HF; congruence).
    destruct (state (F (body o))) eqn:E; cbn; rewrite E; congruence.
  - destruct (with_body_any i F h) as (H & _). rewrite H by exact Hne. exact Hj.
Qed.

Lemma settle_capability_settled d out h j s :
  state_of j h = Some s -> s <> Pending ->
  state_of j (settle_capability d out h) = Some s.
Proof.
  intros Hj Hs. unfold settle_capability.
  destruct (kind <$> objects h !! d) as [[|]|], out; auto;
    apply with_body_settled;
    auto using keeps_settled_resolve, keeps_settled_reject,
               keeps_settled_res, keeps_settled_rej.
Qed.

Lemma run_job_settled jb h j s :
  state_of j h = Some s -> s <> Pending ->
  state_of j (run_job jb h) = Some s.
Proof.
  intros Hj Hs. destruct jb as [r st]. unfold run_job.
  assert (Hcall : forall hd x,
             state_of j (snd (call_handler hd x h)) = Some s).
  { intros [f|owner] x; cbn; [exact Hj|].
    apply with_body_settled; auto using keeps_settled_reject. }
  destruct st as [|v|e].
  - apply settle_capability_settled; auto.
  - destruct (onFulfilled r) as [hd|].
    + specialize (Hcall hd v). destruct (call_handler hd v h) as [out h1].
      apply settle_capability_settled; auto.
    + apply settle_capability_settled; auto.
  - destruct (onRejected r) as [hd|].
    + specialize (Hcall hd e). destruct (call_handler hd e h) as [out h1].
      apply settle_capability_settled; auto.
    + apply settle_capability_settled; auto.
Qed.

Lemma run_microtasks_settled n : forall h j s,
  state_of j h = Some s -> s <> Pending ->
  state_of j (run_microtasks n h) = Some s.
Proof.
  induction n as [|n IH]; intros h j s Hj Hs; cbn; [exact Hj|].
  destruct (jobs h) as [|jb js]; [exact Hj|].
  apply IH; auto. apply run_job_settled; auto.
Qed.

Lemma run_microtasks_add a : forall b h,
  run_microtasks (a + b) h = run_microtasks b (run_microtasks a h).
Proof.
  induction a as [|a IH]; intros b h; cbn; [reflexivity|].
  destruct (jobs h) as [|jb js] eqn:E.
  - rewrite run_microtasks_idle; auto.
  - apply IH.
Qed.

Lemma extends_below_refl n h :
  objects_below n (objects h) -> extends_below n h h.
Proof.
  intros H. split; [exact H|]. split; [auto|].
  exists []. rewrite app_nil_r. auto.
Qed.

Lemma extends_below_trans n h1 h2 h3 :
  extends_below n h1 h2 -> extends_below n h2 h3 -> extends_below n h1 h3.
Proof.
  intros (_ & K1 & new1 & J1 & B1) (O2 & K2 & new2 & J2 & B2).
  split; [exact O2|]. split.
  - intros k Hk. rewrite K2, K1; auto.
  - exists (new1 ++ new2). rewrite J2, J1, <- app_assoc, forallb_app, B1, B2. auto.
Qed.

(** A call in the closure of an object below [n] stays below [n]. *)
Lemma with_body_below n i F h :
  i < n -> objects_below n (objects h) -> extends_below n h (with_body i F h).
Proof.
  intros Hi Hb.
  destruct (objects h !! i) as [o|] eqn:Ho.
  - destruct (with_body_spec i F h o Ho) as (Hnew & Hother & _ & Hjobs).
    pose proof (Hb i o Hi Ho) as Hro.
    split; [|split].
    + intros j oj Hj Hlook. destruct (Nat.eq_dec j i) as [->|Hne].
      * rewrite Hnew in Hlook. injection Hlook as <-.
        destruct (state (F (body o))); cbn; auto.
      * rewrite Hother in Hlook by exact Hne. eapply Hb; eauto.
    + intros k Hk. apply Hother. lia.
    + eexists. split; [exact Hjobs|].
      destruct (state (F (body o))); cbn; auto;
        rewrite forallb_forall in *; intros jb Hin;
        apply in_map_iff in Hin as (r & <- & Hr); cbn; auto.
  - destruct (with_body_any i F h) as (Hother & Hnone).
    destruct (Hnone Ho) as (Hi' & Hjobs).
    split; [|split].
    + intros j oj Hj Hlook. destruct (Nat.eq_dec j i) as [->|Hne].
      * rewrite Hi' in Hlook. discriminate.
      * rewrite Hother in Hlook by exact Hne. eapply Hb; eauto.
    + intros k Hk. apply Hother. lia.
    + exists []. rewrite Hjobs, app_nil_r. auto.
Qed.

Lemma settle_capability_below n d out h :
  d < n -> objects_below n (objects h) ->
  extends_below n h (settle_capability d out h).
Proof.
  intros Hd Hb. unfold settle_capability.
  destruct (kind <$> objects h !! d) as [[|]|], out;
    try apply with_body_below; auto using extends_below_refl.
Qed.

(** A job below [n] leaves the objects from [n] on alone and adds only
    jobs below [n]. *)
Lemma run_job_below n jb h :
  job_below n jb = true -> objects_below n (objects h) ->
  extends_below n h (run_job jb h).
Proof.
  intros Hjb Hb. destruct jb as [r st]. cbn in Hjb. unfold reaction_below in Hjb.
  apply andb_true_iff in Hjb as [Hjb HR]. apply andb_true_iff in Hjb as [Hc HF].
  apply Nat.ltb_lt in Hc.
  assert (Hcall : forall hd x, handler_below n (Some hd) = true ->
             extends_below n h (snd (call_handler hd x h))).
  { intros [f|owner] x Hh; cbn in *; [apply extends_below_refl; auto|].
    apply Nat.ltb_lt in Hh. apply with_body_below; auto. }
  unfold run_job.
  destruct st as [|v|e].
  - apply settle_capability_below; auto.
  - destruct (onFulfilled r) as [hd|].
    + specialize (Hcall hd v HF). destruct (call_handler hd v h) as [out h1].
      cbn [snd] in Hcall. eapply extends_below_trans; [exact Hcall|].
      apply settle_capability_below; auto. apply Hcall.
    + apply settle_capability_below; auto.
  - destruct (onRejected r) as [hd|].
    + specialize (Hcall hd e HR). destruct (call_handler hd e h) as [out h1].
      cbn [snd] in Hcall. eapply extends_below_trans; [exact Hcall|].
      apply settle_capability_below; auto. apply Hcall.
    + apply settle_capability_below; auto.
Qed.

(** Running a prefix of jobs below [n]: what follows it in the queue is
    then at the front, and the objects from [n] on are untouched. *)
Lemma run_microtasks_prefix n J : forall h rest,
  jobs h = J ++ rest -> forallb (job_below n) J = true ->
  objects_below n (objects h) ->
  exists new,
    jobs (run_microtasks (length J) h) = rest ++ new
    /\ forallb (job_below n) new = true
    /\ objects_below n (objects (run_microtasks (length J) h))
    /\ (forall k, n <= k ->
          objects (run_microtasks (length J) h) !! k = objects h !! k).
Proof.
  induction J as [|jb J IH]; intros h rest Hj HJ Hb.
  - exists []. cbn. rewrite app_nil_r. auto.
  - cbn in HJ. apply andb_true_iff in HJ as [Hjb HJ].
    cbn [length run_microtasks]. rewrite Hj. cbn [app].
    set (h0 := mkHeap (objects h) (J ++ rest)).
    destruct (run_job_below n jb h0 Hjb Hb) as (Hb1 & K1 & new1 & J1 & B1).
    cbn [jobs h0] in J1. rewrite <- app_assoc in J1.
    destruct (IH (run_job jb h0) (rest ++ new1) J1 HJ Hb1) as (new2 & J2 & B2 & Hb2 & K2).
    exists (new1 ++ new2). rewrite J2, <- app_assoc, forallb_app, B1, B2.
    repeat split; auto.
    intros k Hk. rewrite K2, K1; auto.
Qed.

Lemma well_formed_objects_below h :
  well_formed h = true -> objects_below (length (objects h)) (objects h).
Proof.
  unfold well_formed. intros H. apply andb_true_iff in H as [H _].
  intros i o _ Ho. rewrite forallb_forall in H. apply H.
  apply list_elem_of_In, list_elem_of_lookup. eauto.
Qed.

Lemma well_formed_jobs_below h :
  well_formed h = true -> forallb (job_below (length (objects h))) (jobs h) = true.
Proof. unfold well_formed. intros H. apply andb_true_iff in H as [_ H]. exact H. Qed.

End Microtasks.

Section ChainSettlement.

(** A promise [d] derived from a pending root by [then(onF, g)] stays
    pending while a function [F] of the root's closure rejects the root
    with [x]; once the jobs that were queued before have run, the root's
    reaction job settles [d] with what [g] makes of [x]. *)
Lemma derived_follows_root h root o onF g F x n :
  well_formed h = true ->
  objects h !! root = Some o -> kind o = Abortable ->
  state (body o) = Pending ->
  state (F (body o)) = Rejected x ->
  let d := length (objects h) in
  let h1 := snd (then_ root onF (HFunction <$> g) h) in
  let h2 := with_body root F h1 in
  let fuel := length (jobs h) + length (reactions o) + S n in
  fst (then_ root onF (HFunction <$> g) h) = d
  /\ state_of root h2 = Some (Rejected x)
  /\ objects h2 !! d =
     Some (mkObject (fst (construct (Some (IsFunction capability_executor)) None))
                    Abortable [] false (abort_prop o) (reject_prop o))
  /\ jobs h2 =
     (jobs h ++ map (fun r => ReactionJob r (Rejected x)) (reactions o))
     ++ [ReactionJob (mkReaction d onF (HFunction <$> g)) (Rejected x)]
  /\ state_of d (run_microtasks fuel h2) = Some (settled_by (rejection_outcome g x))
  /\ state_of root (run_microtasks fuel h2) = Some (Rejected x).
Proof.
  intros Hwf Ho Hk Hs HF d h1 h2 fuel.
  assert (Hlt : root < length (objects h)) by (eapply lookup_lt_Some; eauto).
  destruct (then_abortable root onF (HFunction <$> g) h o Ho Hk)
    as (h1' & E & Hlen & Hd & Hi & Hother1 & Hjobs).
  subst fuel h2 h1 d. rewrite E. cbn [fst snd].
  set (d := length (objects h)) in *.
  rewrite Hs in Hi, Hjobs. rewrite app_nil_r in Hjobs.
  destruct (with_body_spec root F h1' _ Hi) as (Hroot & Hother & Hlen2 & Hjobs2).
  cbn [body set_handled set_reactions reactions] in Hroot, Hjobs2.
  rewrite HF in Hroot, Hjobs2. rewrite Hjobs, map_app, app_assoc in Hjobs2.
  cbn [map] in Hjobs2.
  set (h2 := with_body root F h1') in *.
  assert (Hd2 : objects h2 !! d = Some
            (mkObject (fst (construct (Some (IsFunction capability_executor)) None))
                      Abortable [] false (abort_prop o) (reject_prop o))).
  { rewrite Hother; [exact Hd | subst d; lia]. }
  assert (Hroot_state : state_of root h2 = Some (Rejected x)).
  { unfold state_of. rewrite Hroot. cbn. rewrite HF. reflexivity. }
  split; [reflexivity|]. split; [exact Hroot_state|]. split; [exact Hd2|].
  split; [exact Hjobs2|].
  split; [|apply run_microtasks_settled; [exact Hroot_state | discriminate]].
  (* the jobs queued before ours are below [d] *)
  set (J := jobs h ++ map (fun r => ReactionJob r (Rejected x)) (reactions o)) in *.
  assert (HJ : forallb (job_below d) J = true).
  { subst J. rewrite forallb_app. apply andb_true_iff.
    split; [exact (well_formed_jobs_below _ Hwf)|].
    pose proof (well_formed_objects_below _ Hwf root o Hlt Ho) as Hro.
    rewrite forallb_forall in *. intros jb Hin.
    apply in_map_iff in Hin as (r & <- & Hr). cbn. auto. }
  assert (Hb : objects_below d (objects h2)).
  { intros i oi Hi' Hlook. destruct (Nat.eq_dec i root) as [->|Hne].
    - rewrite Hroot in Hlook. injection Hlook as <-. reflexivity.
    - rewrite Hother, Hother1 in Hlook by (auto; subst d; lia).
      eapply (well_formed_objects_below _ Hwf); eauto. }
  assert (HlenJ : length J = length (jobs h) + length (reactions o)).
  { subst J. rewrite length_app, length_map. reflexivity. }
  rewrite <- HlenJ, run_microtasks_add.
  destruct (run_microtasks_prefix d J h2 _ Hjobs2 HJ Hb) as (new & J3 & _ & _ & K3).
  set (h3 := run_microtasks (length J) h2) in *.
  cbn [run_microtasks]. rewrite J3. cbn [app].
  set (g2 := mkHeap (objects h3) new).
  assert (Hg2d : objects g2 !! d = Some
            (mkObject (fst (construct (Some (IsFunction capability_executor)) None))
                      Abortable [] false (abort_prop o) (reject_prop o))).
  { cbn [g2 objects]. rewrite K3 by lia. exact Hd2. }
  assert (Hrun : exists G,
             run_job (ReactionJob (mkReaction d onF (HFunction <$> g)) (Rejected x)) g2
             = with_body d G g2
             /\ state (G (fst (construct (Some (IsFunction capability_executor)) None)))
                = settled_by (rejection_outcome g x)).
  { unfold run_job. cbn [onRejected capability].
    destruct g as [f|]; cbn [fmap option_fmap option_map call_handler rejection_outcome].
    - unfold settle_capability. rewrite Hg2d. cbn [fmap option_fmap option_map kind].
      destruct (f x) as [v|e].
      + exists (resolve v). split; [reflexivity|]. rewrite resolve_state. reflexivity.
      + exists (reject e). split; [reflexivity|]. rewrite reject_state. reflexivity.
    - unfold settle_capability. rewrite Hg2d. cbn [fmap option_fmap option_map kind].
      exists (reject x). split; [reflexivity|]. rewrite reject_state. reflexivity. }
  destruct Hrun as (G & -> & HG).
  destruct (with_body_spec d G g2 _ Hg2d) as (Hd3 & _).
  cbn [body] in Hd3.
  apply run_microtasks_settled; [|destruct (rejection_outcome g x); discriminate].
  unfold state_of. rewrite Hd3, <- HG.
  destruct (state (G _)) eqn:SG;
    cbn [fmap option_fmap option_map set_body set_reactions body];
    rewrite SG; reflexivity.
Qed.

End ChainSettlement.

Section ControlIsStable.

Lemma keeps_control_refl h : keeps_control h h.
Proof. intros j oj Hj. exists oj. split; [exact Hj | apply same_control_refl]. Qed.

Lemma keeps_control_trans h1 h2 h3 :
  keeps_control h1 h2 -> keeps_control h2 h3 -> keeps_control h1 h3.
Proof.
  intros H12 H23 j oj Hj.
  destruct (H12 j oj Hj) as (o2 & Hj2 & S2).
  destruct (H23 j o2 Hj2) as (o3 & Hj3 & S3).
  exists o3. split; [exact Hj3 | eapply same_control_trans; eauto].
Qed.

Lemma with_body_keeps_control i F h : keeps_control h (with_body i F h).
Proof.
  intros j oj Hj. destruct (Nat.eq_dec j i) as [->|Hne].
  - destruct (with_body_spec i F h oj Hj) as (Hi & _).
    eexists. split; [exact Hi|]. destruct (state (F (body oj))); repeat split.
  - destruct (with_body_any i F h) as (Hother & _).
    exists oj. rewrite Hother by exact Hne. split; [exact Hj | apply same_control_refl].
Qed.

Lemma settle_capability_keeps_control d out h :
  keeps_control h (settle_capability d out h).
Proof.
  unfold settle_capability.
  destruct (kind <$> objects h !! d) as [[|]|], out;
    auto using with_body_keeps_control, keeps_control_refl.
Qed.

Lemma method_abort_keeps_control i r h : keeps_control h (method_abort i r h).
Proof.
  unfold method_abort. destruct (objects h !! i) as [o|]; [|apply keeps_control_refl].
  destruct (abort_prop o); [apply with_body_keeps_control | apply keeps_control_refl].
Qed.

Lemma method_reject_keeps_control i r h : keeps_control h (method_reject i r h).
Proof.
  unfold method_reject. destruct (objects h !! i) as [o|]; [|apply keeps_control_refl].
  destruct (reject_prop o); [apply with_body_keeps_control | apply keeps_control_refl].
Qed.

Lemma run_job_keeps_control jb h : keeps_control h (run_job jb h).
Proof.
  destruct jb as [r st]. unfold run_job.
  assert (Hcall : forall hd x, keeps_control h (snd (call_handler hd x h))).
  { intros [f|owner] x; cbn; [apply keeps_control_refl|].
    apply with_body_keeps_control. }
  destruct st as [|v|e].
  - apply settle_capability_keeps_control.
  - destruct (onFulfilled r) as [hd|]; [|apply settle_capability_keeps_control].
    specialize (Hcall hd v). destruct (call_handler hd v h) as [out h1].
    eapply keeps_control_trans; [exact Hcall | apply settle_capability_keeps_control].
  - destruct (onRejected r) as [hd|]; [|apply settle_capability_keeps_control].
    specialize (Hcall hd e). destruct (call_handler hd e h) as [out h1].
    eapply keeps_control_trans; [exact Hcall | apply settle_capability_keeps_control].
Qed.

Lemma run_microtasks_keeps_control n : forall h, keeps_control h (run_microtasks n h).
Proof.
  induction n as [|n IH]; intros h; cbn; [apply keeps_control_refl|].
  destruct (jobs h) as [|jb js]; [apply keeps_control_refl|].
  eapply keeps_control_trans; [|apply IH].
  apply (run_job_keeps_control jb (mkHeap (objects h) js)).
Qed.

Lemma then_keeps_control i onF onR h : keeps_control h (snd (then_ i onF onR h)).
Proof.
  destruct (objects h !! i) as [o|] eqn:Ho.
  - destruct (then_spec i onF onR h o Ho) as (h1 & cap & E & _ & _ & _ & _ & Hi & Hother & _).
    rewrite E. cbn [snd]. intros j oj Hj.
    destruct (Nat.eq_dec j i) as [->|Hne].
    + rewrite Ho in Hj. injection Hj as <-.
      eexists. split; [exact Hi|]. destruct (state (body o)); repeat split.
    + exists oj. split; [|apply same_control_refl].
      rewrite Hother; auto. apply lookup_lt_Some in Hj. lia.
  - unfold then_, super_then. rewrite Ho. cbn. apply keeps_control_refl.
Qed.

Lemma derive_keeps_control op i h : keeps_control h (snd (derive op i h)).
Proof.
  destruct op as [onF onR|onR|f]; cbn [derive].
  - apply then_keeps_control.
  - apply then_keeps_control.
  - unfold finally_.
    pose proof (then_keeps_control i (thenFinally <$> f) (catchFinally <$> f) h) as Hk.
    destruct (objects h !! i) as [o|] eqn:Ho.
    + destruct (then_spec i (thenFinally <$> f) (catchFinally <$> f) h o Ho)
        as (h1 & cap & E & _ & _ & _ & _ & Hi & _).
      rewrite E in *. cbn [snd] in Hk.
      destruct (kind <$> objects h1 !! i) as [[|]|]; cbn [snd]; auto.
      unfold reassignProps. rewrite Hi. cbn [snd].
      intros j oj Hj. destruct (Hk j oj Hj) as (oj' & Hj' & Hs).
      exists oj'. split; [|exact Hs]. cbn [objects].
      rewrite list_lookup_alter_ne; auto. apply lookup_lt_Some in Hj. lia.
    + unfold then_, super_then in *. rewrite Ho in *. cbn in *. rewrite Ho. cbn.
      apply keeps_control_refl.
Qed.

Lemma new_AbortablePromise_keeps_control a opts h :
  keeps_control h (snd (new_AbortablePromise a opts h)).
Proof.
  destruct (new_AbortablePromise_spec a opts h) as (h0 & _ & _ & Hold & _ & ->).
  assert (H0 : keeps_control h h0).
  { intros j oj Hj. exists oj. split; [|apply same_control_refl].
    rewrite Hold; auto. eapply lookup_lt_Some; eauto. }
  destruct (snd (construct a opts)) as [inner|]; cbn [snd]; [|exact H0].
  eapply keeps_control_trans; [exact H0 | apply then_keeps_control].
Qed.

Lemma heap_step_keeps_control s h : keeps_control h (heap_step s h).
Proof.
  destruct s; cbn [heap_step].
  - apply new_AbortablePromise_keeps_control.
  - apply derive_keeps_control.
  - apply method_abort_keeps_control.
  - apply method_reject_keeps_control.
  - apply method_abort_keeps_control.
  - apply with_body_keeps_control.
  - apply with_body_keeps_control.
  - apply with_body_keeps_control.
  - apply settle_capability_keeps_control.
  - apply run_microtasks_keeps_control.
Qed.

(** Whatever happens to the heap, a descendant of an AbortablePromise
    holds the closures its origin held. *)
Lemma descends_same_control h0 root o h d :
  objects h0 !! root = Some o -> kind o = Abortable ->
  descends h0 root h d ->
  exists oroot od,
    objects h !! root = Some oroot /\ same_control o oroot
    /\ objects h !! d = Some od /\ same_control o od.
Proof.
  intros Ho Hk Hd. induction Hd as [|h d s Hd IH|h d op Hd IH].
  - exists o, o. repeat split; auto.
  - destruct IH as (oroot & od & Hroot & Sroot & Hod & Sod).
    destruct (heap_step_keeps_control s h root oroot Hroot) as (oroot' & Hroot' & Sroot').
    destruct (heap_step_keeps_control s h d od Hod) as (od' & Hod' & Sod').
    exists oroot', od'.
    split; [exact Hroot'|]. split; [exact (same_control_trans _ _ _ Sroot Sroot')|].
    split; [exact Hod' | exact (same_control_trans _ _ _ Sod Sod')].
  - destruct IH as (oroot & od & Hroot & Sroot & Hod & Sod).
    assert (Hkd : kind od = Abortable) by (destruct Sod as (-> & _); exact Hk).
    destruct (derive_spec op d h od Hod Hkd) as (h' & o' & E & Hnew & Snew & Hother).
    rewrite E. cbn [fst snd].
    destruct (Hother root oroot Hroot) as (oroot' & Hroot' & Sroot').
    exists oroot', o'.
    split; [exact Hroot'|]. split; [exact (same_control_trans _ _ _ Sroot Sroot')|].
    split; [exact Hnew | exact (same_control_trans _ _ _ Sod Snew)].
Qed.

Lemma derive_all_descends h0 root ops : forall h i,
  descends h0 root h i ->
  descends h0 root (snd (derive_all ops i h)) (fst (derive_all ops i h)).
Proof.
  induction ops as [|op ops IH]; intros h i Hd; cbn [derive_all]; [exact Hd|].
  pose proof (descends_derive _ _ _ _ op Hd) as Hd'.
  destruct (derive op i h) as [d h']. cbn [fst snd] in Hd'. apply IH, Hd'.
Qed.

End ControlIsStable.

(** * Claims about chains *)

Section ChainClaims.

Lemma method_abort_call d r h o :
  objects h !! d = Some o ->
  method_abort d r h =
  match abort_prop o with Some owner => call_abort owner r h | None => h end.
Proof. intros H. unfold method_abort. rewrite H. reflexivity. Qed.

Lemma method_reject_call d r h o :
  objects h !! d = Some o ->
  method_reject d r h =
  match reject_prop o with Some owner => call_reject owner r h | None => h end.
Proof. intros H. unfold method_reject. rewrite H. reflexivity. Qed.

(** C1.  A promise derived from an AbortablePromise by [then], [catch]
    and [finally], to any depth and whatever else happens to the heap in
    between, holds in [abort] and [reject] the closures its origin holds,
    so calling [abort], [reject] or [cancel] on the derived promise is
    calling them on the origin; when the origin holds its own closures
    the call runs in the origin's closure and leaves the derived object
    as it is.  In particular, for a pending root made
    with the default [rejectOnAbort]: [chained = root.then(f)] followed
    by [chained.abort(r)], as with [r = "stop"], is the root's [abort]:
    it rejects the root with [r], leaves [chained] pending with its own
    signal untouched, and once the jobs queued before it have run, the
    root's reaction job rejects [chained] with [r]. *)
Theorem chained_control_is_root_control h root o :
  objects h !! root = Some o ->
  kind o = Abortable ->
  (forall g d,
      descends h root g d ->
      exists od,
        objects g !! d = Some od
        /\ abort_prop od = abort_prop o
        /\ reject_prop od = reject_prop o
        /\ (forall r, method_abort d r g = method_abort root r g)
        /\ (forall r, method_reject d r g = method_reject root r g)
        /\ method_cancel d g = method_cancel root g)
  /\ (forall ops, exists d h' o',
      derive_all ops root h = (d, h')
      /\ descends h root h' d
      /\ objects h' !! d = Some o'
      /\ (ops <> [] -> abort_prop o = Some root -> forall r,
            method_abort d r h' = call_abort root r h'
            /\ objects (method_abort d r h') !! d = Some o')
      /\ (ops <> [] -> reject_prop o = Some root -> forall r,
            method_reject d r h' = call_reject root r h'
            /\ objects (method_reject d r h') !! d = Some o'))
  /\ (forall a opts f r n,
      well_formed h = true ->
      abort_prop o = Some root ->
      effective_rejectOnAbort a opts = true ->
      reachable a opts (body o) ->
      state (body o) = Pending ->
      let chained := fst (then_ root (Some (HFunction f)) None h) in
      let h1 := snd (then_ root (Some (HFunction f)) None h) in
      let h2 := method_abort chained r h1 in
      let fuel := length (jobs h) + length (reactions o) + S n in
      h2 = call_abort root r h1
      /\ state_of root h2 = Some (Rejected (stored_reason r))
      /\ state_of chained h2 = Some Pending
      /\ signal_reason_of chained h2 = Some None
      /\ state_of chained (run_microtasks fuel h2) = Some (Rejected (stored_reason r))
      /\ state_of root (run_microtasks fuel h2) = Some (Rejected (stored_reason r))).
Proof.
  intros Ho Hk. split; [|split].
  - intros g d Hdesc.
    destruct (descends_same_control h root o g d Ho Hk Hdesc)
      as (oroot & od & Hroot & (_ & Ha' & Hr') & Hd & (_ & Ha & Hr)).
    exists od. split; [exact Hd|]. split; [exact Ha|]. split; [exact Hr|].
    assert (HA : forall r, method_abort d r g = method_abort root r g).
    { intros r.
      rewrite (method_abort_call _ _ _ _ Hd), (method_abort_call _ _ _ _ Hroot).
      rewrite Ha, Ha'. reflexivity. }
    split; [exact HA|]. split; [|apply HA].
    intros r. rewrite (method_reject_call _ _ _ _ Hd), (method_reject_call _ _ _ _ Hroot).
    rewrite Hr, Hr'. reflexivity.
  - intros ops.
    destruct (derive_all_spec ops root h o Ho Hk) as (d & h' & o' & E & Hd & Hs & Hother).
    destruct (Hother root o Ho) as (oroot & Hroot & Hsroot).
    destruct Hs as (_ & Ha & Hr).
    assert (Hlt : root < length (objects h)) by (eapply lookup_lt_Some; eauto).
    exists d, h', o'.
    split; [exact E|].
    split.
    { pose proof (derive_all_descends h root ops h root (descends_root h root)) as Hdesc.
      rewrite E in Hdesc. exact Hdesc. }
    split; [exact Hd|]. split.
    + intros Hne Hown r.
      pose proof (derive_all_fresh ops root h o d h' Ho Hk E Hne) as Hfresh.
      rewrite (method_abort_call _ _ _ _ Hd), Ha, Hown.
      split; [reflexivity|].
      unfold call_abort. rewrite (with_body_other _ _ _ _ d Hroot) by lia. exact Hd.
    + intros Hne Hown r.
      pose proof (derive_all_fresh ops root h o d h' Ho Hk E Hne) as Hfresh.
      rewrite (method_reject_call _ _ _ _ Hd), Hr, Hown.
      split; [reflexivity|].
      unfold call_reject. rewrite (with_body_other _ _ _ _ d Hroot) by lia. exact Hd.
  - intros a opts f r n Hwf Hown Hroa Hreach Hs chained h1 h2 fuel.
    assert (HF : state (abort r (body o)) = Rejected (stored_reason r)).
    { pose proof (rejecting_reachable _ _ _ Hroa Hreach) as Hinv.
      unfold rejecting_invariant in Hinv. rewrite abort_state.
      destruct (signal_reason (body o)); [congruence|].
      destruct Hinv as [-> ->]. reflexivity. }
    destruct (derived_follows_root h root o (Some (HFunction f)) None
                (abort r) (stored_reason r) n Hwf Ho Hk Hs HF)
      as (Hc & Hroot & Hd & _ & Hrun & Hrun').
    cbn [fmap option_fmap option_map] in *.
    destruct (then_abortable root (Some (HFunction f)) None h o Ho Hk)
      as (h1' & E & _ & Hd1 & _).
    assert (Hm : h2 = with_body root (abort r) h1).
    { subst h2 h1 chained. rewrite E. cbn [fst snd].
      rewrite (method_abort_call _ _ _ _ Hd1). cbn [abort_prop]. rewrite Hown.
      reflexivity. }
    subst fuel chained. rewrite Hc, Hm.
    split; [reflexivity|]. repeat split; auto.
    + unfold state_of. subst h1. rewrite Hd. reflexivity.
    + unfold signal_reason_of. subst h1. rewrite Hd. reflexivity.
Qed.

Lemma chained_control_is_root_control_witness :
  let h := snd (new_AbortablePromise (Some (IsFunction (Return RUndefined))) None
                                     empty_heap) in
  let o := mkObject (fst (construct (Some (IsFunction (Return RUndefined))) None))
                    Abortable [] false (Some 0) (Some 0) in
  let f := fun v => match v with VNum k => Returns (VNum (k + 1)) | _ => Returns v end in
  let ops := [OpThen (Some (HFunction f)) None; OpFinally None; OpCatch None] in
  objects h !! 0 = Some o
  /\ kind o = Abortable
  /\ props_of (fst (derive_all ops 0 h)) (snd (derive_all ops 0 h))
     = Some (Some 0, Some 0)
  /\ state_of 1 (run_microtasks 1
                   (method_abort 1 (VStr "stop")
                      (snd (then_ 0 (Some (HFunction f)) None h))))
     = Some (Rejected (VStr "stop")).
Proof.
  intros h o f ops.
  destruct (chained_control_is_root_control h 0 o eq_refl eq_refl) as (HA & HB & HC).
  split; [reflexivity|]. split; [reflexivity|]. split.
  - destruct (HB ops) as (d & h' & o' & E & Hdesc & Hd & _).
    destruct (HA h' d Hdesc) as (od & Hd' & Ha & Hr & _).
    rewrite E. cbn [fst snd]. unfold props_of. rewrite Hd'. cbn.
    rewrite Ha, Hr. reflexivity.
  - assert (Hreach : reachable (Some (IsFunction (Return RUndefined))) None (body o))
      by (exists []; reflexivity).
    destruct (HC (Some (IsFunction (Return RUndefined))) None f (VStr "stop") 0
                eq_refl eq_refl eq_refl Hreach eq_refl)
      as (_ & _ & _ & _ & H & _).
    exact H.
Defined.

(** C10.  [reject(r)] called on a promise derived from a root by any
    chain of [then], [catch] and [finally], whatever else happened to the
    heap in between, is the root's [reject]: it runs in the root's
    closure and leaves the derived object as it is.
    For [chained = root.catch(g)] on a pending root: the root is rejected
    with [r], [chained] stays pending and none of its own functions is
    called; once the jobs queued before it have run, the root's reaction
    job passes [r] to [g], and [chained] is fulfilled with the value [g]
    returns (rejected with what [g] throws, or with [r] when there is no
    handler). *)
Theorem reject_on_derived_rejects_root h root o :
  objects h !! root = Some o ->
  kind o = Abortable ->
  reject_prop o = Some root ->
  (forall g d r,
      descends h root g d ->
      method_reject d r g = call_reject root r g
      /\ (d <> root -> objects (method_reject d r g) !! d = objects g !! d))
  /\ (forall ops,
      ops <> [] ->
      descends h root (snd (derive_all ops root h)) (fst (derive_all ops root h))
      /\ fst (derive_all ops root h) <> root)
  /\ (forall g r n,
      well_formed h = true ->
      state (body o) = Pending ->
      let chained := fst (catch_ root (HFunction <$> g) h) in
      let h1 := snd (catch_ root (HFunction <$> g) h) in
      let h2 := method_reject chained r h1 in
      let fuel := length (jobs h) + length (reactions o) + S n in
      h2 = call_reject root r h1
      /\ state_of root h2 = Some (Rejected r)
      /\ state_of chained h2 = Some Pending
      /\ log_of chained h2 = log_of chained h1
      /\ state_of chained (run_microtasks fuel h2)
         = Some (settled_by (rejection_outcome g r))
      /\ (forall f v, g = Some f -> f r = Returns v ->
            state_of chained (run_microtasks fuel h2) = Some (Fulfilled v))).
Proof.
  intros Ho Hk Hown. split; [|split].
  - intros g d r Hdesc.
    destruct (descends_same_control h root o g d Ho Hk Hdesc)
      as (oroot & od & Hroot & _ & Hd & (_ & _ & Hr)).
    rewrite (method_reject_call _ _ _ _ Hd), Hr, Hown.
    split; [reflexivity|].
    intros Hne. unfold call_reject. apply (with_body_other _ _ _ _ d Hroot Hne).
  - intros ops Hne.
    split; [apply derive_all_descends, descends_root|].
    assert (Hlt : root < length (objects h)) by (eapply lookup_lt_Some; eauto).
    destruct (derive_all ops root h) as [d h'] eqn:E. cbn [fst].
    pose proof (derive_all_fresh ops root h o d h' Ho Hk E Hne). lia.
  - intros g r n Hwf Hs chained h1 h2 fuel.
    assert (HF : state (reject r (body o)) = Rejected r).
    { rewrite reject_state, Hs. reflexivity. }
    destruct (derived_follows_root h root o None g (reject r) r n Hwf Ho Hk Hs HF)
      as (Hc & Hroot & Hd & _ & Hrun & _).
    destruct (then_abortable root None (HFunction <$> g) h o Ho Hk)
      as (h1' & E & _ & Hd1 & _).
    assert (Hm : h2 = with_body root (reject r) h1).
    { subst h2 h1 chained. unfold catch_. rewrite E. cbn [fst snd].
      rewrite (method_reject_call _ _ _ _ Hd1). cbn [reject_prop]. rewrite Hown.
      reflexivity. }
    unfold catch_ in chained, h1. subst fuel chained. rewrite Hc, Hm. subst h1.
    split; [reflexivity|]. split; [exact Hroot|].
    split; [unfold state_of; rewrite Hd; reflexivity|].
    split; [unfold log_of; rewrite Hd, E; cbn [snd]; rewrite Hd1; reflexivity|].
    split; [exact Hrun|].
    intros f v Hg Hf. rewrite Hrun, Hg. cbn. rewrite Hf. reflexivity.
Qed.

Lemma reject_on_derived_rejects_root_witness :
  let h := snd (new_AbortablePromise (Some (IsFunction (Return RUndefined))) None
                                     empty_heap) in
  let o := mkObject (fst (construct (Some (IsFunction (Return RUndefined))) None))
                    Abortable [] false (Some 0) (Some 0) in
  let g := Some (fun _ : Value => Returns (VStr "recovered")) in
  objects h !! 0 = Some o
  /\ kind o = Abortable
  /\ reject_prop o = Some 0
  /\ well_formed h = true
  /\ state (body o) = Pending
  /\ state_of 0 (method_reject 1 (VStr "r") (snd (catch_ 0 (HFunction <$> g) h)))
     = Some (Rejected (VStr "r"))
  /\ state_of 1 (run_microtasks 1
                   (method_reject 1 (VStr "r") (snd (catch_ 0 (HFunction <$> g) h))))
     = Some (Fulfilled (VStr "recovered")).
Proof.
  intros h o g.
  destruct (reject_on_derived_rejects_root h 0 o eq_refl eq_refl eq_refl) as (_ & _ & H).
  destruct (H g (VStr "r") 0 eq_refl eq_refl) as (_ & H1 & _ & _ & H2 & _).
  do 5 (split; [reflexivity|]).
  split; [exact H1 | exact H2].
Defined.

End ChainClaims.

Section WorkFaults.

Lemma construct_thrown e opts p0 p1 x :
  setup (options_of (Some (IsFunction e)) opts) = inr p0 ->
  run_executor e (emit EvExecutor p0) = (p1, Thrown x) ->
  construct (Some (IsFunction e)) opts = (reject x p1, None).
Proof. intros Hs Hr. unfold construct. rewrite Hs. cbn [executor_of]. rewrite Hr. reflexivity. Qed.

Lemma construct_returned_promise e opts p0 p1 inner :
  setup (options_of (Some (IsFunction e)) opts) = inr p0 ->
  run_executor e (emit EvExecutor p0) = (p1, Normal (RPromise inner)) ->
  construct (Some (IsFunction e)) opts = (p1, Some inner).
Proof. intros Hs Hr. unfold construct. rewrite Hs. cbn [executor_of]. rewrite Hr. reflexivity. Qed.

(** C9.  A fault of the work function becomes the rejection of the
    promise.  If the work function throws [x] (the promise still
    pending), the constructor catches it and calls [reject(x)]: the
    promise is rejected with [x].  If it returns a Promise instance, the
    constructor attaches [reject] to it as its rejection handler: the
    returned promise is marked handled, and when it is rejected with [x],
    once the jobs queued before have run, the reaction job rejects the
    promise with [x], while the promise derived by that [catch] is
    fulfilled. *)
Theorem work_fault_rejects h e opts p0 p1 :
  setup (options_of (Some (IsFunction e)) opts) = inr p0 ->
  state p1 = Pending ->
  let root := length (objects h) in
  let h' := snd (new_AbortablePromise (Some (IsFunction e)) opts h) in
  (forall x,
      run_executor e (emit EvExecutor p0) = (p1, Thrown x) ->
      fst (new_AbortablePromise (Some (IsFunction e)) opts h) = root
      /\ body <$> objects h' !! root = Some (reject x p1)
      /\ state_of root h' = Some (Rejected x))
  /\ (forall inner oi F x n,
      run_executor e (emit EvExecutor p0) = (p1, Normal (RPromise inner)) ->
      well_formed h = true ->
      objects h !! inner = Some oi ->
      state (body oi) = Pending ->
      state (F (body oi)) = Rejected x ->
      let fuel := length (jobs h) + length (reactions oi) + S n in
      (exists oi',
          objects h' !! inner = Some oi' /\ handled oi' = true
          /\ reactions oi'
             = reactions oi ++ [mkReaction (S root) None (Some (HReject root))])
      /\ state_of root h' = Some Pending
      /\ state_of root (run_microtasks fuel (with_body inner F h')) = Some (Rejected x)
      /\ state_of (S root) (run_microtasks fuel (with_body inner F h'))
         = Some (Fulfilled VUndefined)).
Proof.
  intros Hsetup Hp1 root h'. split.
  - intros x Hrun. subst h'.
    destruct (new_AbortablePromise_spec (Some (IsFunction e)) opts h)
      as (h0 & Hroot & _ & _ & _ & ->).
    rewrite (construct_thrown _ _ _ _ _ Hsetup Hrun) in *. cbn [fst snd] in *.
    fold root in Hroot. split; [reflexivity|].
    unfold state_of. rewrite Hroot. cbn. rewrite reject_state, Hp1. auto.
  - intros inner oi F x n Hrun Hwf Hinner Hoi HF fuel. subst fuel h'.
    assert (Hlt : inner < root) by (eapply lookup_lt_Some; eauto).
    destruct (new_AbortablePromise_spec (Some (IsFunction e)) opts h)
      as (h0 & Hroot & Hlen0 & Hold & Hjobs0 & ->).
    rewrite (construct_returned_promise _ _ _ _ _ Hsetup Hrun) in *. cbn [fst snd] in *.
    subst root. set (root := length (objects h)) in *.
    assert (Hinner0 : objects h0 !! inner = Some oi) by (rewrite Hold; auto).
    unfold catch_.
    destruct (then_spec inner None (Some (HReject root)) h0 oi Hinner0)
      as (h1 & cap & E & Hcap & Hkcap & Hscap & Hrcap & Hi1 & Hother1 & Hjobs1).
    rewrite Hlen0 in *. rewrite E. cbn [snd].
    rewrite Hoi in Hi1. rewrite Hoi, Hjobs0, app_nil_r in Hjobs1.
    set (ours := mkReaction (S root) None (Some (HReject root))) in *.
    assert (Hroot1 : objects h1 !! root
                     = Some (mkObject p1 Abortable [] false (Some root) (Some root))).
    { rewrite Hother1 by lia. exact Hroot. }
    split; [eexists; split; [exact Hi1|]; split; reflexivity|].
    split; [unfold state_of; rewrite Hroot1; cbn; rewrite Hp1; reflexivity|].
    destruct (with_body_spec inner F h1 _ Hi1) as (Hinner2 & Hother2 & _ & Hjobs2).
    cbn [body set_handled set_reactions reactions] in Hinner2, Hjobs2.
    rewrite HF in Hinner2, Hjobs2. rewrite Hjobs1, map_app, app_assoc in Hjobs2.
    cbn [map] in Hjobs2.
    set (h2 := with_body inner F h1) in *.
    set (J := jobs h ++ map (fun r => ReactionJob r (Rejected x)) (reactions oi)) in *.
    assert (HJ : forallb (job_below root) J = true).
    { subst J. rewrite forallb_app. apply andb_true_iff.
      split; [exact (well_formed_jobs_below _ Hwf)|].
      pose proof (well_formed_objects_below _ Hwf inner oi Hlt Hinner) as Hro.
      rewrite forallb_forall in *. intros jb Hin.
      apply in_map_iff in Hin as (r & <- & Hr). cbn. auto. }
    assert (Hb : objects_below root (objects h2)).
    { intros i o Hi' Hlook. destruct (Nat.eq_dec i inner) as [->|Hne].
      - rewrite Hinner2 in Hlook. injection Hlook as <-. reflexivity.
      - rewrite Hother2, Hother1, Hold in Hlook by (auto; lia).
        eapply (well_formed_objects_below _ Hwf); eauto. }
    assert (HlenJ : length J = length (jobs h) + length (reactions oi)).
    { subst J. rewrite length_app, length_map. reflexivity. }
    rewrite <- HlenJ, run_microtasks_add.
    destruct (run_microtasks_prefix root J h2 _ Hjobs2 HJ Hb) as (new & J3 & _ & _ & K3).
    set (h3 := run_microtasks (length J) h2) in *.
    cbn [run_microtasks]. rewrite J3. cbn [app].
    set (g := mkHeap (objects h3) new).
    assert (Hrootg : objects g !! root
                     = Some (mkObject p1 Abortable [] false (Some root) (Some root))).
    { cbn [g objects]. rewrite K3, Hother2 by lia. exact Hroot1. }
    assert (Hcapg : objects g !! S root = Some cap).
    { cbn [g objects]. rewrite K3, Hother2 by lia. exact Hcap. }
    unfold run_job. cbn [onRejected capability call_handler ours].
    unfold call_reject.
    destruct (with_body_spec root (reject x) g _ Hrootg) as (Hroot3 & Hother3 & _).
    cbn [body] in Hroot3.
    assert (Hrej : state (reject x p1) = Rejected x) by (rewrite reject_state, Hp1; auto).
    rewrite Hrej in Hroot3.
    set (g1 := with_body root (reject x) g) in *.
    assert (Hcap1 : objects g1 !! S root = Some cap) by (rewrite Hother3 by lia; exact Hcapg).
    assert (Hsettle : exists G,
               settle_capability (S root) (Returns VUndefined) g1 = with_body (S root) G g1
               /\ state (G (body cap)) = Fulfilled VUndefined).
    { unfold settle_capability. rewrite Hcap1. cbn [fmap option_fmap option_map].
      destruct (kind cap).
      - exists (res VUndefined). split; [reflexivity|].
        destruct (res_frame VUndefined (body cap)) as (_ & _ & _ & _ & _ & _ & _ & ->).
        rewrite Hscap. reflexivity.
      - exists (resolve VUndefined). split; [reflexivity|].
        rewrite resolve_state, Hscap. reflexivity. }
    destruct Hsettle as (G & -> & HG).
    destruct (with_body_spec (S root) G g1 _ Hcap1) as (Hcap4 & Hother4 & _).
    rewrite HG in Hcap4.
    split; (apply run_microtasks_settled; [|discriminate]); unfold state_of.
    + rewrite Hother4, Hroot3 by lia. cbn. rewrite Hrej. reflexivity.
    + rewrite Hcap4. cbn. rewrite HG. reflexivity.
Qed.

Lemma work_fault_rejects_witness :
  let e := CallOnAborted 3 (Throw (VStr "boom")) in
  let p0 := fst (construct None None) in
  let p1 := fst (run_executor e (emit EvExecutor p0)) in
  let h := mkHeap [mkObject fresh Native [] false None None] [] in
  let e2 := Return (RPromise 0) in
  setup (options_of (Some (IsFunction e)) None) = inr p0
  /\ state p1 = Pending
  /\ state_of 0 (snd (new_AbortablePromise (Some (IsFunction e)) None empty_heap))
     = Some (Rejected (VStr "boom"))
  /\ state_of 1 (run_microtasks 1
                   (with_body 0 (rej (VStr "late"))
                      (snd (new_AbortablePromise (Some (IsFunction e2)) None h))))
     = Some (Rejected (VStr "late")).
Proof.
  intros e p0 p1 h e2.
  destruct (work_fault_rejects empty_heap e None p0 p1 eq_refl eq_refl) as [H _].
  destruct (H (VStr "boom") eq_refl) as (_ & _ & H3).
  destruct (work_fault_rejects h e2 None p0 (emit EvExecutor p0) eq_refl eq_refl)
    as [_ H'].
  destruct (H' 0 (mkObject fresh Native [] false None None) (rej (VStr "late"))
               (VStr "late") 0 eq_refl eq_refl eq_refl eq_refl eq_refl)
    as (_ & _ & H4 & _).
  split; [reflexivity | split; [reflexivity | split; [exact H3 | exact H4]]].
Defined.

End WorkFaults.

Import Readings.

(** * Further properties of one promise *)

Section Notification.

Lemma call_listener_events l p :
  log (call_listener l p) = log p ++ listener_events (abortReason p) l.
Proof.
  destruct l; cbn.
  - destruct (rej_frame (abortReason p) p) as (_ & _ & _ & _ & _ & _ & -> & _).
    reflexivity.
  - reflexivity.
  - unfold isResolved, resolved.
    destruct (isPromiseResolveResult (abortReason p)); cbn;
      rewrite ?app_nil_r; reflexivity.
Qed.

Lemma dispatch_to_events ls : forall p,
  log (dispatch_to ls p) = log p ++ dispatch_events (abortReason p) ls.
Proof.
  induction ls as [|l ls IH]; intros p.
  - cbn. rewrite app_nil_r. reflexivity.
  - rewrite dispatch_to_cons, IH, abortReason_call_listener, call_listener_events.
    cbn. rewrite <- app_assoc. reflexivity.
Qed.

Lemma abort_events r p :
  signal_reason p = None ->
  log (abort r p) =
  log p ++ EvControllerAbort r :: dispatch_events (stored_reason r) (signal_listeners p).
Proof.
  intros Hp. rewrite (abort_first _ _ Hp), dispatch_to_events. cbn.
  rewrite <- app_assoc. reflexivity.
Qed.

Lemma listener_calls_app tag l1 l2 :
  listener_calls tag (l1 ++ l2) = listener_calls tag l1 + listener_calls tag l2.
Proof. unfold listener_calls. rewrite List.filter_app, length_app. reflexivity. Qed.

Lemma listener_calls_cleanups tag cs : listener_calls tag (map EvCleanup cs) = 0.
Proof. induction cs as [|c cs IH]; [reflexivity | exact IH]. Qed.

Lemma dispatch_events_In reason ls id l e :
  In (id, l) ls -> In e (listener_events reason l) -> In e (dispatch_events reason ls).
Proof.
  intros Hl He. unfold dispatch_events. apply in_flat_map.
  exists (id, l). split; [exact Hl | exact He].
Qed.

Lemma dispatch_events_untagged reason tag ls :
  isPromiseResolveResult reason = false ->
  (forall id, ~ In (id, LUser tag) ls) ->
  listener_calls tag (dispatch_events reason ls) = 0.
Proof.
  intros Hr. induction ls as [|[id l] ls IH]; intros Hn; [reflexivity|].
  cbn [dispatch_events flat_map]. rewrite listener_calls_app.
  fold (dispatch_events reason ls). rewrite IH.
  2:{ intros id' Hin. apply (Hn id'). right. exact Hin. }
  destruct l as [|t|t]; cbn.
  - reflexivity.
  - destruct (Nat.eqb t tag) eqn:E; [|reflexivity].
    apply Nat.eqb_eq in E. subst t. exfalso. apply (Hn id). left. reflexivity.
  - rewrite Hr. reflexivity.
Qed.

Lemma resolve_events v p :
  signal_reason p = None ->
  log (resolve v p) =
  log p ++ EvRes v :: EvControllerAbort (withResolved v)
        :: dispatch_events (withResolved v) (signal_listeners p)
        ++ map EvCleanup (cleanupFns p).
Proof.
  intros Hp. rewrite resolve_unfold.
  destruct (run_cleanups_frame (cleanupFns p) (abort (withResolved v) (res v p)))
    as (_ & _ & _ & _ & ->).
  destruct (res_frame v p) as (Hs & Hl & _ & _ & _ & _ & Hlog & _).
  rewrite abort_events by (rewrite Hs; exact Hp).
  rewrite Hl, Hlog. cbn. rewrite <- !app_assoc. reflexivity.
Qed.

Lemma reject_events r p :
  signal_reason p = None ->
  log (reject r p) =
  log p ++ EvRej r :: EvControllerAbort r
        :: dispatch_events (stored_reason r) (signal_listeners p)
        ++ map EvCleanup (cleanupFns p).
Proof.
  intros Hp. rewrite reject_unfold.
  destruct (run_cleanups_frame (cleanupFns p) (abort r (rej r p)))
    as (_ & _ & _ & _ & ->).
  destruct (rej_frame r p) as (Hs & Hl & _ & _ & _ & _ & Hlog & _).
  rewrite abort_events by (rewrite Hs; exact Hp).
  rewrite Hl, Hlog. cbn. rewrite <- !app_assoc. reflexivity.
Qed.

(** X1.  The first [abort(r)] on a signal calls the controller once and
    then every listener attached at that moment, once each and in the
    order of registration, with the reason the signal stores; a second
    [abort] calls nothing. *)
Theorem abort_notifies_in_order p r :
  signal_reason p = None ->
  log (abort r p) =
    log p ++ EvControllerAbort r :: dispatch_events (stored_reason r) (signal_listeners p)
  /\ abortReason (abort r p) = stored_reason r
  /\ forall r', abort r' (abort r p) = abort r p.
Proof.
  intros Hp. split; [apply abort_events, Hp|].
  pose proof (abort_signal_reason r p) as Hs. rewrite Hp in Hs.
  split.
  - unfold abortReason. rewrite Hs. reflexivity.
  - intros r'. exact (abort_aborted _ _ _ Hs).
Qed.

Lemma abort_notifies_in_order_witness :
  let p := fst (construct
                  (Some (IsFunction
                           (CallOnAborted 1 (CallOnResolved 2
                              (CallOnAborted 3 (Return RUndefined))))))
                  None) in
  signal_reason p = None
  /\ log (abort (VStr "stop") p) =
     [EvExecutor; EvControllerAbort (VStr "stop"); EvRej (VStr "stop");
      EvListener 1 (VStr "stop"); EvListener 3 (VStr "stop")]
  /\ abort (VStr "again") (abort (VStr "stop") p) = abort (VStr "stop") p.
Proof.
  intros p.
  destruct (abort_notifies_in_order p (VStr "stop") eq_refl) as (H1 & _ & H3).
  split; [reflexivity | split; [exact H1 | exact (H3 (VStr "again"))]].
Defined.

(** X2.  Fulfilment is announced as an abort: when the enhanced
    [resolve(v)] is called on a signal that is not aborted, every
    listener registered with [onAborted] is called with the tagged value
    [withResolved(v)] as its reason and every listener registered with
    [onResolved] is called with [v]; the detaching closures of
    [cleanupFns] run only after them. *)
Theorem fulfilment_notifies_listeners p v :
  signal_reason p = None ->
  log (resolve v p) =
    log p ++ EvRes v :: EvControllerAbort (withResolved v)
          :: dispatch_events (withResolved v) (signal_listeners p)
          ++ map EvCleanup (cleanupFns p)
  /\ (forall id tag, In (id, LUser tag) (signal_listeners p) ->
        In (EvListener tag (withResolved v)) (log (resolve v p)))
  /\ (forall id tag, In (id, LOnResolved tag) (signal_listeners p) ->
        In (EvListener tag v) (log (resolve v p)))
  /\ isResolved (resolve v p) = true
  /\ resolved (resolve v p) = v.
Proof.
  intros Hp. pose proof (resolve_events v p Hp) as Hlog.
  pose proof (resolve_signal_reason v p) as Hs. rewrite Hp in Hs.
  split; [exact Hlog|].
  split; [|split; [|split]].
  - intros id tag Hin. rewrite Hlog.
    apply in_or_app. right. right. right. apply in_or_app. left.
    apply (dispatch_events_In _ _ id (LUser tag)); [exact Hin | left; reflexivity].
  - intros id tag Hin. rewrite Hlog.
    apply in_or_app. right. right. right. apply in_or_app. left.
    apply (dispatch_events_In _ _ id (LOnResolved tag)); [exact Hin | left; reflexivity].
  - unfold isResolved, abortReason. rewrite Hs. reflexivity.
  - unfold resolved, abortReason. rewrite Hs. reflexivity.
Qed.

Lemma fulfilment_notifies_listeners_witness :
  let p := fst (construct
                  (Some (IsFunction
                           (CallOnAborted 1 (CallOnResolved 2 (Return RUndefined)))))
                  None) in
  signal_reason p = None
  /\ log (resolve (VNum 5) p) =
     [EvExecutor; EvRes (VNum 5); EvControllerAbort (VResolved (VNum 5));
      EvRej (VResolved (VNum 5)); EvListener 1 (VResolved (VNum 5));
      EvListener 2 (VNum 5);
      EvCleanup (CRemoveListener 0); EvCleanup (CRemoveListener 1);
      EvCleanup (CRemoveListener 2)]
  /\ resolved (resolve (VNum 5) p) = VNum 5.
Proof.
  intros p.
  destruct (fulfilment_notifies_listeners p (VNum 5) eq_refl) as (H1 & _ & _ & _ & H5).
  split; [reflexivity | split; [exact H1 | exact H5]].
Defined.

(** X3.  A listener registered with [onResolved] is not called when the
    signal is aborted for any other reason: an [abort], a [reject], a
    timeout or an outer abort whose reason is not a tagged value leaves
    the number of its calls as it was (no [onAborted] listener shares its
    tag), and afterwards [isResolved()] is false and [resolved()] is
    [undefined]. *)
Theorem onResolved_listener_only_on_fulfilment p tag r :
  signal_reason p = None ->
  isPromiseResolveResult (stored_reason r) = false ->
  (forall id, ~ In (id, LUser tag) (signal_listeners p)) ->
  listener_calls tag (log (abort r p)) = listener_calls tag (log p)
  /\ listener_calls tag (log (reject r p)) = listener_calls tag (log p)
  /\ isResolved (abort r p) = false
  /\ resolved (abort r p) = VUndefined
  /\ isResolved (reject r p) = false
  /\ resolved (reject r p) = VUndefined.
Proof.
  intros Hp Hr Hn.
  pose proof (dispatch_events_untagged _ tag _ Hr Hn) as Hd.
  pose proof (abort_signal_reason r p) as Hs. rewrite Hp in Hs.
  pose proof (reject_signal_reason r p) as Hs'. rewrite Hp in Hs'.
  split; [|split; [|split; [|split; [|split]]]].
  - rewrite (abort_events _ _ Hp), listener_calls_app.
    change (EvControllerAbort r :: ?l) with ([EvControllerAbort r] ++ l).
    rewrite (listener_calls_app tag [EvControllerAbort r]), Hd. cbn. lia.
  - rewrite (reject_events _ _ Hp), listener_calls_app.
    change (listener_calls tag (EvRej r :: EvControllerAbort r :: ?l))
      with (listener_calls tag l).
    rewrite listener_calls_app, Hd, listener_calls_cleanups. lia.
  - unfold isResolved, abortReason. rewrite Hs. exact Hr.
  - unfold resolved, abortReason. rewrite Hs, Hr. reflexivity.
  - unfold isResolved, abortReason. rewrite Hs'. exact Hr.
  - unfold resolved, abortReason. rewrite Hs', Hr. reflexivity.
Qed.

Lemma onResolved_listener_only_on_fulfilment_witness :
  let p := fst (construct
                  (Some (IsFunction
                           (CallOnAborted 1 (CallOnResolved 2 (Return RUndefined)))))
                  None) in
  signal_reason p = None
  /\ listener_calls 2 (log (abort VCancelledError p)) = 0
  /\ listener_calls 2 (log (reject VCancelledError p)) = 0
  /\ listener_calls 2 (log (resolve (VNum 5) p)) = 1.
Proof.
  intros p.
  assert (Hn : forall id, ~ In (id, LUser 2) (signal_listeners p)).
  { intros id [H|[H|[H|[]]]]; discriminate H. }
  destruct (onResolved_listener_only_on_fulfilment p 2 VCancelledError
              eq_refl eq_refl Hn) as (H1 & H2 & _).
  split; [reflexivity | split; [exact H1 | split; [exact H2 | vm_compute; reflexivity]]].
Defined.

End Notification.

Section Detaching.

Lemma detaches_refl p : detaches p p.
Proof. unfold detaches. auto. Qed.

Lemma detaches_trans p q r : detaches p q -> detaches q r -> detaches p r.
Proof.
  intros (H1 & H2 & H3 & H4) (G1 & G2 & G3 & G4).
  unfold detaches. rewrite G1, H1. auto 6.
Qed.

Lemma detaches_frame p q :
  cleanupFns q = cleanupFns p -> signal_listeners q = signal_listeners p ->
  bridge q = bridge p -> timer q = timer p -> detaches p q.
Proof.
  intros H1 H2 H3 H4. unfold detaches. rewrite H1, H2, H3, H4. auto.
Qed.

Lemma registered_detaches p q :
  cleanups_registered p -> detaches p q -> cleanups_registered q.
Proof.
  intros (H1 & H2 & H3) (G1 & G2 & G3 & G4).
  unfold cleanups_registered. rewrite G1.
  split; [|split].
  - intros id l Hin. exact (H1 id l (G2 _ Hin)).
  - intros Hb. exact (H2 (G3 Hb)).
  - intros d Hd. exact (H3 d (G4 d Hd)).
Qed.

Lemma detaches_abort r p : detaches p (abort r p).
Proof.
  destruct (abort_frame r p) as (H1 & H2 & _ & H3 & H4).
  apply detaches_frame; assumption.
Qed.

Lemma detaches_res v p : detaches p (res v p).
Proof.
  destruct (res_frame v p) as (_ & H1 & H2 & _ & H3 & H4 & _).
  apply detaches_frame; assumption.
Qed.

Lemma detaches_rej r p : detaches p (rej r p).
Proof.
  destruct (rej_frame r p) as (_ & H1 & H2 & _ & H3 & H4 & _).
  apply detaches_frame; assumption.
Qed.

Lemma signal_listeners_run_cleanup c p :
  signal_listeners (run_cleanup c p) =
  match c with
  | CRemoveListener id =>
      List.filter (fun e => negb (Nat.eqb (fst e) id)) (signal_listeners p)
  | _ => signal_listeners p
  end.
Proof. destruct c; cbn; try reflexivity. destruct (timer p); reflexivity. Qed.

Lemma bridge_run_cleanup c p :
  bridge (run_cleanup c p) =
  match c with
  | CRemoveBridge => false
  | _ => bridge p
  end.
Proof. destruct c; cbn; try reflexivity. destruct (timer p); reflexivity. Qed.

Lemma detaches_run_cleanup c p : detaches p (run_cleanup c p).
Proof.
  destruct (run_cleanup_frame c p) as (_ & _ & H1 & _).
  unfold detaches. rewrite H1, signal_listeners_run_cleanup, bridge_run_cleanup,
    timer_run_cleanup.
  split; [reflexivity|]. split; [|split].
  - intros x. destruct c; auto. intros Hin. apply filter_In in Hin. tauto.
  - destruct c; auto. discriminate.
  - intros d. destruct c; auto. destruct (timer p); auto. discriminate.
Qed.

Lemma detaches_run_cleanups cs : forall p, detaches p (run_cleanups cs p).
Proof.
  induction cs as [|c cs IH]; intros p; cbn.
  - apply detaches_refl.
  - exact (detaches_trans _ _ _ (detaches_run_cleanup c p) (IH _)).
Qed.

Lemma detaches_resolve v p : detaches p (resolve v p).
Proof.
  rewrite resolve_unfold.
  exact (detaches_trans _ _ _ (detaches_res v p)
           (detaches_trans _ _ _ (detaches_abort _ _) (detaches_run_cleanups _ _))).
Qed.

Lemma detaches_reject r p : detaches p (reject r p).
Proof.
  rewrite reject_unfold.
  exact (detaches_trans _ _ _ (detaches_rej r p)
           (detaches_trans _ _ _ (detaches_abort _ _) (detaches_run_cleanups _ _))).
Qed.

Lemma registered_onAborted l p :
  cleanups_registered p -> cleanups_registered (fst (onAborted l p)).
Proof.
  intros (H1 & H2 & H3).
  destruct (onAborted_frame l p) as (_ & _ & Hl & Hc & Hb & Ht & _).
  unfold cleanups_registered. rewrite Hl, Hc, Hb, Ht.
  split; [|split].
  - intros id l' Hin. apply in_app_or in Hin. apply in_or_app.
    destruct Hin as [Hin|[Hin|[]]].
    + left. exact (H1 _ _ Hin).
    + right. left. congruence.
  - intros Hb'. apply in_or_app. left. exact (H2 Hb').
  - intros d Hd. apply in_or_app. left. exact (H3 d Hd).
Qed.

Lemma registered_run_executor e : forall p,
  cleanups_registered p -> cleanups_registered (fst (run_executor e p)).
Proof.
  induction e as [r|x|v k IH|r k IH|tag k IH|tag k IH|k IH|k IH|k IH|k IH|k IH];
    intros p Hp; cbn [run_executor].
  - exact Hp.
  - exact Hp.
  - apply IH. exact (registered_detaches _ _ Hp (detaches_resolve v p)).
  - apply IH. exact (registered_detaches _ _ Hp (detaches_reject r p)).
  - apply IH, registered_onAborted, Hp.
  - apply IH, registered_onAborted, Hp.
  - apply IH. exact Hp.
  - apply IH, Hp.
  - apply IH. exact Hp.
  - apply IH, Hp.
  - destruct (isAborted p); [exact Hp | apply IH, Hp].
Qed.

Lemma registered_step s p :
  cleanups_registered p -> cleanups_registered (step s p).
Proof.
  intros Hp. destruct s; cbn.
  - exact (registered_detaches _ _ Hp (detaches_abort _ _)).
  - exact (registered_detaches _ _ Hp (detaches_reject _ _)).
  - exact (registered_detaches _ _ Hp (detaches_abort _ _)).
  - unfold timeout_fires. destruct (timer p) as [|d|d|d] eqn:E; auto.
    apply (registered_detaches (set_timer (Fired d) p)); [|apply detaches_abort].
    destruct Hp as (H1 & H2 & H3). split; [exact H1 | split; [exact H2|]].
    cbn. discriminate.
  - unfold abortSignal_aborts. destruct (bridge p); auto.
    exact (registered_detaches _ _ Hp (detaches_abort _ _)).
  - apply registered_run_executor, Hp.
Qed.

Lemma registered_run steps : forall p,
  cleanups_registered p -> cleanups_registered (run steps p).
Proof.
  induction steps as [|s steps IH]; intros p Hp; cbn; [exact Hp|].
  apply IH, registered_step, Hp.
Qed.

Lemma registered_fresh : cleanups_registered fresh.
Proof. split; [|split]; cbn; [tauto | discriminate | discriminate]. Qed.

Lemma registered_setup o :
  match setup o with
  | inl p | inr p => cleanups_registered p
  end.
Proof.
  unfold setup.
  assert (Htimer : forall p, cleanups_registered p ->
            match
              match timeout o with
              | Some d =>
                  if truthy d
                  then inr (set_cleanupFns (cleanupFns p ++ [CClearTimeout])
                              (set_timer (Armed d) (emit (EvSetTimeout d) p)))
                  else inr p
              | None => @inr AbortablePromise _ p
              end
            with
            | inl q | inr q => cleanups_registered q
            end).
  { intros p (H1 & H2 & H3).
    destruct (timeout o) as [d|]; [destruct (truthy d)|];
      try (split; [exact H1 | split; [exact H2 | exact H3]]).
    split; [|split]; cbn.
    - intros id l Hin. apply in_or_app. left. exact (H1 _ _ Hin).
    - intros Hb. apply in_or_app. left. exact (H2 Hb).
    - intros _ _. apply in_or_app. right. left. reflexivity. }
  assert (Hrej : forall p, cleanups_registered p ->
            cleanups_registered
              (if default true (rejectOnAbort o) then fst (onAborted LRej p) else p)).
  { intros p Hp. destruct (default true (rejectOnAbort o)); [|exact Hp].
    apply registered_onAborted, Hp. }
  destruct (abortSignal o) as [[[] rs]|]; cbn [aborted reason].
  - destruct (default true (rejectOnAbort o)) eqn:E.
    + exact (registered_detaches _ _ registered_fresh (detaches_reject _ _)).
    + apply Htimer.
      exact (registered_detaches _ _ registered_fresh (detaches_abort _ _)).
  - apply Htimer, Hrej.
    split; [|split]; cbn; [tauto | auto | discriminate].
  - apply Htimer, Hrej, registered_fresh.
Qed.

Lemma registered_construct a o : cleanups_registered (fst (construct a o)).
Proof.
  unfold construct.
  pose proof (registered_setup (options_of a o)) as Hs.
  destruct (setup (options_of a o)) as [p|p]; [exact Hs|].
  destruct (executor_of a) as [e|]; [|exact Hs].
  pose proof (registered_run_executor e (emit EvExecutor p) Hs) as He.
  destruct (run_executor e (emit EvExecutor p)) as [q [[| |]|x]]; cbn in *; auto.
  exact (registered_detaches _ _ He (detaches_reject _ _)).
Qed.

Lemma registered_reachable a o p : reachable a o p -> cleanups_registered p.
Proof. intros [steps ->]. apply registered_run, registered_construct. Qed.

Lemma removes_cons c cs id :
  removes (c :: cs) id = cleanup_eqb (CRemoveListener id) c || removes cs id.
Proof. reflexivity. Qed.

Lemma filter_filter {A} (f g : A -> bool) (l : list A) :
  List.filter f (List.filter g l) = List.filter (fun x => g x && f x) l.
Proof.
  induction l as [|x l IH]; [reflexivity|]. cbn.
  destruct (g x); cbn; [destruct (f x)|]; rewrite ?IH; reflexivity.
Qed.

Lemma signal_listeners_run_cleanups cs : forall q,
  signal_listeners (run_cleanups cs q) =
  List.filter (fun e => negb (removes cs (fst e))) (signal_listeners q).
Proof.
  induction cs as [|c cs IH]; intros q.
  - cbn. induction (signal_listeners q) as [|x l IHl]; [reflexivity|].
    cbn. rewrite <- IHl. reflexivity.
  - change (run_cleanups (c :: cs) q) with (run_cleanups cs (run_cleanup c q)).
    rewrite IH, signal_listeners_run_cleanup.
    destruct c as [id| |].
    + rewrite filter_filter. apply List.filter_ext. intros e.
      rewrite removes_cons. cbn [cleanup_eqb]. rewrite negb_orb. reflexivity.
    + reflexivity.
    + reflexivity.
Qed.

Lemma removes_In cs id : In (CRemoveListener id) cs -> removes cs id = true.
Proof.
  intros Hin. unfold removes. apply existsb_exists.
  exists (CRemoveListener id). split; [exact Hin|]. cbn. apply Nat.eqb_refl.
Qed.

Lemma filter_nil {A} (f : A -> bool) (l : list A) :
  (forall x, In x l -> f x = false) -> List.filter f l = [].
Proof.
  induction l as [|x l IH]; intros H; [reflexivity|]. cbn.
  rewrite (H x) by (left; reflexivity). apply IH. intros y Hy. apply H. right. exact Hy.
Qed.

Lemma bridge_run_cleanups cs : forall q,
  bridge q = false \/ In CRemoveBridge cs -> bridge (run_cleanups cs q) = false.
Proof.
  induction cs as [|c cs IH]; intros q H.
  - destruct H as [H|[]]. exact H.
  - change (run_cleanups (c :: cs) q) with (run_cleanups cs (run_cleanup c q)).
    apply IH. rewrite bridge_run_cleanup.
    destruct H as [H|[H|H]]; subst; auto; destruct c; auto.
Qed.

Lemma timer_run_cleanups_not_armed cs : forall q,
  (forall d, timer q = Armed d -> In CClearTimeout cs) ->
  forall d, timer (run_cleanups cs q) <> Armed d.
Proof.
  intros q H d Hd.
  destruct (timer q) as [|d'|d'|d'] eqn:E.
  - pose proof (timer_delay_run_cleanups cs q) as Ht. rewrite E, Hd in Ht. discriminate.
  - rewrite (timer_run_cleanups_armed cs d' q E (H d' eq_refl)) in Hd. discriminate.
  - assert (Hk : forall cs q, timer q = Fired d' -> timer (run_cleanups cs q) = Fired d').
    { clear. induction cs as [|c cs IH]; intros q Hq; [exact Hq|].
      change (run_cleanups (c :: cs) q) with (run_cleanups cs (run_cleanup c q)).
      apply IH. rewrite timer_run_cleanup, Hq. destruct c; reflexivity. }
    rewrite (Hk cs q E) in Hd. discriminate.
  - rewrite (timer_run_cleanups_cleared cs d' q E) in Hd. discriminate.
Qed.

Lemma run_cleanupFns_detaches q :
  cleanups_registered q ->
  signal_listeners (run_cleanupFns q) = []
  /\ bridge (run_cleanupFns q) = false
  /\ forall d, timer (run_cleanupFns q) <> Armed d.
Proof.
  intros (H1 & H2 & H3). unfold run_cleanupFns.
  split; [|split].
  - rewrite signal_listeners_run_cleanups. apply filter_nil.
    intros [id l] Hin. cbn. rewrite (removes_In _ _ (H1 _ _ Hin)). reflexivity.
  - apply bridge_run_cleanups. destruct (bridge q); auto.
  - apply timer_run_cleanups_not_armed. exact H3.
Qed.

Lemma detached_is_deaf q :
  bridge q = false -> (forall d, timer q <> Armed d) ->
  (forall r, abortSignal_aborts r q = q) /\ timeout_fires q = q.
Proof.
  intros Hb Ht. split.
  - intros r. unfold abortSignal_aborts. rewrite Hb. reflexivity.
  - unfold timeout_fires. destruct (timer q) as [|d|d|d] eqn:E; try reflexivity.
    destruct (Ht d eq_refl).
Qed.

(** X4.  When the enhanced [resolve] or [reject] returns, nothing is left
    attached: the private signal has no listener, the listener on the
    outer [abortSignal] is removed and the timer is not armed.  A later
    abort of the outer signal or a late timer tick then leaves the
    promise exactly as it is. *)
Theorem settlement_detaches_everything a o p :
  reachable a o p ->
  (forall v,
      signal_listeners (resolve v p) = []
      /\ bridge (resolve v p) = false
      /\ (forall d, timer (resolve v p) <> Armed d)
      /\ (forall r, abortSignal_aborts r (resolve v p) = resolve v p)
      /\ timeout_fires (resolve v p) = resolve v p)
  /\ (forall x,
      signal_listeners (reject x p) = []
      /\ bridge (reject x p) = false
      /\ (forall d, timer (reject x p) <> Armed d)
      /\ (forall r, abortSignal_aborts r (reject x p) = reject x p)
      /\ timeout_fires (reject x p) = reject x p).
Proof.
  intros Hr. pose proof (registered_reachable _ _ _ Hr) as Hp.
  split.
  - intros v.
    assert (Hq : cleanups_registered (abort (withResolved v) (res v p))).
    { apply (registered_detaches (res v p)); [|apply detaches_abort].
      exact (registered_detaches _ _ Hp (detaches_res v p)). }
    destruct (run_cleanupFns_detaches _ Hq) as (H1 & H2 & H3).
    change (run_cleanupFns (abort (withResolved v) (res v p))) with (resolve v p) in *.
    destruct (detached_is_deaf _ H2 H3) as (H4 & H5). auto.
  - intros x.
    assert (Hq : cleanups_registered (abort x (rej x p))).
    { apply (registered_detaches (rej x p)); [|apply detaches_abort].
      exact (registered_detaches _ _ Hp (detaches_rej x p)). }
    destruct (run_cleanupFns_detaches _ Hq) as (H1 & H2 & H3).
    change (run_cleanupFns (abort x (rej x p))) with (reject x p) in *.
    destruct (detached_is_deaf _ H2 H3) as (H4 & H5). auto.
Qed.

Lemma settlement_detaches_everything_witness :
  let a := Some (IsFunction (CallOnAborted 1 (CallOnResolved 2 (Return RUndefined)))) in
  let o := Some (mkOptions (Some (mkSignal false VUndefined)) None (Some 50%Z)) in
  let p := fst (construct a o) in
  reachable a o p
  /\ signal_listeners p = [(0, LRej); (1, LUser 1); (2, LOnResolved 2)]
  /\ bridge p = true
  /\ timer p = Armed 50
  /\ signal_listeners (resolve (VNum 5) p) = []
  /\ bridge (resolve (VNum 5) p) = false
  /\ abortSignal_aborts (VStr "late") (resolve (VNum 5) p) = resolve (VNum 5) p.
Proof.
  intros a o p.
  assert (Hr : reachable a o p) by (exists []; cbn [run fold_left]; reflexivity).
  destruct (settlement_detaches_everything a o p Hr) as (H & _).
  destruct (H (VNum 5)) as (H1 & H2 & _ & H4 & _).
  split; [exact Hr|]. do 3 (split; [vm_compute; reflexivity|]).
  split; [exact H1 | split; [exact H2 | exact (H4 (VStr "late"))]].
Defined.

End Detaching.

Section SettlementAndSignal.

Lemma stored_reason_idem r : stored_reason (stored_reason r) = stored_reason r.
Proof. destruct r; reflexivity. Qed.

(** Invariants that only read the settlement and the signal's reason. *)
Variable P : AbortablePromise -> Prop.
Hypothesis P_frame : forall p q,
  state q = state p -> signal_reason q = signal_reason p -> P p -> P q.

Lemma setup_invariant o :
  P fresh -> (forall r, P (reject r fresh)) -> (forall r, P (abort r fresh)) ->
  match setup o with
  | inl p | inr p => P p
  end.
Proof.
  intros Hf Hrej Hab. unfold setup.
  assert (Htimer : forall p, P p ->
            match
              match timeout o with
              | Some d =>
                  if truthy d
                  then inr (set_cleanupFns (cleanupFns p ++ [CClearTimeout])
                              (set_timer (Armed d) (emit (EvSetTimeout d) p)))
                  else inr p
              | None => @inr AbortablePromise _ p
              end
            with
            | inl q | inr q => P q
            end).
  { intros p Hp. destruct (timeout o) as [d|]; [destruct (truthy d)|]; auto.
    apply (P_frame p); auto. }
  assert (Hl : forall p, P p ->
            P (if default true (rejectOnAbort o) then fst (onAborted LRej p) else p)).
  { intros p Hp. destruct (default true (rejectOnAbort o)); [|exact Hp].
    apply (P_frame p); auto. }
  destruct (abortSignal o) as [[[] rs]|]; cbn [aborted reason].
  - destruct (default true (rejectOnAbort o)) eqn:E; [apply Hrej|].
    apply Htimer, Hab.
  - apply Htimer, Hl. apply (P_frame fresh); auto.
  - apply Htimer, Hl, Hf.
Qed.

End SettlementAndSignal.

Section Settled.

Lemma settled_aborted_frame p q :
  state q = state p -> signal_reason q = signal_reason p ->
  settled_is_aborted p -> settled_is_aborted q.
Proof. unfold settled_is_aborted. intros -> ->. auto. Qed.

Lemma settled_aborted_abort r p : settled_is_aborted (abort r p).
Proof.
  unfold settled_is_aborted. rewrite abort_signal_reason.
  destruct (signal_reason p); discriminate.
Qed.

Lemma settled_aborted_resolve v p : settled_is_aborted (resolve v p).
Proof.
  unfold settled_is_aborted. rewrite resolve_signal_reason.
  destruct (signal_reason p); discriminate.
Qed.

Lemma settled_aborted_reject r p : settled_is_aborted (reject r p).
Proof.
  unfold settled_is_aborted. rewrite reject_signal_reason.
  destruct (signal_reason p); discriminate.
Qed.

Lemma settled_aborted_run_executor e : forall p,
  settled_is_aborted p -> settled_is_aborted (fst (run_executor e p)).
Proof.
  induction e as [r|x|v k IH|r k IH|tag k IH|tag k IH|k IH|k IH|k IH|k IH|k IH];
    intros p Hp; cbn [run_executor].
  - exact Hp.
  - exact Hp.
  - apply IH, settled_aborted_resolve.
  - apply IH, settled_aborted_reject.
  - apply IH. exact Hp.
  - apply IH. exact Hp.
  - apply IH. exact Hp.
  - apply IH, Hp.
  - apply IH. exact Hp.
  - apply IH, Hp.
  - destruct (isAborted p); [exact Hp | apply IH, Hp].
Qed.

Lemma settled_aborted_step s p :
  settled_is_aborted p -> settled_is_aborted (step s p).
Proof.
  intros Hp. destruct s; cbn.
  - apply settled_aborted_abort.
  - apply settled_aborted_reject.
  - apply settled_aborted_abort.
  - unfold timeout_fires. destruct (timer p); auto. apply settled_aborted_abort.
  - unfold abortSignal_aborts. destruct (bridge p); auto. apply settled_aborted_abort.
  - apply settled_aborted_run_executor, Hp.
Qed.

Lemma settled_aborted_run steps : forall p,
  settled_is_aborted p -> settled_is_aborted (run steps p).
Proof.
  induction steps as [|s steps IH]; intros p Hp; cbn; [exact Hp|].
  apply IH, settled_aborted_step, Hp.
Qed.

Lemma settled_aborted_construct a o : settled_is_aborted (fst (construct a o)).
Proof.
  unfold construct.
  pose proof (setup_invariant _ settled_aborted_frame (options_of a o)) as Hs.
  assert (Hs' : match setup (options_of a o) with
                | inl p | inr p => settled_is_aborted p
                end).
  { apply Hs.
    - intros H. destruct (H eq_refl).
    - intros r. apply settled_aborted_reject.
    - intros r. apply settled_aborted_abort. }
  clear Hs. destruct (setup (options_of a o)) as [p|p]; [exact Hs'|].
  destruct (executor_of a) as [e|]; [|exact Hs'].
  pose proof (settled_aborted_run_executor e (emit EvExecutor p) Hs') as He.
  destruct (run_executor e (emit EvExecutor p)) as [q [[| |]|x]]; cbn in *; auto.
  apply settled_aborted_reject.
Qed.

Lemma settled_aborted_reachable a o p : reachable a o p -> settled_is_aborted p.
Proof. intros [steps ->]. apply settled_aborted_run, settled_aborted_construct. Qed.

(** *** The reason of a settled promise under [rejectOnAbort] *)

Lemma matches_frame p q :
  state q = state p -> signal_reason q = signal_reason p ->
  settlement_matches_reason p -> settlement_matches_reason q.
Proof. unfold settlement_matches_reason. intros -> ->. auto. Qed.

Lemma matches_abort r p :
  rejecting_invariant p -> settlement_matches_reason p ->
  settlement_matches_reason (abort r p).
Proof.
  unfold rejecting_invariant, settlement_matches_reason.
  rewrite abort_state, abort_signal_reason.
  destruct (signal_reason p) as [x|].
  - destruct (state p); auto.
  - intros [-> ->] _. rewrite stored_reason_idem. reflexivity.
Qed.

Lemma matches_resolve v p :
  rejecting_invariant p -> settlement_matches_reason p ->
  settlement_matches_reason (resolve v p).
Proof.
  unfold rejecting_invariant, settlement_matches_reason.
  rewrite resolve_state, resolve_signal_reason.
  destruct (signal_reason p) as [x|].
  - destruct (state p); auto. intros H. destruct (H eq_refl).
  - intros [-> _] _. reflexivity.
Qed.

Lemma matches_reject r p :
  rejecting_invariant p -> settlement_matches_reason p ->
  settlement_matches_reason (reject r p).
Proof.
  unfold rejecting_invariant, settlement_matches_reason.
  rewrite reject_state, reject_signal_reason.
  destruct (signal_reason p) as [x|].
  - destruct (state p); auto. intros H. destruct (H eq_refl).
  - intros [-> _] _. reflexivity.
Qed.

Lemma matches_run_executor e : forall p,
  rejecting_invariant p -> settlement_matches_reason p ->
  settlement_matches_reason (fst (run_executor e p)).
Proof.
  induction e as [r|x|v k IH|r k IH|tag k IH|tag k IH|k IH|k IH|k IH|k IH|k IH];
    intros p Hr Hp; cbn [run_executor].
  - exact Hp.
  - exact Hp.
  - apply IH; [apply rejecting_resolve | apply matches_resolve; assumption].
  - apply IH; [apply rejecting_reject | apply matches_reject; assumption].
  - apply IH; [apply rejecting_onAborted, Hr | exact Hp].
  - apply IH; [apply rejecting_onAborted, Hr | exact Hp].
  - apply IH; [exact Hr | exact Hp].
  - apply IH; assumption.
  - apply IH; [exact Hr | exact Hp].
  - apply IH; assumption.
  - destruct (isAborted p); [exact Hp | apply IH; assumption].
Qed.

Lemma matches_step s p :
  rejecting_invariant p -> settlement_matches_reason p ->
  settlement_matches_reason (step s p).
Proof.
  intros Hr Hp. destruct s; cbn.
  - apply matches_abort; assumption.
  - apply matches_reject; assumption.
  - apply matches_abort; assumption.
  - unfold timeout_fires. destruct (timer p); auto. apply matches_abort; assumption.
  - unfold abortSignal_aborts. destruct (bridge p); auto. apply matches_abort; assumption.
  - apply matches_run_executor; assumption.
Qed.

Lemma matches_run steps : forall p,
  rejecting_invariant p -> settlement_matches_reason p ->
  settlement_matches_reason (run steps p).
Proof.
  induction steps as [|s steps IH]; intros p Hr Hp; cbn; [exact Hp|].
  apply IH; [apply rejecting_step, Hr | apply matches_step; assumption].
Qed.

Lemma matches_construct a o :
  effective_rejectOnAbort a o = true ->
  settlement_matches_reason (fst (construct a o)).
Proof.
  intros Hr. unfold construct.
  pose proof (rejecting_setup _ Hr) as Hi.
  pose proof (setup_invariant _ matches_frame (options_of a o)) as Hs.
  assert (Hs' : match setup (options_of a o) with
                | inl p | inr p => settlement_matches_reason p
                end).
  { apply Hs.
    - exact I.
    - intros r. reflexivity.
    - intros r. exact I. }
  clear Hs. destruct (setup (options_of a o)) as [p|p]; [exact Hs'|].
  destruct (executor_of a) as [e|]; [|exact Hs'].
  pose proof (matches_run_executor e (emit EvExecutor p) Hi Hs') as He.
  pose proof (rejecting_run_executor e (emit EvExecutor p) Hi) as Hi'.
  destruct (run_executor e (emit EvExecutor p)) as [q [[| |]|x]]; cbn in *; auto.
  apply matches_reject; assumption.
Qed.

Lemma matches_reachable a o p :
  effective_rejectOnAbort a o = true -> reachable a o p ->
  settlement_matches_reason p.
Proof.
  intros Hr [steps ->].
  apply matches_run; [apply rejecting_construct, Hr | apply matches_construct, Hr].
Qed.

(** *** A settled promise stays as it is *)

Lemma abort_settled r p : state p <> Pending -> state (abort r p) = state p.
Proof.
  intros H. rewrite abort_state.
  destruct (signal_reason p), (state p); try reflexivity. destruct (H eq_refl).
Qed.

Lemma run_executor_settled e : forall p,
  state p <> Pending -> state (fst (run_executor e p)) = state p.
Proof.
  induction e as [r|x|v k IH|r k IH|tag k IH|tag k IH|k IH|k IH|k IH|k IH|k IH];
    intros p Hp; cbn [run_executor].
  - reflexivity.
  - reflexivity.
  - assert (E : state (resolve v p) = state p)
      by (rewrite resolve_state; destruct (state p); congruence).
    rewrite IH; rewrite E; auto.
  - assert (E : state (reject r p) = state p)
      by (rewrite reject_state; destruct (state p); congruence).
    rewrite IH; rewrite E; auto.
  - rewrite IH; auto.
  - rewrite IH; auto.
  - rewrite IH; auto.
  - apply IH, Hp.
  - rewrite IH; auto.
  - apply IH, Hp.
  - destruct (isAborted p); [reflexivity | apply IH, Hp].
Qed.

Lemma step_settled s p : state p <> Pending -> state (step s p) = state p.
Proof.
  intros Hp. destruct s; cbn.
  - apply abort_settled, Hp.
  - rewrite reject_state. destruct (state p); congruence.
  - apply abort_settled, Hp.
  - unfold timeout_fires. destruct (timer p) as [|d|d|d]; try reflexivity.
    apply (abort_settled _ (set_timer (Fired d) p)), Hp.
  - unfold abortSignal_aborts. destruct (bridge p); [|reflexivity].
    apply abort_settled, Hp.
  - apply run_executor_settled, Hp.
Qed.

Lemma run_settled steps : forall p,
  state p <> Pending -> state (run steps p) = state p.
Proof.
  induction steps as [|s steps IH]; intros p Hp; cbn; [reflexivity|].
  rewrite IH; rewrite step_settled; auto.
Qed.

(** X5.  Whatever the options and the work function, a settled promise
    always has an aborted signal.  Under [rejectOnAbort] (the default)
    the two agree completely: the promise is pending exactly while the
    signal is not aborted, a promise fulfilled with [v] has the tagged
    value as its abort reason (so [isResolved()] holds and [resolved()]
    is [v]), and a promise rejected with [x] has [x] as its abort reason
    (an [AbortError] for [undefined]). *)
Theorem settlement_aborts_signal a o p :
  reachable a o p ->
  (state p <> Pending -> isAborted p = true)
  /\ (effective_rejectOnAbort a o = true ->
      match state p with
      | Pending => isAborted p = false
      | Fulfilled v =>
          abortReason p = withResolved v /\ isResolved p = true /\ resolved p = v
      | Rejected x => abortReason p = stored_reason x
      end).
Proof.
  intros Hp. split.
  - intros Hs. pose proof (settled_aborted_reachable _ _ _ Hp Hs) as H.
    unfold isAborted. destruct (signal_reason p); [reflexivity | destruct (H eq_refl)].
  - intros Hr.
    pose proof (rejecting_reachable _ _ _ Hr Hp) as Hi.
    pose proof (matches_reachable _ _ _ Hr Hp) as Hm.
    unfold rejecting_invariant in Hi. unfold settlement_matches_reason in Hm.
    unfold isAborted, isResolved, resolved, abortReason.
    destruct (state p) as [|v|x].
    + destruct (signal_reason p); [destruct (Hi eq_refl) | reflexivity].
    + rewrite Hm. cbn. auto.
    + rewrite Hm. reflexivity.
Qed.

Lemma settlement_aborts_signal_witness :
  let a := Some (IsFunction (CallResolve (VNum 5) (Return RUndefined))) in
  let p := fst (construct a None) in
  reachable a None p
  /\ state p = Fulfilled (VNum 5)
  /\ isAborted p = true
  /\ abortReason p = VResolved (VNum 5)
  /\ resolved p = VNum 5.
Proof.
  intros a p.
  assert (Hr : reachable a None p) by (exists []; cbn [run fold_left]; reflexivity).
  destruct (settlement_aborts_signal a None p Hr) as (H1 & H2).
  destruct (H2 eq_refl) as (H3 & _ & H4).
  split; [exact Hr | split; [reflexivity|]].
  split; [apply H1; discriminate | split; [exact H3 | exact H4]].
Defined.

(** X6.  A settled promise is inert: no later call of [abort], [reject]
    or [cancel], no timer tick, no abort of the outer signal and no late
    call by the work function changes its settlement or the reason of its
    signal, and none of them calls a listener. *)
Theorem settled_promise_is_inert a o p steps :
  reachable a o p ->
  state p <> Pending ->
  state (run steps p) = state p
  /\ isAborted (run steps p) = true
  /\ abortReason (run steps p) = abortReason p
  /\ exists evs, log (run steps p) = log p ++ evs /\ no_listener evs = true.
Proof.
  intros Hp Hs.
  pose proof (settled_aborted_reachable _ _ _ Hp Hs) as Ha.
  destruct (signal_reason p) as [x|] eqn:E; [|destruct (Ha eq_refl)].
  destruct (aborted_run steps p x E) as (H1 & H2).
  split; [apply run_settled, Hs|].
  unfold isAborted, abortReason. rewrite H1, E. auto.
Qed.

Lemma settled_promise_is_inert_witness :
  let a := Some (IsFunction (CallOnAborted 1 (CallResolve (VNum 5) (Return RUndefined)))) in
  let o := Some (mkOptions None None (Some 50%Z)) in
  let p := fst (construct a o) in
  let steps := [SAbort (VStr "x"); SReject (VStr "y"); SCancel; STimeout;
                SWork (CallReject (VStr "z") (Return RUndefined))] in
  reachable a o p
  /\ state p = Fulfilled (VNum 5)
  /\ state (run steps p) = Fulfilled (VNum 5)
  /\ abortReason (run steps p) = VResolved (VNum 5).
Proof.
  intros a o p steps.
  assert (Hr : reachable a o p) by (exists []; cbn [run fold_left]; reflexivity).
  assert (Hs : state p <> Pending) by (vm_compute; discriminate).
  destruct (settled_promise_is_inert a o p steps Hr Hs) as (H1 & _ & H3 & _).
  split; [exact Hr | split; [reflexivity | split; [exact H1 | exact H3]]].
Defined.

End Settled.

Section ContextChecks.

Lemma setup_inr_pending o p : setup o = inr p -> state p = Pending.
Proof.
  unfold setup.
  destruct (abortSignal o) as [[[] rs]|], (default true (rejectOnAbort o));
    (destruct (timeout o) as [d|]; [destruct (truthy d)|]);
    cbn; intros [= <-]; reflexivity.
Qed.

Lemma setup_not_aborted o :
  (forall s, abortSignal o = Some s -> aborted s = false) ->
  exists p, setup o = inr p /\ signal_reason p = None.
Proof.
  intros H. unfold setup.
  destruct (abortSignal o) as [[ab rs]|].
  - rewrite (H _ eq_refl). cbn.
    destruct (default true (rejectOnAbort o));
      (destruct (timeout o) as [d|]; [destruct (truthy d)|]);
      eexists; split; reflexivity.
  - destruct (default true (rejectOnAbort o));
      (destruct (timeout o) as [d|]; [destruct (truthy d)|]);
      eexists; split; reflexivity.
Qed.

(** X7.  [throwIfAborted()] in the constructor.  With an [abortSignal]
    that is already aborted and [rejectOnAbort: false], a work function
    that starts with [context.throwIfAborted()] goes no further: the call
    throws the abort reason, the constructor catches it and rejects the
    promise with it.  With a signal that is not aborted the call does
    nothing. *)
Theorem throwIfAborted_stops_work k o s :
  abortSignal o = Some s ->
  aborted s = true ->
  rejectOnAbort o = Some false ->
  let work := Some (IsFunction (CallThrowIfAborted k)) in
  state (fst (construct work (Some o))) = Rejected (stored_reason (reason s))
  /\ abortReason (fst (construct work (Some o))) = stored_reason (reason s)
  /\ construct work (Some o)
     = construct (Some (IsFunction (Throw (stored_reason (reason s))))) (Some o)
  /\ forall o',
      (forall s', abortSignal o' = Some s' -> aborted s' = false) ->
      construct work (Some o') = construct (Some (IsFunction k)) (Some o').
Proof.
  intros Hs Ha Hr work. subst work.
  assert (Hd : default true (rejectOnAbort o) = false) by (rewrite Hr; reflexivity).
  destruct (setup_pre_aborted_silent o s Hs Ha Hd) as (p & Hp & Hsr & _).
  pose proof (setup_inr_pending _ _ Hp) as Hpend.
  assert (Hab : isAborted (emit EvExecutor p) = true)
    by (unfold isAborted; cbn; rewrite Hsr; reflexivity).
  assert (Hre : abortReason (emit EvExecutor p) = stored_reason (reason s))
    by (unfold abortReason; cbn; rewrite Hsr; reflexivity).
  assert (E : construct (Some (IsFunction (CallThrowIfAborted k))) (Some o)
              = (reject (stored_reason (reason s)) (emit EvExecutor p), None)).
  { unfold construct.
    change (options_of (Some (IsFunction (CallThrowIfAborted k))) (Some o)) with o.
    rewrite Hp. cbn [executor_of run_executor]. rewrite Hab, Hre. reflexivity. }
  split; [|split; [|split]].
  - rewrite E. cbn [fst]. rewrite reject_state. cbn. rewrite Hpend. reflexivity.
  - rewrite E. cbn [fst]. unfold abortReason. rewrite reject_signal_reason. cbn.
    rewrite Hsr. reflexivity.
  - rewrite E. unfold construct.
    change (options_of (Some (IsFunction (Throw (stored_reason (reason s))))) (Some o))
      with o.
    rewrite Hp. reflexivity.
  - intros o' Hn. destruct (setup_not_aborted o' Hn) as (q & Hq & Hnone).
    unfold construct.
    change (options_of (Some (IsFunction (CallThrowIfAborted k))) (Some o')) with o'.
    change (options_of (Some (IsFunction k)) (Some o')) with o'.
    rewrite Hq. cbn [executor_of run_executor].
    assert (Hna : isAborted (emit EvExecutor q) = false)
      by (unfold isAborted; cbn; rewrite Hnone; reflexivity).
    rewrite Hna. reflexivity.
Qed.

Lemma throwIfAborted_stops_work_witness :
  let s := mkSignal true (VStr "gone") in
  let o := mkOptions (Some s) (Some false) None in
  let k := CallResolve (VNum 1) (Return RUndefined) in
  abortSignal o = Some s
  /\ aborted s = true
  /\ rejectOnAbort o = Some false
  /\ state (fst (construct (Some (IsFunction (CallThrowIfAborted k))) (Some o)))
     = Rejected (VStr "gone")
  /\ state (fst (construct (Some (IsFunction k)) (Some o))) = Fulfilled (VNum 1).
Proof.
  intros s o k.
  destruct (throwIfAborted_stops_work k o s eq_refl eq_refl eq_refl) as (H1 & _).
  do 3 (split; [reflexivity|]).
  split; [exact H1 | vm_compute; reflexivity].
Defined.

(** X8.  The second constructor argument is read only when the first is a
    function.  [new AbortablePromise(undefined, options)] and
    [new AbortablePromise(options1, options)] ignore [options]: the first
    builds a promise with no timer and no link to [options.abortSignal],
    and it rejects on abort even when [options.rejectOnAbort] is false. *)
Theorem options_need_a_function o o1 :
  construct None (Some o) = construct None None
  /\ construct (Some (IsOptions o1)) (Some o) = construct (Some (IsOptions o1)) None
  /\ timer_started (fst (construct None (Some o))) = false
  /\ bridge (fst (construct None (Some o))) = false
  /\ (forall r, state (abort r (fst (construct None (Some o)))) = Rejected (stored_reason r)).
Proof.
  split; [reflexivity|]. split; [reflexivity|]. split; [reflexivity|].
  split; [reflexivity|]. intros r. reflexivity.
Qed.

End ContextChecks.

Section Ordering.

Lemma first_aborted p : signal_reason p <> None -> rej_listener_first p.
Proof. intros H Hn. destruct (H Hn). Qed.

Lemma first_onAborted l p :
  rej_listener_first p -> rej_listener_first (fst (onAborted l p)).
Proof.
  intros Hp Hn. destruct (Hp Hn) as (rest & E).
  exists (rest ++ [(next_listener p, l)]). cbn. rewrite E. reflexivity.
Qed.

Lemma first_abort r p : rej_listener_first (abort r p).
Proof.
  apply first_aborted. rewrite abort_signal_reason.
  destruct (signal_reason p); discriminate.
Qed.

Lemma first_resolve v p : rej_listener_first (resolve v p).
Proof.
  apply first_aborted. rewrite resolve_signal_reason.
  destruct (signal_reason p); discriminate.
Qed.

Lemma first_reject r p : rej_listener_first (reject r p).
Proof.
  apply first_aborted. rewrite reject_signal_reason.
  destruct (signal_reason p); discriminate.
Qed.

Lemma first_run_executor e : forall p,
  rej_listener_first p -> rej_listener_first (fst (run_executor e p)).
Proof.
  induction e as [r|x|v k IH|r k IH|tag k IH|tag k IH|k IH|k IH|k IH|k IH|k IH];
    intros p Hp; cbn [run_executor].
  - exact Hp.
  - exact Hp.
  - apply IH, first_resolve.
  - apply IH, first_reject.
  - apply IH, first_onAborted, Hp.
  - apply IH, first_onAborted, Hp.
  - apply IH. exact Hp.
  - apply IH, Hp.
  - apply IH. exact Hp.
  - apply IH, Hp.
  - destruct (isAborted p); [exact Hp | apply IH, Hp].
Qed.

Lemma first_step s p : rej_listener_first p -> rej_listener_first (step s p).
Proof.
  intros Hp. destruct s; cbn.
  - apply first_abort.
  - apply first_reject.
  - apply first_abort.
  - unfold timeout_fires. destruct (timer p); auto. apply first_abort.
  - unfold abortSignal_aborts. destruct (bridge p); auto. apply first_abort.
  - apply first_run_executor, Hp.
Qed.

Lemma first_run steps : forall p,
  rej_listener_first p -> rej_listener_first (run steps p).
Proof.
  induction steps as [|s steps IH]; intros p Hp; cbn; [exact Hp|].
  apply IH, first_step, Hp.
Qed.

Lemma first_setup o :
  default true (rejectOnAbort o) = true ->
  match setup o with
  | inl p | inr p => rej_listener_first p
  end.
Proof.
  intros Hr. unfold setup. rewrite Hr.
  destruct (abortSignal o) as [[[] rs]|]; cbn [aborted reason].
  - apply first_reject.
  - destruct (timeout o) as [d|]; [destruct (truthy d)|];
      intros _; eexists; reflexivity.
  - destruct (timeout o) as [d|]; [destruct (truthy d)|];
      intros _; eexists; reflexivity.
Qed.

Lemma first_construct a o :
  effective_rejectOnAbort a o = true -> rej_listener_first (fst (construct a o)).
Proof.
  intros Hr. unfold construct.
  pose proof (first_setup _ Hr) as Hs.
  destruct (setup (options_of a o)) as [p|p]; [exact Hs|].
  destruct (executor_of a) as [e|]; [|exact Hs].
  pose proof (first_run_executor e (emit EvExecutor p) Hs) as He.
  destruct (run_executor e (emit EvExecutor p)) as [q [[| |]|x]]; cbn in *; auto.
  apply first_reject.
Qed.

(** X9.  Under [rejectOnAbort] the promise is rejected before anybody is
    told: the listener of [onAborted(rej)] was attached by the
    constructor ahead of the work function, so on the first abort the
    controller calls [rej] with the stored reason first and the listeners
    of [onAborted] and [onResolved] after it, in their order of
    registration. *)
Theorem rejection_precedes_listeners a o p r :
  effective_rejectOnAbort a o = true ->
  reachable a o p ->
  isAborted p = false ->
  exists rest,
    signal_listeners p = (0, LRej) :: rest
    /\ log (abort r p) =
       log p ++ EvControllerAbort r :: EvRej (stored_reason r)
             :: dispatch_events (stored_reason r) rest
    /\ state (abort r p) = Rejected (stored_reason r).
Proof.
  intros Hr [steps ->] Ha.
  set (p := run steps (fst (construct a o))) in *.
  assert (Hn : signal_reason p = None).
  { unfold isAborted in Ha. destruct (signal_reason p); [discriminate | reflexivity]. }
  destruct (first_run steps _ (first_construct a o Hr) Hn) as (rest & E).
  fold p in E. exists rest. split; [exact E|]. split.
  - rewrite (abort_events _ _ Hn), E. reflexivity.
  - pose proof (rejecting_run steps _ (rejecting_construct a o Hr)) as Hi.
    fold p in Hi. unfold rejecting_invariant in Hi. rewrite Hn in Hi.
    destruct Hi as (Hs & Hl). rewrite abort_state, Hn, Hs, Hl. reflexivity.
Qed.

Lemma rejection_precedes_listeners_witness :
  let a := Some (IsFunction (CallOnAborted 1 (CallOnAborted 2 (Return RUndefined)))) in
  let p := fst (construct a None) in
  effective_rejectOnAbort a None = true
  /\ reachable a None p
  /\ isAborted p = false
  /\ log (abort VCancelledError p) =
     [EvExecutor; EvControllerAbort VCancelledError; EvRej VCancelledError;
      EvListener 1 VCancelledError; EvListener 2 VCancelledError]
  /\ state (abort VCancelledError p) = Rejected VCancelledError.
Proof.
  intros a p.
  assert (Hr : reachable a None p) by (exists []; cbn [run fold_left]; reflexivity).
  destruct (rejection_precedes_listeners a None p VCancelledError eq_refl Hr eq_refl)
    as (rest & H1 & H2 & H3).
  vm_compute in H1. injection H1 as <-.
  split; [reflexivity | split; [exact Hr | split; [reflexivity|]]].
  split; [exact H2 | exact H3].
Defined.

(** X10.  Fulfilled is not the same as resolved.  If the signal was
    aborted with an ordinary reason while the promise stayed pending
    (possible with [rejectOnAbort: false]) and the work function then
    calls [resolve(v)], the promise is fulfilled with [v], but the abort
    reason stays what it was: [isResolved()] is false, [resolved()] is
    [undefined] and no [onResolved] listener is called. *)
Theorem fulfilled_after_abort_is_not_resolved p x v :
  signal_reason p = Some x ->
  isPromiseResolveResult x = false ->
  state p = Pending ->
  state (resolve v p) = Fulfilled v
  /\ abortReason (resolve v p) = x
  /\ isResolved (resolve v p) = false
  /\ resolved (resolve v p) = VUndefined
  /\ exists evs, log (resolve v p) = log p ++ evs /\ no_listener evs = true.
Proof.
  intros Hx Ht Hs.
  destruct (aborted_resolve v p x Hx) as (H1 & H2).
  split; [rewrite resolve_state, Hs; reflexivity|].
  unfold isResolved, resolved, abortReason. rewrite H1, Ht. auto.
Qed.

Lemma fulfilled_after_abort_is_not_resolved_witness :
  let a := Some (IsFunction (CallOnResolved 1 (Return RUndefined))) in
  let o := Some (mkOptions None (Some false) None) in
  let p := abort (VStr "stop") (fst (construct a o)) in
  signal_reason p = Some (VStr "stop")
  /\ state p = Pending
  /\ state (resolve (VNum 5) p) = Fulfilled (VNum 5)
  /\ isResolved (resolve (VNum 5) p) = false
  /\ listener_calls 1 (log (resolve (VNum 5) p)) = 0.
Proof.
  intros a o p.
  destruct (fulfilled_after_abort_is_not_resolved p (VStr "stop") (VNum 5)
              eq_refl eq_refl eq_refl) as (H1 & _ & H3 & _).
  split; [reflexivity | split; [reflexivity|]].
  split; [exact H1 | split; [exact H3 | vm_compute; reflexivity]].
Defined.

End Ordering.

(** * The static helpers *)

Section Statics.

Lemma fn_result_frame f : forall p q,
  signal_reason q = signal_reason p -> Static.fn_result f q = Static.fn_result f p.
Proof.
  induction f as [v|e|tag k IH|tag k IH|k IH|k IH|k IH|k IH|k IH];
    intros p q H; cbn [Static.fn_result];
    unfold isAborted, isResolved, resolved, abortReason; rewrite ?H; auto.
  destruct (signal_reason p) eqn:E; [reflexivity|].
  apply IH. congruence.
Qed.

(** The call of the async executor: it returns its promise, and the
    promise under construction is rejected exactly if [fn] threw. *)
Lemma async_executor_run a f : forall p,
  snd (run_executor (Static.async_executor a f) p) = Normal (RPromise a)
  /\ match Static.fn_result f p with
     | Returns _ =>
         state (fst (run_executor (Static.async_executor a f) p)) = state p
         /\ signal_reason (fst (run_executor (Static.async_executor a f) p))
            = signal_reason p
     | Throws e =>
         state (fst (run_executor (Static.async_executor a f) p))
         = match state p with Pending => Rejected e | s => s end
     end.
Proof.
  induction f as [v|e|tag k IH|tag k IH|k IH|k IH|k IH|k IH|k IH]; intros p;
    cbn [Static.async_executor Static.fn_result run_executor].
  - cbn. auto.
  - cbn [fst snd]. split; [reflexivity | apply reject_state].
  - destruct (IH (fst (onAborted (LUser tag) p))) as (H1 & H2).
    split; [exact H1|].
    rewrite (fn_result_frame k p (fst (onAborted (LUser tag) p))) in H2 by reflexivity.
    exact H2.
  - destruct (IH (fst (onAborted (LOnResolved tag) p))) as (H1 & H2).
    split; [exact H1|].
    rewrite (fn_result_frame k p (fst (onAborted (LOnResolved tag) p))) in H2
      by reflexivity.
    exact H2.
  - destruct (IH (isAborted p) (emit (EvIsAborted (isAborted p)) p)) as (H1 & H2).
    split; [exact H1|].
    rewrite (fn_result_frame _ p (emit (EvIsAborted (isAborted p)) p)) in H2
      by reflexivity.
    exact H2.
  - apply IH.
  - destruct (IH (abortReason p) (emit (EvAbortReason (abortReason p)) p)) as (H1 & H2).
    split; [exact H1|].
    rewrite (fn_result_frame _ p (emit (EvAbortReason (abortReason p)) p)) in H2
      by reflexivity.
    exact H2.
  - apply IH.
  - destruct (isAborted p) eqn:E.
    + cbn [run_executor fst snd]. split; [reflexivity|].
      rewrite reject_state. reflexivity.
    + destruct (IH (emit (EvIsAborted false) p)) as (H1 & H2).
      split; [exact H1|].
      rewrite (fn_result_frame _ p (emit (EvIsAborted false) p)) in H2 by reflexivity.
      exact H2.
Qed.

Lemma setup_not_early o :
  returns_early o = false -> exists p, setup o = inr p /\ state p = Pending.
Proof.
  unfold returns_early, setup.
  destruct (abortSignal o) as [[[] rs]|], (default true (rejectOnAbort o));
    cbn; try discriminate; intros _;
    (destruct (timeout o) as [d|]; [destruct (truthy d)|]);
    eexists; split; reflexivity.
Qed.

Lemma run_app steps1 steps2 p : run (steps1 ++ steps2) p = run steps2 (run steps1 p).
Proof. unfold run. apply fold_left_app. Qed.

(** X11.  [AbortablePromise.fn(fn, options)], when the constructor does not
    leave early on an aborted [abortSignal].  The function is called at
    once.  If it throws [e], the promise is rejected with [e] when the
    call returns.  If it returns [v], the promise is still pending when
    the call returns: [v] is passed to the enhanced [resolve] only in a
    later microtask, and fulfils the promise if nothing settled it in
    between.  Either way the constructor was handed the promise of the
    async executor (to which it attaches [reject]). *)
Theorem fn_settles_with_result a f o :
  returns_early (default no_options o) = false ->
  exists p0,
    Static.executor_entry o = Some p0
    /\ state p0 = Pending
    /\ snd (Static.fn a f o) = Some a
    /\ match Static.fn_result f p0 with
       | Throws e =>
           state (fst (Static.fn a f o)) = Rejected e
           /\ Static.resumption f o = []
       | Returns v =>
           state (fst (Static.fn a f o)) = Pending
           /\ Static.resumption f o = [SWork (CallResolve v (Return RUndefined))]
           /\ forall steps,
               state (run (steps ++ Static.resumption f o) (fst (Static.fn a f o)))
               = match state (run steps (fst (Static.fn a f o))) with
                 | Pending => Fulfilled v
                 | s => s
                 end
       end.
Proof.
  intros He. destruct (setup_not_early _ He) as (p & Hp & Hs).
  exists (emit EvExecutor p).
  assert (Hentry : Static.executor_entry o = Some (emit EvExecutor p))
    by (unfold Static.executor_entry; rewrite Hp; reflexivity).
  split; [exact Hentry|]. split; [exact Hs|].
  destruct (async_executor_run a f (emit EvExecutor p)) as (H1 & H2).
  assert (E : Static.fn a f o
              = (fst (run_executor (Static.async_executor a f) (emit EvExecutor p)),
                 Some a)).
  { unfold Static.fn, construct.
    change (options_of (Some (IsFunction (Static.async_executor a f))) o)
      with (default no_options o).
    rewrite Hp. cbn [executor_of].
    destruct (run_executor (Static.async_executor a f) (emit EvExecutor p)) as [q c].
    cbn [snd] in H1. subst c. reflexivity. }
  split; [rewrite E; reflexivity|].
  unfold Static.resumption. rewrite Hentry.
  destruct (Static.fn_result f (emit EvExecutor p)) as [v|e].
  - destruct H2 as (H2 & _). rewrite E. cbn [fst].
    split; [rewrite H2; exact Hs|]. split; [reflexivity|].
    intros steps. rewrite run_app. cbn [run fold_left step run_executor fst].
    apply resolve_state.
  - rewrite E. cbn [fst]. split; [|reflexivity].
    rewrite H2. cbn. rewrite Hs. reflexivity.
Qed.

Lemma fn_settles_with_result_witness :
  let f := Static.FnIsAborted (fun b =>
             if b then Static.FnThrow (VStr "late") else Static.FnReturn (VNum 5)) in
  let g := Static.FnOnAborted 1 (Static.FnThrow (VStr "boom")) in
  let o := Some (mkOptions None None (Some 50%Z)) in
  returns_early (default no_options o) = false
  /\ state (fst (Static.fn 0 f o)) = Pending
  /\ state (run (Static.resumption f o) (fst (Static.fn 0 f o))) = Fulfilled (VNum 5)
  /\ state (fst (Static.fn 0 g o)) = Rejected (VStr "boom").
Proof.
  intros f g o.
  destruct (fn_settles_with_result 0 f o eq_refl) as (p0 & H0 & _ & _ & H).
  destruct (fn_settles_with_result 0 g o eq_refl) as (q0 & G0 & _ & _ & G).
  injection H0 as <-. injection G0 as <-.
  destruct H as (H1 & _ & H3). destruct G as (G1 & _).
  split; [reflexivity|]. split; [exact H1|]. split; [exact (H3 []) | exact G1].
Defined.

(** X12.  [AbortablePromise.resolve(value)] is not fulfilled when the call
    returns: it goes through [fn], so the promise is pending and its
    signal is not aborted until the microtask of the [await] has run.
    That microtask fulfils it with [value]; an [abort(r)] made before it
    wins and the promise is rejected with [r]. *)
Theorem static_resolve_is_deferred a value :
  let p := fst (Static.resolve a value) in
  let later := Static.resumption (Static.FnReturn value) None in
  state p = Pending
  /\ isAborted p = false
  /\ snd (Static.resolve a value) = Some a
  /\ later = [SWork (CallResolve value (Return RUndefined))]
  /\ state (run later p) = Fulfilled value
  /\ isResolved (run later p) = true
  /\ resolved (run later p) = value
  /\ forall r,
      state (run (SAbort r :: later) p) = Rejected (stored_reason r)
      /\ abortReason (run (SAbort r :: later) p) = stored_reason r.
Proof.
  cbv zeta. do 7 (split; [reflexivity|]).
  intros r. split; reflexivity.
Qed.

(** X13.  [AbortablePromise.reject(reason)] is rejected with [reason] when
    the call returns; its signal is aborted with the same reason (an
    [AbortError] if [reason] is [undefined]), nothing is left attached to
    it, and no later call changes any of this. *)
Theorem static_reject_is_immediate reason steps :
  let p := fst (Static.reject reason) in
  state p = Rejected reason
  /\ abortReason p = stored_reason reason
  /\ signal_listeners p = []
  /\ snd (Static.reject reason) = None
  /\ state (run steps p) = Rejected reason
  /\ abortReason (run steps p) = stored_reason reason.
Proof.
  intros p.
  assert (Hs : state p = Rejected reason) by reflexivity.
  assert (Hr : signal_reason p = Some (stored_reason reason)) by reflexivity.
  do 4 (split; [reflexivity|]).
  split.
  - rewrite run_settled; [exact Hs | rewrite Hs; discriminate].
  - destruct (aborted_run steps p _ Hr) as (H & _).
    unfold abortReason. rewrite H. reflexivity.
Qed.

End Statics.

(** * Settlement along a chain *)

Section ChainMapping.

(** The reaction job of a derived AbortablePromise [d], once the jobs
    queued before it have run, settles [d] with what the handlers make of
    the settlement [s]. *)
Lemma reaction_job_settles g d J f gR s ap rp n :
  jobs g = J ++ [ReactionJob (mkReaction d (HFunction <$> f) (HFunction <$> gR)) s] ->
  forallb (job_below d) J = true ->
  objects_below d (objects g) ->
  objects g !! d =
    Some (mkObject (fst (construct (Some (IsFunction capability_executor)) None))
                   Abortable [] false ap rp) ->
  s <> Pending ->
  state_of d (run_microtasks (length J + S n) g)
  = Some (settled_by (reaction_outcome f gR s)).
Proof.
  intros Hjobs HJ Hb Hd Hs.
  rewrite run_microtasks_add.
  destruct (run_microtasks_prefix d J g _ Hjobs HJ Hb) as (new & J3 & _ & _ & K3).
  set (h3 := run_microtasks (length J) g) in *.
  cbn [run_microtasks]. rewrite J3. cbn [app].
  set (g2 := mkHeap (objects h3) new).
  assert (Hg2d : objects g2 !! d = Some
            (mkObject (fst (construct (Some (IsFunction capability_executor)) None))
                      Abortable [] false ap rp)).
  { cbn [g2 objects]. rewrite K3 by lia. exact Hd. }
  assert (Hsettle : forall out,
             state_of d (settle_capability d out g2) = Some (settled_by out)).
  { intros out.
    assert (HG : exists G,
               settle_capability d out g2 = with_body d G g2
               /\ state (G (fst (construct (Some (IsFunction capability_executor)) None)))
                  = settled_by out).
    { unfold settle_capability. rewrite Hg2d. cbn [fmap option_fmap option_map kind].
      destruct out as [v|e].
      - exists (resolve v). split; [reflexivity|]. rewrite resolve_state. reflexivity.
      - exists (reject e). split; [reflexivity|]. rewrite reject_state. reflexivity. }
    destruct HG as (G & -> & HG).
    destruct (with_body_spec d G g2 _ Hg2d) as (Hd3 & _).
    cbn [body] in Hd3. unfold state_of. rewrite Hd3, <- HG.
    destruct (state (G _)) eqn:SG;
      cbn [fmap option_fmap option_map set_body set_reactions body];
      rewrite SG; reflexivity. }
  apply run_microtasks_settled.
  2:{ destruct (reaction_outcome f gR s); discriminate. }
  unfold run_job. cbn [onFulfilled onRejected capability].
  destruct s as [|v|x]; [destruct (Hs eq_refl)| |].
  - destruct f as [f|]; cbn [fmap option_fmap option_map call_handler reaction_outcome];
      apply Hsettle.
  - destruct gR as [k|];
      cbn [fmap option_fmap option_map call_handler reaction_outcome rejection_outcome];
      apply Hsettle.
Qed.

(** X14.  [chained = root.then(f, g)] on a pending AbortablePromise.  When
    a function of the root's closure later settles the root ([resolve]
    called by the work function, [reject], an [abort] under
    [rejectOnAbort], ...), [chained] is still pending at that moment, and
    once the jobs queued before have run it is settled with what the
    handlers make of the root's settlement: [f v] for a root fulfilled
    with [v] ([v] itself without [f]), [g x] for a root rejected with [x]
    (rejected with [x] without [g]); a handler that throws rejects it. *)
Theorem then_maps_settlement h root o f g F s n :
  well_formed h = true ->
  objects h !! root = Some o ->
  kind o = Abortable ->
  state (body o) = Pending ->
  state (F (body o)) = s ->
  s <> Pending ->
  let chained := fst (then_ root (HFunction <$> f) (HFunction <$> g) h) in
  let h1 := snd (then_ root (HFunction <$> f) (HFunction <$> g) h) in
  let h2 := with_body root F h1 in
  let fuel := length (jobs h) + length (reactions o) + S n in
  chained = length (objects h)
  /\ state_of chained h1 = Some Pending
  /\ state_of chained h2 = Some Pending
  /\ state_of root h2 = Some s
  /\ state_of chained (run_microtasks fuel h2)
     = Some (settled_by (reaction_outcome f g s))
  /\ state_of root (run_microtasks fuel h2) = Some s.
Proof.
  intros Hwf Ho Hk Hpend HF Hs chained h1 h2 fuel.
  assert (Hlt : root < length (objects h)) by (eapply lookup_lt_Some; eauto).
  destruct (then_abortable root (HFunction <$> f) (HFunction <$> g) h o Ho Hk)
    as (h1' & E & Hlen & Hd & Hi & Hother1 & Hjobs).
  subst fuel h2 h1 chained. rewrite E. cbn [fst snd].
  set (d := length (objects h)) in *.
  rewrite Hpend in Hi, Hjobs. rewrite app_nil_r in Hjobs.
  destruct (with_body_spec root F h1' _ Hi) as (Hroot & Hother & Hlen2 & Hjobs2).
  cbn [body set_handled set_reactions reactions] in Hroot, Hjobs2.
  rewrite HF in Hroot, Hjobs2. rewrite Hjobs in Hjobs2.
  assert (Hjobs3 : jobs (with_body root F h1') =
            (jobs h ++ map (fun r => ReactionJob r s) (reactions o))
            ++ [ReactionJob (mkReaction d (HFunction <$> f) (HFunction <$> g)) s]).
  { rewrite Hjobs2. destruct s; [destruct (Hs eq_refl)| |];
      rewrite map_app, app_assoc; reflexivity. }
  set (h2 := with_body root F h1') in *.
  assert (Hd2 : objects h2 !! d = Some
            (mkObject (fst (construct (Some (IsFunction capability_executor)) None))
                      Abortable [] false (abort_prop o) (reject_prop o))).
  { rewrite Hother; [exact Hd | subst d; lia]. }
  assert (Hroot_state : state_of root h2 = Some s).
  { unfold state_of. rewrite Hroot.
    destruct s; [destruct (Hs eq_refl)| |]; cbn; rewrite HF; reflexivity. }
  split; [reflexivity|].
  split; [unfold state_of; rewrite Hd; reflexivity|].
  split; [unfold state_of; rewrite Hd2; reflexivity|].
  split; [exact Hroot_state|].
  split; [|apply run_microtasks_settled; [exact Hroot_state | exact Hs]].
  set (J := jobs h ++ map (fun r => ReactionJob r s) (reactions o)) in *.
  assert (HJ : forallb (job_below d) J = true).
  { subst J. rewrite forallb_app. apply andb_true_iff.
    split; [exact (well_formed_jobs_below _ Hwf)|].
    pose proof (well_formed_objects_below _ Hwf root o Hlt Ho) as Hro.
    rewrite forallb_forall in *. intros jb Hin.
    apply in_map_iff in Hin as (r & <- & Hr). cbn. auto. }
  assert (Hb : objects_below d (objects h2)).
  { intros i oi Hi' Hlook. destruct (Nat.eq_dec i root) as [->|Hne].
    - rewrite Hroot in Hlook. injection Hlook as <-.
      destruct s; [destruct (Hs eq_refl)| |]; reflexivity.
    - rewrite Hother, Hother1 in Hlook by (auto; subst d; lia).
      eapply (well_formed_objects_below _ Hwf); eauto. }
  assert (HlenJ : length J = length (jobs h) + length (reactions o)).
  { subst J. rewrite length_app, length_map. reflexivity. }
  rewrite <- HlenJ.
  exact (reaction_job_settles h2 d J f g s _ _ n Hjobs3 HJ Hb Hd2 Hs).
Qed.

Lemma then_maps_settlement_witness :
  let h := snd (new_AbortablePromise (Some (IsFunction (Return RUndefined))) None
                                     empty_heap) in
  let o := mkObject (fst (construct (Some (IsFunction (Return RUndefined))) None))
                    Abortable [] false (Some 0) (Some 0) in
  let f := Some (fun v : Value =>
                   match v with
                   | VNum n => Returns (VNum (n + 1))
                   | _ => Throws v
                   end) in
  let g := @None (Value -> Outcome) in
  let h1 := snd (then_ 0 (HFunction <$> f) (HFunction <$> g) h) in
  well_formed h = true
  /\ objects h !! 0 = Some o
  /\ kind o = Abortable
  /\ state (body o) = Pending
  /\ state (resolve (VNum 1) (body o)) = Fulfilled (VNum 1)
  /\ state_of 1 (with_body 0 (resolve (VNum 1)) h1) = Some Pending
  /\ state_of 1 (run_microtasks 1 (with_body 0 (resolve (VNum 1)) h1))
     = Some (Fulfilled (VNum 2)).
Proof.
  intros h o f g h1.
  assert (Hne : Fulfilled (VNum 1) <> Pending) by discriminate.
  destruct (then_maps_settlement h 0 o f g (resolve (VNum 1)) (Fulfilled (VNum 1)) 0
              eq_refl eq_refl eq_refl eq_refl eq_refl Hne)
    as (_ & _ & H3 & _ & H5 & _).
  do 5 (split; [reflexivity|]).
  split; [exact H3 | exact H5].
Defined.

(** X15.  [chained = root.then(f, g)] on an AbortablePromise that is
    already settled.  The handler is not called during the call: the
    reaction job is queued at once, after the jobs already waiting,
    [chained] is pending when [then] returns and the root counts as
    handled.  When the queue reaches the job, [chained] is settled with
    what the handlers make of the root's settlement. *)
Theorem then_on_settled_promise h root o f g n :
  well_formed h = true ->
  objects h !! root = Some o ->
  kind o = Abortable ->
  state (body o) <> Pending ->
  let chained := fst (then_ root (HFunction <$> f) (HFunction <$> g) h) in
  let h1 := snd (then_ root (HFunction <$> f) (HFunction <$> g) h) in
  chained = length (objects h)
  /\ jobs h1 = jobs h ++ [ReactionJob (mkReaction chained (HFunction <$> f)
                                                   (HFunction <$> g))
                                      (state (body o))]
  /\ objects h1 !! root = Some (set_handled o)
  /\ state_of chained h1 = Some Pending
  /\ state_of chained (run_microtasks (length (jobs h) + S n) h1)
     = Some (settled_by (reaction_outcome f g (state (body o))))
  /\ state_of root (run_microtasks (length (jobs h) + S n) h1) = Some (state (body o)).
Proof.
  intros Hwf Ho Hk Hs chained h1.
  assert (Hlt : root < length (objects h)) by (eapply lookup_lt_Some; eauto).
  destruct (then_abortable root (HFunction <$> f) (HFunction <$> g) h o Ho Hk)
    as (h1' & E & Hlen & Hd & Hi & Hother1 & Hjobs).
  subst h1 chained. rewrite E. cbn [fst snd].
  set (d := length (objects h)) in *.
  assert (Hi' : objects h1' !! root = Some (set_handled o)).
  { rewrite Hi. destruct (state (body o)); [destruct (Hs eq_refl)| |]; reflexivity. }
  assert (Hjobs' : jobs h1' =
            jobs h ++ [ReactionJob (mkReaction d (HFunction <$> f) (HFunction <$> g))
                                   (state (body o))]).
  { rewrite Hjobs. destruct (state (body o)); [destruct (Hs eq_refl)| |]; reflexivity. }
  assert (Hb : objects_below d (objects h1')).
  { intros i oi Hlti Hlook. destruct (Nat.eq_dec i root) as [->|Hne].
    - rewrite Hi' in Hlook. injection Hlook as <-.
      exact (well_formed_objects_below _ Hwf root o Hlt Ho).
    - rewrite Hother1 in Hlook by (auto; subst d; lia).
      eapply (well_formed_objects_below _ Hwf); eauto. }
  split; [reflexivity|]. split; [exact Hjobs'|]. split; [exact Hi'|].
  split; [unfold state_of; rewrite Hd; reflexivity|].
  split.
  - exact (reaction_job_settles h1' d (jobs h) f g (state (body o)) _ _ n
             Hjobs' (well_formed_jobs_below _ Hwf) Hb Hd Hs).
  - apply run_microtasks_settled; [|exact Hs].
    unfold state_of. rewrite Hi'. reflexivity.
Qed.

Lemma then_on_settled_promise_witness :
  let h := snd (new_AbortablePromise
                  (Some (IsFunction (CallReject (VStr "no") (Return RUndefined))))
                  None empty_heap) in
  let o := mkObject (fst (construct
                            (Some (IsFunction (CallReject (VStr "no") (Return RUndefined))))
                            None))
                    Abortable [] false (Some 0) (Some 0) in
  let f := @None (Value -> Outcome) in
  let g := Some (fun _ : Value => Returns (VStr "recovered")) in
  let h1 := snd (then_ 0 (HFunction <$> f) (HFunction <$> g) h) in
  well_formed h = true
  /\ objects h !! 0 = Some o
  /\ kind o = Abortable
  /\ state (body o) = Rejected (VStr "no")
  /\ state_of 1 h1 = Some Pending
  /\ state_of 1 (run_microtasks 1 h1) = Some (Fulfilled (VStr "recovered")).
Proof.
  intros h o f g h1.
  assert (Hne : state (body o) <> Pending) by (vm_compute; discriminate).
  destruct (then_on_settled_promise h 0 o f g 0 eq_refl eq_refl eq_refl Hne)
    as (_ & _ & _ & H4 & H5 & _).
  do 4 (split; [vm_compute; reflexivity|]).
  split; [exact H4 | exact H5].
Defined.

End ChainMapping.
